(** * deep-research: the research memory, the auto-tuner, the content
    classifier and the recursive research engine, embedded and verified.

    Python [str] values are modelled as lists of 8-bit characters
    ([list ascii]); the operations below act on the ASCII letters, digits
    and blanks exactly as [str.lower], [in], [str.count], [str.split] and
    the [re] module do on ASCII text.  Beyond ASCII Python folds more:
    under [(?i)] the letters s, i and k also match U+017F, U+0130, U+0131
    and U+212A, and [str.lower] changes capitals outside A-Z.  Where a
    statement would not hold of Python on such text, it is made for ASCII
    text, under the hypothesis [isascii].  Python [int] is [Z].  A finite
    Python [float] is a rational number, so floats are values of [Q];
    comparisons are exact and every arithmetic operation rounds its exact
    result with a rounding operator [rnd] (see [Rounding]). *)

From Stdlib Require Import String Ascii List ZArith QArith Qround Qminmax.
From Stdlib Require Import Lia Lqa Bool Arith PeanoNat.
Import ListNotations.

Close Scope Q_scope.
Open Scope string_scope.
Open Scope list_scope.
Open Scope bool_scope.

(* ================================================================== *)
(** ** Python strings *)
(* ================================================================== *)

Module Text.

Definition str := list ascii.

Definition of_string (s : string) : str := list_ascii_of_string s.
Coercion of_string : string >-> str.
Notation "$ s" := (of_string s) (at level 1, s at level 0, format "$ s").

Definition in_range (lo hi : nat) (c : ascii) : bool :=
  let n := nat_of_ascii c in (lo <=? n)%nat && (n <=? hi)%nat.

Definition is_upper (c : ascii) : bool := in_range 65 90 c.   (* [A-Z] *)
Definition is_lower (c : ascii) : bool := in_range 97 122 c.  (* [a-z] *)
Definition is_digit (c : ascii) : bool := in_range 48 57 c.   (* [0-9] *)

(** The characters [str.split()] treats as blanks. *)
Definition is_space (c : ascii) : bool :=
  in_range 9 13 c || in_range 28 32 c.

Definition lower_char (c : ascii) : ascii :=
  if is_upper c then ascii_of_nat (nat_of_ascii c + 32) else c.

(** [s.lower()], as it acts on ASCII text. *)
Definition lower (s : str) : str := map lower_char s.

(** [s.isascii()] *)
Definition isascii (s : str) : bool :=
  forallb (fun c => (nat_of_ascii c <? 128)%nat) s.

Fixpoint starts_with (p s : str) : bool :=
  match p, s with
  | [], _ => true
  | a :: p', b :: s' => Ascii.eqb a b && starts_with p' s'
  | _ :: _, [] => false
  end.

(** [p in s] *)
Fixpoint contains (p s : str) : bool :=
  starts_with p s ||
  match s with
  | [] => false
  | _ :: t => contains p t
  end.

(** [s.count(p)] for a non-empty [p]: occurrences are counted from the
    left and do not overlap; [skip] is the number of characters still
    covered by the occurrence just counted. *)
Fixpoint count_aux (p : str) (skip : nat) (s : str) : nat :=
  match s with
  | [] => 0
  | _ :: t =>
      match skip with
      | S k => count_aux p k t
      | O => if starts_with p s
             then S (count_aux p (length p - 1) t)
             else count_aux p 0 t
      end
  end.

Definition count (p s : str) : nat := count_aux p 0 s.

(** [sep.join(l)] *)
Fixpoint join (sep : str) (l : list str) : str :=
  match l with
  | [] => []
  | [x] => x
  | x :: rest => x ++ sep ++ join sep rest
  end.

(** [s.split()]: maximal runs of non-blank characters. *)
Fixpoint split_aux (cur : str) (s : str) : list str :=
  match s with
  | [] => match cur with [] => [] | _ => [rev cur] end
  | c :: t =>
      if is_space c
      then match cur with
           | [] => split_aux [] t
           | _ => rev cur :: split_aux [] t
           end
      else split_aux (c :: cur) t
  end.

Definition split (s : str) : list str := split_aux [] s.

Definition str_dec : forall a b : str, {a = b} + {a <> b} :=
  list_eq_dec ascii_dec.

Definition str_eqb (a b : str) : bool :=
  if str_dec a b then true else false.

(** [x in l] for a list of strings. *)
Definition mem (x : str) (l : list str) : bool :=
  existsb (str_eqb x) l.

(** [len(set(l))] *)
Fixpoint dedup (l : list str) : list str :=
  match l with
  | [] => []
  | x :: t => if mem x t then dedup t else x :: dedup t
  end.

(** [str(n)] and [int(s)] for decimal numerals. *)
Definition digit_char (d : nat) : ascii := ascii_of_nat (48 + d).

Fixpoint digits_of_pos (fuel : nat) (n : Z) (acc : str) : str :=
  match fuel with
  | O => acc
  | S f =>
      let acc' := digit_char (Z.to_nat (n mod 10)) :: acc in
      if (n / 10 =? 0)%Z then acc' else digits_of_pos f (n / 10) acc'
  end.

Definition str_of_Z (n : Z) : str :=
  if (n <? 0)%Z
  then "-"%char :: digits_of_pos (S (Z.to_nat (Z.log2 (- n)))) (- n) []
  else digits_of_pos (S (Z.to_nat (Z.log2 n))) n [].

Definition int_of_digits (s : str) : Z :=
  fold_left (fun acc c => (acc * 10 + Z.of_nat (nat_of_ascii c - 48))%Z) s 0%Z.

End Text.

Import Text.

(* ================================================================== *)
(** ** The fragment of Python's [re] the program uses *)
(* ================================================================== *)

Module Re.

(** Patterns.  Every repetition in the program's patterns is over a single
    character class, so [Rep] repeats a class; [greedy = false] is the
    lazy form ([*?]). *)
Inductive regex : Type :=
| Chr (p : ascii -> bool)
| Eps
| Seq (r1 r2 : regex)
| Alt (r1 r2 : regex)
| Rep (greedy : bool) (lo : nat) (hi : option nat) (p : ascii -> bool)
| Group (n : nat) (r : regex).

(** Captured groups, most recent first. *)
Definition captures := list (nat * str).

Definition hi_open (hi : option nat) : bool :=
  match hi with Some O => false | _ => true end.

Definition hi_pred (hi : option nat) : option nat :=
  match hi with Some n => Some (pred n) | None => None end.

Section Matcher.
Context {A : Type}.

(** [p{lo,hi}] followed by the continuation [k], longest first. *)
Fixpoint rep_greedy (p : ascii -> bool) (lo : nat) (hi : option nat)
         (s : str) (k : str -> option A) : option A :=
  let stop := match lo with O => k s | S _ => None end in
  match s with
  | c :: t =>
      if hi_open hi && p c
      then match rep_greedy p (pred lo) (hi_pred hi) t k with
           | Some x => Some x
           | None => stop
           end
      else stop
  | [] => stop
  end.

(** [p{lo,hi}?] followed by the continuation [k], shortest first. *)
Fixpoint rep_lazy (p : ascii -> bool) (lo : nat) (hi : option nat)
         (s : str) (k : str -> option A) : option A :=
  let more :=
    match s with
    | c :: t =>
        if hi_open hi && p c
        then rep_lazy p (pred lo) (hi_pred hi) t k
        else None
    | [] => None
    end in
  match lo with
  | O => match k s with Some x => Some x | None => more end
  | S _ => more
  end.

(** Backtracking matcher in continuation-passing style: alternatives are
    tried left to right, and a failure of the continuation makes the
    matcher try the next possibility. *)
Fixpoint rmatch (r : regex) (s : str) (cs : captures)
         (k : str -> captures -> option A) : option A :=
  match r with
  | Chr p =>
      match s with
      | c :: t => if p c then k t cs else None
      | [] => None
      end
  | Eps => k s cs
  | Seq r1 r2 => rmatch r1 s cs (fun s' cs' => rmatch r2 s' cs' k)
  | Alt r1 r2 =>
      match rmatch r1 s cs k with
      | Some x => Some x
      | None => rmatch r2 s cs k
      end
  | Rep true lo hi p => rep_greedy p lo hi s (fun s' => k s' cs)
  | Rep false lo hi p => rep_lazy p lo hi s (fun s' => k s' cs)
  | Group n r1 =>
      rmatch r1 s cs
        (fun s' cs' => k s' ((n, firstn (length s - length s') s) :: cs'))
  end.
End Matcher.

(** A match object: the matched text ([group(0)]), the numbered groups and
    the text that follows the match. *)
Record match_obj := MkMatch {
  group0 : str;
  groups : captures;
  rest : str
}.

Fixpoint lookup (n : nat) (cs : captures) : str :=
  match cs with
  | [] => []
  | (m, v) :: cs' => if (n =? m)%nat then v else lookup n cs'
  end.

Definition group (m : match_obj) (n : nat) : str :=
  match n with O => group0 m | _ => lookup n (groups m) end.

(** [re.match] at the head of [s]. *)
Definition match_here (r : regex) (s : str) : option match_obj :=
  rmatch r s []
    (fun s' cs => Some (MkMatch (firstn (length s - length s') s) cs s')).

(** [re.finditer]: matches from left to right, without overlap.  [skip]
    is the number of characters still covered by the last match.  The
    program's patterns never match the empty string. *)
Fixpoint finditer_aux (r : regex) (skip : nat) (s : str) : list match_obj :=
  match s with
  | [] => []
  | _ :: t =>
      match skip with
      | S k => finditer_aux r k t
      | O =>
          match match_here r s with
          | Some m => m :: finditer_aux r (length (group0 m) - 1) t
          | None => finditer_aux r 0 t
          end
      end
  end.

Definition finditer (r : regex) (s : str) : list match_obj :=
  finditer_aux r 0 s.

(** [re.search] *)
Definition search (r : regex) (s : str) : option match_obj :=
  hd_error (finditer r s).

(** Pattern building blocks. *)
Definition any_char (c : ascii) : bool :=              (* [.] *)
  negb (Ascii.eqb c "010"%char).
Definition chr_eq (a : ascii) (c : ascii) : bool := Ascii.eqb a c.
(** A letter of a pattern under [(?i)], as it matches ASCII text. *)
Definition chr_ci (a : ascii) (c : ascii) : bool :=
  Ascii.eqb (lower_char a) (lower_char c).

Fixpoint word (s : str) : regex :=
  match s with
  | [] => Eps
  | [c] => Chr (chr_eq c)
  | c :: t => Seq (Chr (chr_eq c)) (word t)
  end.

Fixpoint word_ci (s : str) : regex :=
  match s with
  | [] => Eps
  | [c] => Chr (chr_ci c)
  | c :: t => Seq (Chr (chr_ci c)) (word_ci t)
  end.

Fixpoint alts (rs : list regex) : regex :=
  match rs with
  | [] => Chr (fun _ => false)
  | [r] => r
  | r :: rest => Alt r (alts rest)
  end.

Fixpoint seqs (rs : list regex) : regex :=
  match rs with
  | [] => Eps
  | [r] => r
  | r :: rest => Seq r (seqs rest)
  end.

Definition plus (p : ascii -> bool) : regex := Rep true 1 None p.    (* p+ *)
Definition upto (n : nat) (p : ascii -> bool) : regex :=             (* p{0,n} *)
  Rep true 0 (Some n) p.
Definition lazy_star (p : ascii -> bool) : regex := Rep false 0 None p. (* p*? *)
Definition opt (p : ascii -> bool) : regex := Rep true 0 (Some 1) p. (* p? *)

(** What a successful match of [r] does: it takes a prefix off [s],
    leaving [s'], and records its groups, turning [cs] into [cs']. *)
Fixpoint consumes (r : regex) (s : str) (cs : captures)
         (s' : str) (cs' : captures) : Prop :=
  match r with
  | Chr p => exists c, s = c :: s' /\ p c = true /\ cs' = cs
  | Eps => s' = s /\ cs' = cs
  | Seq r1 r2 =>
      exists s1 cs1, consumes r1 s cs s1 cs1 /\ consumes r2 s1 cs1 s' cs'
  | Alt r1 r2 => consumes r1 s cs s' cs' \/ consumes r2 s cs s' cs'
  | Rep _ lo hi p =>
      cs' = cs /\
      exists run, s = run ++ s' /\ forallb p run = true /\
                  (lo <= length run)%nat /\
                  match hi with
                  | Some h => (length run <= h)%nat
                  | None => True
                  end
  | Group n r1 =>
      exists cs1, consumes r1 s cs s' cs1 /\
                  cs' = (n, firstn (length s - length s') s) :: cs1
  end.

(** Patterns without groups. *)
Fixpoint no_groups (r : regex) : bool :=
  match r with
  | Chr _ | Eps | Rep _ _ _ _ => true
  | Seq r1 r2 | Alt r1 r2 => no_groups r1 && no_groups r2
  | Group _ _ => false
  end.

End Re.

Import Re.

(* ================================================================== *)
(** ** Exceptions *)
(* ================================================================== *)

(** A raised exception, with the text [str(e)] gives. *)
Inductive exn : Type := Exn (msg : str).

Definition exn_msg (e : exn) : str := match e with Exn m => m end.

(** The result of a call that may raise. *)
Inductive res (A : Type) : Type :=
| Ok (a : A)
| Raise (e : exn).
Arguments Ok {A} a.
Arguments Raise {A} e.

Definition res_bind {A B} (c : res A) (k : A -> res B) : res B :=
  match c with
  | Ok a => k a
  | Raise e => Raise e
  end.

Declare Scope res_scope.
Delimit Scope res_scope with res.
Notation "x <- c ;; k" := (res_bind c (fun x => k))
  (at level 61, c at next level, right associativity) : res_scope.

(** [int(s)]: a non-empty string of decimal digits. *)
Definition int (s : str) : res Z :=
  match s with
  | [] => Raise (Exn "invalid literal for int() with base 10: ''")
  | _ => if forallb is_digit s
         then Ok (int_of_digits s)
         else Raise (Exn ($"invalid literal for int() with base 10: '" ++ s ++ $"'"))
  end.

(** [l.index(x)] *)
Fixpoint index (x : str) (l : list str) : res Z :=
  match l with
  | [] => Raise (Exn ($"'" ++ x ++ $"' is not in list"))
  | y :: t => if str_eqb x y then Ok 0%Z
              else res_bind (index x t) (fun i => Ok (i + 1)%Z)
  end.

(* ================================================================== *)
(** ** Floats *)
(* ================================================================== *)

Module Float.

(** The rounding of the float format: every arithmetic operation returns
    the rounding of its exact result. *)
Class Rounding := { rnd : Q -> Q }.

(** A finite binary64 number: [m * 2^e] with a 53-bit [m]. *)
Definition representable (x : Q) : Prop :=
  exists m e : Z,
    (Z.abs m < 2 ^ 53)%Z /\ (-1074 <= e <= 971)%Z /\
    (x == inject_Z m * Qpower 2 e)%Q.

(** What the development uses of IEEE 754 rounding: it is monotone and
    leaves representable numbers unchanged. *)
Class RoundingLaws (R : Rounding) : Prop := {
  rnd_mono : forall x y : Q, (x <= y)%Q -> (rnd x <= rnd y)%Q;
  rnd_fix : forall x : Q, representable x -> (rnd x == x)%Q
}.

(** Exact arithmetic, the rounding that changes nothing. *)
Definition exact : Rounding := {| rnd := fun x => x |}.

Section Ops.
Context {R : Rounding}.

Definition of_int (n : Z) : Q := rnd (inject_Z n).
Definition fadd (x y : Q) : Q := rnd (x + y)%Q.
Definition fsub (x y : Q) : Q := rnd (x - y)%Q.
Definition fmul (x y : Q) : Q := rnd (x * y)%Q.

(** [x / y] on floats. *)
Definition fdiv (x y : Q) : res Q :=
  if Qeq_bool y 0 then Raise (Exn "float division by zero")
  else Ok (rnd (x / y)%Q).

(** [a / b] on ints: the rounding of the exact quotient. *)
Definition int_truediv (a b : Z) : res Q :=
  if (b =? 0)%Z then Raise (Exn "division by zero")
  else Ok (rnd (inject_Z a / inject_Z b)%Q).
End Ops.

Definition ltb (x y : Q) : bool := negb (Qle_bool y x).
Definition gtb (x y : Q) : bool := ltb y x.

(** [min(a, b)] and [max(a, b)] as Python computes them: the first
    argument unless the second is strictly smaller (larger). *)
Definition fmin (a b : Q) : Q := if ltb b a then b else a.
Definition fmax (a b : Q) : Q := if gtb b a then b else a.

(** [round(x)]: to the nearest integer, ties to the even one. *)
Definition round (x : Q) : Z :=
  let f := Qfloor x in
  let r := (x - inject_Z f)%Q in
  if ltb r (1 # 2) then f
  else if gtb r (1 # 2) then (f + 1)%Z
  else if Z.even f then f else (f + 1)%Z.

(** The decimal literals of the source, as the binary64 numbers they
    denote. *)
Definition f0_2 : Q := 3602879701896397 # 18014398509481984.
Definition f0_3 : Q := 5404319552844595 # 18014398509481984.
Definition f0_4 : Q := 3602879701896397 # 9007199254740992.
Definition f0_5 : Q := 1 # 2.
Definition f0_6 : Q := 5404319552844595 # 9007199254740992.  (* 0.3 + 0.3 *)
Definition f0_7 : Q := 3152519739159347 # 4503599627370496.
Definition f0_8 : Q := 3602879701896397 # 4503599627370496.

End Float.

Import Float.

(* ================================================================== *)
(** ** datetime *)
(* ================================================================== *)

Record datetime := MkDatetime {
  dt_year : Z; dt_month : Z; dt_day : Z;
  dt_hour : Z; dt_minute : Z; dt_second : Z; dt_microsecond : Z
}.

Definition dt_fields (d : datetime) : list Z :=
  [dt_year d; dt_month d; dt_day d; dt_hour d; dt_minute d; dt_second d;
   dt_microsecond d].

Fixpoint lex_ltb (a b : list Z) : bool :=
  match a, b with
  | x :: a', y :: b' => (x <? y)%Z || ((x =? y)%Z && lex_ltb a' b')
  | _, _ => false
  end.

(** [d1 < d2] *)
Definition dt_ltb (d1 d2 : datetime) : bool :=
  lex_ltb (dt_fields d1) (dt_fields d2).

(** [datetime(year, month, 1)] *)
Definition first_of_month (year month : Z) : res datetime :=
  if ((1 <=? year) && (year <=? 9999))%Z then
    if ((1 <=? month) && (month <=? 12))%Z
    then Ok (MkDatetime year month 1 0 0 0 0)
    else Raise (Exn "month must be in 1..12")
  else Raise (Exn ($"year " ++ str_of_Z year ++ $" is out of range")).

(** [strftime] with two- and four-digit fields. *)
Definition pad (width : nat) (n : Z) : str :=
  let d := str_of_Z n in
  repeat "0"%char (width - length d) ++ d.

(** [d.strftime("%Y-%m-%d")] *)
Definition strftime_date (d : datetime) : str :=
  pad 4 (dt_year d) ++ $"-" ++ pad 2 (dt_month d) ++ $"-" ++ pad 2 (dt_day d).

Definition strftime_clock (d : datetime) : str :=
  pad 2 (dt_hour d) ++ $":" ++ pad 2 (dt_minute d) ++ $":" ++
  pad 2 (dt_second d).

(** [d.strftime("%Y-%m-%d %H:%M:%S")] *)
Definition strftime_full (d : datetime) : str :=
  strftime_date d ++ $" " ++ strftime_clock d.

(** [d.isoformat()] *)
Definition isoformat (d : datetime) : str :=
  strftime_date d ++ $"T" ++ strftime_clock d ++
  (if (dt_microsecond d =? 0)%Z then []
   else $"." ++ pad 6 (dt_microsecond d)).

(* ================================================================== *)
(** ** memory.py: ResearchMemory *)
(* ================================================================== *)

Module Memory.

Record Contradiction := MkContradiction {
  topic : str;
  claim1 : str;
  claim2 : str;
  source1 : str;
  source2 : str;
  timestamp : str
}.

Record SourceEvaluation := MkSourceEvaluation {
  url : str;
  title : str;
  credibility_rating : str;
  relevance_rating : str;
  justification : str;
  key_points : list str
}.

(** One topic of the information map. *)
Record InfoEntry := MkInfoEntry {
  consensus : list str;
  info_contradictions : list str;
  gaps : list str
}.

Record ResearchMemory := MkMemory {
  learnings : list str;
  visited_urls : list str;
  chain_of_thought : list str;
  information_map : list (str * InfoEntry);
  contradictions : list Contradiction;
  source_evaluations : list SourceEvaluation;
  current_date : datetime
}.

(** [ResearchMemory()]; [now] is the clock reading of the constructor. *)
Definition init (now : datetime) : ResearchMemory :=
  MkMemory [] [] [] [] [] [] now.

Definition set_learnings (l : list str) (m : ResearchMemory) :=
  MkMemory l (visited_urls m) (chain_of_thought m) (information_map m)
           (contradictions m) (source_evaluations m) (current_date m).

Definition set_visited_urls (l : list str) (m : ResearchMemory) :=
  MkMemory (learnings m) l (chain_of_thought m) (information_map m)
           (contradictions m) (source_evaluations m) (current_date m).

Definition set_chain_of_thought (l : list str) (m : ResearchMemory) :=
  MkMemory (learnings m) (visited_urls m) l (information_map m)
           (contradictions m) (source_evaluations m) (current_date m).

Definition set_contradictions (l : list Contradiction) (m : ResearchMemory) :=
  MkMemory (learnings m) (visited_urls m) (chain_of_thought m)
           (information_map m) l (source_evaluations m) (current_date m).

Definition set_source_evaluations (l : list SourceEvaluation)
           (m : ResearchMemory) :=
  MkMemory (learnings m) (visited_urls m) (chain_of_thought m)
           (information_map m) (contradictions m) l (current_date m).

Definition add_learning (learning : str) (m : ResearchMemory)
  : ResearchMemory :=
  if mem learning (learnings m) then m
  else set_learnings (learnings m ++ [learning]) m.

Definition add_learnings (new_learnings : list str) (m : ResearchMemory)
  : ResearchMemory :=
  fold_left (fun m' l => add_learning l m') new_learnings m.

Definition add_url (u : str) (m : ResearchMemory) : ResearchMemory :=
  if mem u (visited_urls m) then m
  else set_visited_urls (visited_urls m ++ [u]) m.

Definition add_urls (new_urls : list str) (m : ResearchMemory)
  : ResearchMemory :=
  fold_left (fun m' u => add_url u m') new_urls m.

(** [now] is the clock reading taken by the call. *)
Definition add_thought (now : datetime) (thought : str) (m : ResearchMemory)
  : ResearchMemory :=
  set_chain_of_thought
    (chain_of_thought m ++ [$"[" ++ strftime_full now ++ $"] " ++ thought]) m.

(** The call reads the clock twice: for the record and for the thought. *)
Definition add_contradiction (now1 now2 : datetime)
           (topic claim1 claim2 source1 source2 : str) (m : ResearchMemory)
  : ResearchMemory :=
  let c := MkContradiction topic claim1 claim2 source1 source2
                           (isoformat now1) in
  add_thought now2
    ($"Contradiction detected in topic '" ++ topic ++ $"': " ++ claim1 ++
     $" vs " ++ claim2)
    (set_contradictions (contradictions m ++ [c]) m).

Definition add_source_evaluation (e : SourceEvaluation) (m : ResearchMemory)
  : ResearchMemory :=
  set_source_evaluations (source_evaluations m ++ [e]) m.

End Memory.

(* ================================================================== *)
(** ** content_classifier.py: ContentClassifier *)
(* ================================================================== *)

Module ContentClassifier.

Definition month_names : list str :=
  map of_string
    ["january"; "february"; "march"; "april"; "may"; "june"; "july";
     "august"; "september"; "october"; "november"; "december"].

(** [(january|february|...|december)] under [(?i)] *)
Definition month_alt : regex := alts (map word_ci month_names).

(** [(20\d\d)] *)
Definition year_20xx : regex :=
  seqs [word $"20"; Chr is_digit; Chr is_digit].

Definition upcoming_pattern : regex :=
  seqs [word_ci $"upcoming"; upto 50 any_char; Group 1 month_alt;
        upto 10 any_char; Group 2 year_20xx].

Definition scheduled_pattern : regex :=
  seqs [word_ci $"scheduled"; lazy_star any_char; word_ci $"for";
        lazy_star any_char; Group 1 month_alt; lazy_star any_char;
        Group 2 year_20xx].

(** The date of the event of a match: day 1 of its month and year. *)
Definition event_date (m : match_obj) : res datetime :=
  (let month := lower (group m 1) in
   year <- int (group m 2) ;;
   i <- index month month_names ;;
   first_of_month year (i + 1))%res.

Definition upcoming_message (m : match_obj) : str :=
  $"Temporal inconsistency: '" ++ group m 0 ++
  $"' refers to a past event as upcoming".

Definition scheduled_message (m : match_obj) : str :=
  $"Temporal inconsistency: '" ++ group m 0 ++
  $"' refers to a scheduled event that should have already occurred".

(** One of the two [for match in ...] loops: the message of the first
    match whose event lies before [current_date], if there is one. *)
Fixpoint first_past_event (current_date : datetime)
         (message : match_obj -> str) (ms : list match_obj)
  : res (option str) :=
  match ms with
  | [] => Ok None
  | m :: ms' =>
      (d <- event_date m ;;
       if dt_ltb d current_date then Ok (Some (message m))
       else first_past_event current_date message ms')%res
  end.

Definition validate_temporal_consistency (current_date : datetime)
           (text : str) : res (bool * str) :=
  (up <- first_past_event current_date upcoming_message
                          (finditer upcoming_pattern text) ;;
   match up with
   | Some msg => Ok (false, msg)
   | None =>
       sc <- first_past_event current_date scheduled_message
                              (finditer scheduled_pattern text) ;;
       match sc with
       | Some msg => Ok (false, msg)
       | None => Ok (true, $"No temporal inconsistencies detected")
       end
   end)%res.

(** [(by|in|reach|hitting)] under [(?i)] *)
Definition projection_verbs : regex :=
  alts (map word_ci [$"by"; $"in"; $"reach"; $"hitting"]).

(** [(20[3-9]\d)] *)
Definition year_from_2030 : regex :=
  seqs [word $"20"; Chr (in_range 51 57); Chr is_digit].

(** [([0-9,]+\.[0-9]+)] *)
Definition decimal_number : regex :=
  seqs [plus (fun c => is_digit c || chr_eq ","%char c);
        Chr (chr_eq "."%char);
        plus is_digit].

(** [(?i)(by|in|reach|hitting).{0,20}(20[3-9]\d).{0,50}\$?([0-9,]+\.[0-9]+)] *)
Definition long_term_projection_pattern : regex :=
  seqs [Group 1 projection_verbs;
        upto 20 any_char;
        Group 2 year_from_2030;
        upto 50 any_char;
        opt (chr_eq "$"%char);
        Group 3 decimal_number].

(** [s.replace(',', '')] *)
Definition remove_commas (s : str) : str :=
  filter (fun c => negb (Ascii.eqb c ","%char)) s.

Definition precision_message (m : match_obj) (years_ahead : Z) : str :=
  $"Unreasonable precision: '" ++ group m 0 ++
  $"' has decimal precision for a " ++ str_of_Z years_ahead ++
  $"-year forecast".

(** Whether a match is flagged, and with which [years_ahead]. *)
Definition too_precise (current_date : datetime) (m : match_obj)
  : res (bool * Z) :=
  (year <- int (group m 2) ;;
   let value := remove_commas (group m 3) in
   let years_ahead := (year - dt_year current_date)%Z in
   Ok ((10 <? years_ahead)%Z && contains $"." value, years_ahead))%res.

Fixpoint first_too_precise (current_date : datetime) (ms : list match_obj)
  : res (option str) :=
  match ms with
  | [] => Ok None
  | m :: ms' =>
      (f <- too_precise current_date m ;;
       if fst f then Ok (Some (precision_message m (snd f)))
       else first_too_precise current_date ms')%res
  end.

Definition validate_numerical_reasonableness (current_date : datetime)
           (text : str) : res (bool * str) :=
  (r <- first_too_precise current_date
                          (finditer long_term_projection_pattern text) ;;
   match r with
   | Some msg => Ok (false, msg)
   | None => Ok (true, $"No unreasonable numerical projections detected")
   end)%res.

End ContentClassifier.

(* ================================================================== *)
(** ** auto_tuning.py: AutoTuner *)
(* ================================================================== *)

Module AutoTuner.

Record AutoTuner := MkAutoTuner {
  max_depth : Z;
  max_breadth : Z;
  time_budget_seconds : option Z;
  start_time : option Q
}.

(** [AutoTuner(max_depth, max_breadth, time_budget_seconds)] *)
Definition init (max_depth max_breadth : Z) (budget : option Z) : AutoTuner :=
  MkAutoTuner max_depth max_breadth budget None.

Definition set_start_time (t : Q) (a : AutoTuner) : AutoTuner :=
  MkAutoTuner (max_depth a) (max_breadth a) (time_budget_seconds a) (Some t).

(** [([A-Z][a-z]+ [A-Z][a-z]+|[A-Z][a-z]+\.[A-Z][a-z]+|[A-Z][A-Z]+|[A-Z][a-z]+)] *)
Definition entity_pattern : regex :=
  Group 1
    (alts
       [seqs [Chr is_upper; plus is_lower; Chr (chr_eq " "%char);
              Chr is_upper; plus is_lower];
        seqs [Chr is_upper; plus is_lower; Chr (chr_eq "."%char);
              Chr is_upper; plus is_lower];
        seqs [Chr is_upper; plus is_upper];
        seqs [Chr is_upper; plus is_lower]]).

Definition complexity_keywords : list str :=
  map of_string
    ["compare"; "contrast"; "analyze"; "evaluate"; "synthesize";
     "implications"; "impact"; "effects"; "trend"; "development"; "causes";
     "relationship"].

Record ComplexityMetrics := MkMetrics {
  complexity_score : Q;
  entity_count : Z;
  aspect_count : Z;
  complexity_keyword_count : Z
}.

(** [len(re.findall(entity_pattern, query))] *)
Definition count_entities (query : str) : nat :=
  length (finditer entity_pattern query).

Definition count_aspects (query : str) : nat :=
  count $"," query + count $";" query + count $"and" query.

Definition count_keywords (query : str) : nat :=
  length (filter (fun w => contains w (lower query)) complexity_keywords).

Section WithRounding.
Context {R : Rounding}.

(** [(entities * 0.5) + (aspects * 0.3) + (keyword_count * 0.7)] *)
Definition weighted_complexity (entities aspects keyword_count : Z) : Q :=
  fadd (fadd (fmul (of_int entities) f0_5) (fmul (of_int aspects) f0_3))
       (fmul (of_int keyword_count) f0_7).

Definition analyze_question_complexity (query : str)
  : res ComplexityMetrics :=
  (let entities := Z.of_nat (count_entities query) in
   let aspects := Z.of_nat (count_aspects query) in
   let keyword_count := Z.of_nat (count_keywords query) in
   let score := weighted_complexity entities aspects keyword_count in
   q <- fdiv score 10 ;;
   Ok (MkMetrics (fmin 1 q) entities aspects keyword_count))%res.

Definition determine_initial_parameters (self : AutoTuner)
           (metrics : ComplexityMetrics) : Z * Z :=
  let s := complexity_score metrics in
  let depth :=
    Z.max 1 (Z.min (max_depth self)
               (round (fadd (of_int 1)
                              (fmul s (of_int (max_depth self - 1)))))) in
  let breadth :=
    Z.max 2 (Z.min (max_breadth self)
               (round (fadd (of_int 2)
                              (fmul s (of_int (max_breadth self - 2)))))) in
  (depth, breadth).

(** [min(1.0, avg_length / 300)] *)
Definition length_score (learnings : list str) : res Q :=
  (let n := Z.of_nat (length learnings) in
   let total_len :=
     fold_left Z.add (map (fun l => Z.of_nat (length l)) learnings) 0%Z in
   avg_length <- int_truediv total_len n ;;
   l300 <- fdiv avg_length (of_int 300) ;;
   Ok (fmin 1 l300))%res.

(** [max(0, 1 - (contradiction_ratio * 2))] *)
Definition contradiction_score (learnings : list str)
           (contradictions : list Memory.Contradiction) : res Q :=
  (let n := Z.of_nat (length learnings) in
   contradiction_ratio <-
     int_truediv (Z.of_nat (length contradictions)) (Z.max 1 n) ;;
   Ok (fmax 0 (fsub (of_int 1) (fmul contradiction_ratio (of_int 2)))))%res.

(** [min(1.0, unique_words / max(1, total_words) * 3)] *)
Definition diversity_score (learnings : list str) : res Q :=
  (let all_text := join $" " learnings in
   let unique_words := Z.of_nat (length (dedup (split (lower all_text)))) in
   let total_words := Z.of_nat (length (split all_text)) in
   ratio <- int_truediv unique_words (Z.max 1 total_words) ;;
   Ok (fmin 1 (fmul ratio (of_int 3))))%res.

Definition estimate_info_quality (learnings : list str)
           (contradictions : list Memory.Contradiction) : res Q :=
  match learnings with
  | [] => Ok 0%Q
  | _ =>
      (ls <- length_score learnings ;;
       cs <- contradiction_score learnings contradictions ;;
       ds <- diversity_score learnings ;;
       Ok (fadd (fadd (fmul ls f0_3) (fmul cs f0_3)) (fmul ds f0_4)))%res
  end.

(** [now] is the reading of the event loop's clock. *)
Definition get_time_usage_fraction (self : AutoTuner) (now : Q) : res Q :=
  match time_budget_seconds self, start_time self with
  | Some budget, Some st =>
      (let elapsed := fsub now st in
       f <- fdiv elapsed (of_int budget) ;;
       Ok (fmin 1 f))%res
  | _, _ => Ok 0%Q
  end.
End WithRounding.

Definition adjust_parameters (self : AutoTuner)
           (current_depth current_breadth : Z)
           (info_quality time_usage_fraction : Q) : Z * Z :=
  let '(depth_adjustment, breadth_adjustment) :=
    if ltb info_quality f0_3 then (1, 2)%Z
    else if gtb info_quality f0_7 then (-1, -1)%Z
    else (0, 1)%Z in
  let '(depth_adjustment, breadth_adjustment) :=
    if gtb time_usage_fraction f0_7
    then (depth_adjustment - 1, breadth_adjustment - 2)%Z
    else (depth_adjustment, breadth_adjustment) in
  let new_depth :=
    Z.max 1 (Z.min (max_depth self) (current_depth + depth_adjustment)) in
  let new_breadth :=
    Z.max 2 (Z.min (max_breadth self) (current_breadth + breadth_adjustment)) in
  (new_depth, new_breadth).

End AutoTuner.

(** [f"{x:.2f}"] for a non-negative [x]. *)
Definition fmt_2f (x : Q) : str :=
  let n := round (x * 100)%Q in
  str_of_Z (n / 100) ++ $"." ++ pad 2 (n mod 100).

(** [s.strip()] *)
Fixpoint lstrip (s : str) : str :=
  match s with
  | c :: t => if is_space c then lstrip t else s
  | [] => []
  end.

Definition strip (s : str) : str := rev (lstrip (rev (lstrip s))).

(** [l[:n]] *)
Definition slice_to {A} (n : Z) (l : list A) : list A :=
  if (0 <=? n)%Z then firstn (Z.to_nat n) l
  else firstn (length l - Z.to_nat (- n)) l.

(** [x or d] on an optional int: [None] and [0] are falsy. *)
Definition py_or (x : option Z) (d : Z) : Z :=
  match x with
  | Some v => if (v =? 0)%Z then d else v
  | None => d
  end.

(* ================================================================== *)
(** ** engine.py: ResearchEngine *)
(* ================================================================== *)

Module Engine.

Import Memory.

Record SerpQuery := MkSerpQuery {
  query : str;
  research_goal : str
}.

Record Learnings := MkLearnings {
  new_items : list str;            (* [learnings] *)
  follow_up_questions : list str
}.

(** One entry of the [data] list of a scrape result. *)
Record ScrapeItem := MkScrapeItem {
  status_code : option Z;
  item_url : option str;
  markdown : option str
}.

Record ResearchProgress := MkProgress {
  total_depth : Z;
  total_breadth : Z;
  current_depth : Z;
  current_breadth : Z;
  total_queries : Z;
  completed_queries : Z;
  current_query : str;
  progress_start : datetime
}.

(** The three updates the engine makes to the progress. *)
Definition set_current (depth breadth : Z) (q : str) (p : ResearchProgress)
  : ResearchProgress :=
  MkProgress (total_depth p) (total_breadth p) depth breadth
             (total_queries p) (completed_queries p) q (progress_start p).

Definition add_total_queries (n : Z) (p : ResearchProgress)
  : ResearchProgress :=
  MkProgress (total_depth p) (total_breadth p) (current_depth p)
             (current_breadth p) (total_queries p + n) (completed_queries p)
             (current_query p) (progress_start p).

Definition add_completed_query (p : ResearchProgress) : ResearchProgress :=
  MkProgress (total_depth p) (total_breadth p) (current_depth p)
             (current_breadth p) (total_queries p) (completed_queries p + 1)
             (current_query p) (progress_start p).

(** The dictionary [execute_query] returns; [None] is an absent key. *)
Record QueryResult := MkQueryResult {
  success : bool;
  reason : option str;
  new_learnings : option (list str);
  result_follow_ups : option (list str)
}.

(** The values of the final result dictionary. *)
Inductive value : Type :=
| VStrings (l : list str)
| VInfoMap (m : list (str * InfoEntry))
| VContradictions (l : list Contradiction)
| VEvaluations (l : list SourceEvaluation).

(** A [dict] with string keys, in insertion order. *)
Definition dict := list (str * value).

Definition has_key (k : str) (d : dict) : bool :=
  existsb (fun kv => str_eqb k (fst kv)) d.

Fixpoint dict_get (k : str) (d : dict) : option value :=
  match d with
  | [] => None
  | (k', v) :: d' => if str_eqb k k' then Some v else dict_get k d'
  end.

(** How a call ends: it returns, it raises, or the model runs out of
    fuel (the call does not return). *)
Inductive outcome (A : Type) : Type :=
| Done (a : A)
| Threw (e : exn)
| OutOfFuel.
Arguments Done {A} a.
Arguments Threw {A} e.
Arguments OutOfFuel {A}.

Section WithWorld.
Context {R : Rounding}.

(** The state of everything outside the program: the clocks, the
    environment, the search, scrape and completion services. *)
Variable World : Type.

(** A call into the outside world, or into a method that only talks to
    the services and writes to the memory. *)
Definition external (A : Type) : Type :=
  World -> ResearchMemory -> res A * ResearchMemory * World.

Record Providers := MkProviders {
  (** [datetime.now()] *)
  clock : World -> datetime * World;
  (** [asyncio.get_event_loop().time()] *)
  loop_time : World -> Q * World;
  (** [os.environ[name]] *)
  environ : World -> str -> option str;
  (** [get_prompt(prompt_type="serp_queries", ...)] *)
  serp_queries_prompt : str -> Z -> list str -> res str;
  (** [generate_object] followed by [SerpQueries.model_validate_json] *)
  generate_serp : str -> str -> World -> res (list SerpQuery) * World;
  (** the methods [execute_search], [scrape_content] and
      [process_serp_result] *)
  execute_search : str -> external (list str);
  scrape_content : list str -> external (list ScrapeItem);
  process_serp_result : str -> list ScrapeItem -> Z ->
                        external (option Learnings)
}.

Variable P : Providers.

(** The engine object together with the world it runs in.
    [iteration_calls] counts the entries into
    [execute_research_iteration]; the program does not read it. *)
Record State := MkState {
  model : str;
  auto_tune : bool;
  auto_tuner : option AutoTuner.AutoTuner;
  memory : ResearchMemory;
  progress : option ResearchProgress;
  world : World;
  iteration_calls : nat
}.

Definition set_memory (m : ResearchMemory) (st : State) : State :=
  MkState (model st) (auto_tune st) (auto_tuner st) m (progress st)
          (world st) (iteration_calls st).
Definition set_world (w : World) (st : State) : State :=
  MkState (model st) (auto_tune st) (auto_tuner st) (memory st)
          (progress st) w (iteration_calls st).
Definition set_progress (p : option ResearchProgress) (st : State) : State :=
  MkState (model st) (auto_tune st) (auto_tuner st) (memory st) p
          (world st) (iteration_calls st).
Definition set_auto_tuner (a : option AutoTuner.AutoTuner) (st : State)
  : State :=
  MkState (model st) (auto_tune st) a (memory st) (progress st)
          (world st) (iteration_calls st).
Definition count_iteration (st : State) : State :=
  MkState (model st) (auto_tune st) (auto_tuner st) (memory st)
          (progress st) (world st) (S (iteration_calls st)).

(** Computations of the engine. *)
Definition M (A : Type) : Type := State -> outcome A * State.

Definition ret {A} (a : A) : M A := fun st => (Done a, st).
Definition raise {A} (e : exn) : M A := fun st => (Threw e, st).
Definition diverge {A} : M A := fun st => (OutOfFuel, st).

Definition bind {A B} (c : M A) (k : A -> M B) : M B :=
  fun st =>
    match c st with
    | (Done a, st') => k a st'
    | (Threw e, st') => (Threw e, st')
    | (OutOfFuel, st') => (OutOfFuel, st')
    end.

(** [try: c except Exception as e: h e]; what [c] did to the state
    before it raised stays done. *)
Definition try_except {A} (c : M A) (h : exn -> M A) : M A :=
  fun st =>
    match c st with
    | (Threw e, st') => h e st'
    | r => r
    end.

Definition get : M State := fun st => (Done st, st).
Definition modify (f : State -> State) : M unit :=
  fun st => (Done tt, f st).

Definition lift_res {A} (r : res A) : M A :=
  match r with
  | Ok a => ret a
  | Raise e => raise e
  end.

Definition now : M datetime :=
  fun st => let '(t, w) := clock P (world st) in (Done t, set_world w st).

Definition event_loop_time : M Q :=
  fun st => let '(t, w) := loop_time P (world st) in (Done t, set_world w st).

Definition call {A} (f : external A) : M A :=
  fun st =>
    let '(r, m, w) := f (world st) (memory st) in
    lift_res r (set_world w (set_memory m st)).

Notation "x <- c ;; k" := (bind c (fun x => k))
  (at level 61, c at next level, right associativity).
Notation "c ;;; k" := (bind c (fun _ => k))
  (at level 61, right associativity).

(** [for x in l: body x] *)
Fixpoint for_each {A} (l : list A) (body : A -> M unit) : M unit :=
  match l with
  | [] => ret tt
  | x :: l' => body x ;;; for_each l' body
  end.

(** [for i, x in enumerate(l): body (i + 1) x], counting from [i]. *)
Fixpoint for_each_numbered {A} (i : Z) (l : list A)
         (body : Z -> A -> M unit) : M unit :=
  match l with
  | [] => ret tt
  | x :: l' => body i x ;;; for_each_numbered (i + 1)%Z l' body
  end.

(** [self.memory.add_thought(thought)] *)
Definition memory_add_thought (thought : str) : M unit :=
  t <- now ;;
  modify (fun st => set_memory (add_thought t thought (memory st)) st).

(** [self.memory.add_contradiction(topic, claim1, claim2)] *)
Definition memory_add_contradiction (topic claim1 claim2 : str) : M unit :=
  t1 <- now ;;
  t2 <- now ;;
  modify (fun st =>
            set_memory
              (add_contradiction t1 t2 topic claim1 claim2 [] [] (memory st))
              st).

(** [self.progress.update({...})] when [self.progress] is set; the
    report it logs reads the clock. *)
Definition progress_update (f : ResearchProgress -> ResearchProgress)
  : M unit :=
  st <- get ;;
  match progress st with
  | Some p => modify (set_progress (Some (f p))) ;;; now ;;; ret tt
  | None => ret tt
  end.

Definition performance_keywords : list str :=
  map of_string
    ["performance"; "growth"; "revenue"; "sales"; "profit"; "loss"].
Definition event_keywords : list str :=
  map of_string ["scheduled"; "upcoming"; "announced"; "launched"].
Definition layoff_keywords : list str :=
  map of_string ["layoff"; "job cut"; "firing"; "downsizing"].
Definition positive_terms : list str :=
  map of_string ["growth"; "increase"; "positive"; "strong"; "success"].
Definition negative_terms : list str :=
  map of_string ["decline"; "decrease"; "negative"; "weak"; "failure"].
Definition plan_terms : list str :=
  map of_string ["plan"; "will"; "future"; "expected"; "upcoming"].
Definition past_terms : list str :=
  map of_string ["completed"; "announced"; "executed"; "implemented"].

(** [any(keyword in text for keyword in keywords)] *)
Definition any_in (keywords : list str) (text : str) : bool :=
  existsb (fun k => contains k text) keywords.

(** [(january|...|december).{0,10}(20\d\d)] *)
Definition date_pattern : regex :=
  seqs [Group 1 (alts (map word ContentClassifier.month_names));
        upto 10 any_char;
        Group 2 ContentClassifier.year_20xx].

(** [re.findall] for a pattern with two groups. *)
Definition findall2 (r : regex) (s : str) : list (str * str) :=
  map (fun m => (group m 1, group m 2)) (finditer r s).

(** [a == b] on lists of pairs of strings. *)
Fixpoint dates_eqb (a b : list (str * str)) : bool :=
  match a, b with
  | [], [] => true
  | (x1, x2) :: a', (y1, y2) :: b' =>
      str_eqb x1 y1 && str_eqb x2 y2 && dates_eqb a' b'
  | _, _ => false
  end.

Definition nonempty {A} (l : list A) : bool :=
  match l with [] => false | _ => true end.

Definition performance_conflict (new_learning existing : str) : bool :=
  let new_positive := any_in positive_terms (lower new_learning) in
  let new_negative := any_in negative_terms (lower new_learning) in
  let existing_positive := any_in positive_terms (lower existing) in
  let existing_negative := any_in negative_terms (lower existing) in
  (new_positive && existing_negative) || (new_negative && existing_positive).

Definition dates_conflict (new_learning existing : str) : bool :=
  let new_dates := findall2 date_pattern (lower new_learning) in
  let existing_dates := findall2 date_pattern (lower existing) in
  nonempty new_dates && nonempty existing_dates &&
  negb (dates_eqb new_dates existing_dates).

Definition layoff_conflict (new_learning existing : str) : bool :=
  let new_plan := any_in plan_terms (lower new_learning) in
  let new_past := any_in past_terms (lower new_learning) in
  let existing_plan := any_in plan_terms (lower existing) in
  let existing_past := any_in past_terms (lower existing) in
  (new_plan && existing_past) || (new_past && existing_plan).

(** One of the three keyword families of [detect_contradictions]. *)
Definition detect_family (keywords : list str)
           (conflict : str -> str -> bool) (topic : str)
           (new_learning : str) : M unit :=
  if any_in keywords (lower new_learning) then
    st <- get ;;
    for_each (learnings (memory st))
      (fun existing =>
         if any_in keywords (lower existing) then
           if conflict new_learning existing
           then memory_add_contradiction topic existing new_learning
           else ret tt
         else ret tt)
  else ret tt.

Definition detect_contradictions (new_learning : str) : M unit :=
  st <- get ;;
  match learnings (memory st) with
  | [] => ret tt
  | _ =>
      detect_family performance_keywords performance_conflict
                    $"Performance" new_learning ;;;
      detect_family event_keywords dates_conflict
                    $"Event Dates" new_learning ;;;
      detect_family layoff_keywords layoff_conflict
                    $"Layoff Timeline" new_learning
  end.

(** [ResearchEngine(auto_tune, max_depth, max_breadth, time_budget_seconds)]
    in the world [w]. *)
Definition init (auto_tune : bool) (max_depth max_breadth : Z)
           (time_budget_seconds : option Z) (w : World)
  : res State * World :=
  match environ P w $"LLM_MODEL_NAME" with
  | None => (Raise (Exn $"'LLM_MODEL_NAME'"), w)
  | Some name =>
      let '(t, w') := clock P w in
      (Ok (MkState name auto_tune
                   (if auto_tune
                    then Some (AutoTuner.init max_depth max_breadth
                                              time_budget_seconds)
                    else None)
                   (Memory.init t) None w' 0), w')
  end.

Definition determine_auto_parameters (query : str) : M (Z * Z) :=
  st <- get ;;
  match auto_tune st, auto_tuner st with
  | true, Some tuner =>
      metrics <- lift_res (AutoTuner.analyze_question_complexity query) ;;
      let '(depth, breadth) :=
        AutoTuner.determine_initial_parameters tuner metrics in
      memory_add_thought
        ($"Auto-tuned parameters - Initial depth: " ++ str_of_Z depth ++
         $", breadth: " ++ str_of_Z breadth ++ $" (complexity score: " ++
         fmt_2f (AutoTuner.complexity_score metrics) ++ $")") ;;;
      ret (depth, breadth)
  | _, _ => ret (2, 4)%Z
  end.

(** [self.auto_tuner.get_time_usage_fraction()]: the clock of the event
    loop is read only when a budget and a start time are set. *)
Definition time_usage (tuner : AutoTuner.AutoTuner) : M Q :=
  match AutoTuner.time_budget_seconds tuner, AutoTuner.start_time tuner with
  | Some _, Some _ =>
      t <- event_loop_time ;;
      lift_res (AutoTuner.get_time_usage_fraction tuner t)
  | _, _ => ret 0%Q
  end.

Definition adjust_parameters (current_depth current_breadth : Z)
  : M (Z * Z) :=
  st <- get ;;
  match auto_tune st, auto_tuner st with
  | true, Some tuner =>
      info_quality <-
        lift_res (AutoTuner.estimate_info_quality
                    (learnings (memory st)) (contradictions (memory st))) ;;
      usage <- time_usage tuner ;;
      let '(new_depth, new_breadth) :=
        AutoTuner.adjust_parameters tuner current_depth current_breadth
                                    info_quality usage in
      (if negb (new_depth =? current_depth)%Z
          || negb (new_breadth =? current_breadth)%Z
       then memory_add_thought
              ($"Auto-adjusted parameters - New depth: " ++
               str_of_Z new_depth ++ $", breadth: " ++ str_of_Z new_breadth ++
               $" (info quality: " ++ fmt_2f info_quality ++
               $", time usage: " ++ fmt_2f usage ++ $")")
       else ret tt) ;;;
      ret (new_depth, new_breadth)
  | _, _ => ret (current_depth, current_breadth)
  end.

(** The completion request of [generate_serp_queries]. *)
Definition request_serp_queries (prompt_text : str) : M (list SerpQuery) :=
  fun st =>
    let '(r, w) := generate_serp P (model st) prompt_text (world st) in
    lift_res r (set_world w st).

Definition generate_serp_queries (q : str) (num_queries : Z)
  : M (list SerpQuery) :=
  memory_add_thought ($"Generating SERP queries for: " ++ q) ;;;
  st <- get ;;
  prompt_text <-
    lift_res (serp_queries_prompt P q num_queries (learnings (memory st))) ;;
  try_except
    (queries <- request_serp_queries prompt_text ;;
     memory_add_thought
       ($"Generated " ++ str_of_Z (Z.of_nat (length queries)) ++
        $" SERP queries") ;;;
     for_each_numbered 1 queries
       (fun i sq =>
          memory_add_thought
            ($"Query " ++ str_of_Z i ++ $": " ++ query sq ++ $" - Goal: " ++
             research_goal sq)) ;;;
     ret (slice_to num_queries queries))
    (fun e =>
       memory_add_thought ($"Error generating SERP queries: " ++ exn_msg e) ;;;
       ret []).

(** The urls of the entries scraped with status 200. *)
Definition successful_urls (data : list ScrapeItem) : list str :=
  map (fun item => match item_url item with
                   | Some u => u
                   | None => $"unknown"
                   end)
      (filter (fun item => match status_code item with
                           | Some c => (c =? 200)%Z
                           | None => false
                           end) data).

Definition execute_query (serp_query : SerpQuery)
           (current_depth current_breadth : Z) : M QueryResult :=
  memory_add_thought ($"Executing research query: " ++ query serp_query) ;;;
  memory_add_thought ($"Research goal: " ++ research_goal serp_query) ;;;
  try_except
    (progress_update
       (set_current current_depth current_breadth (query serp_query)) ;;;
     search_urls <- call (execute_search P (query serp_query)) ;;
     match search_urls with
     | [] =>
         memory_add_thought
           $"No search results found. Cannot proceed with this query." ;;;
         ret (MkQueryResult false (Some $"No search results found")
                            None None)
     | _ =>
         search_result <- call (scrape_content P search_urls) ;;
         new_learnings_obj <-
           call (process_serp_result P (query serp_query) search_result
                                     current_breadth) ;;
         modify (fun st =>
                   set_memory
                     (add_urls (successful_urls search_result) (memory st))
                     st) ;;;
         match new_learnings_obj with
         | Some obj =>
             modify (fun st =>
                       set_memory (add_learnings (new_items obj) (memory st))
                                  st) ;;;
             if (1 <? current_depth)%Z then
               let follow_ups := follow_up_questions obj in
               memory_add_thought
                 ($"Identified " ++
                  str_of_Z (Z.of_nat (length follow_ups)) ++
                  $" follow-up questions for deeper research") ;;;
               for_each_numbered 1 follow_ups
                 (fun i question =>
                    memory_add_thought
                      ($"Follow-up " ++ str_of_Z i ++ $": " ++ question)) ;;;
               ret (MkQueryResult true None (Some (new_items obj))
                                  (Some follow_ups))
             else ret (MkQueryResult true None (Some []) None)
         | None => ret (MkQueryResult true None (Some []) None)
         end
     end)
    (fun e =>
       memory_add_thought
         ($"Error executing query '" ++ query serp_query ++ $"': " ++
          exn_msg e) ;;;
       ret (MkQueryResult false (Some (exn_msg e)) None None)).

(** [math.ceil(b / 2)] *)
Definition ceil_half (b : Z) : Z := Qceiling (rnd (inject_Z b / 2)%Q).

(** [query_result.get("follow_up_questions", [])] *)
Definition get_follow_ups (r : QueryResult) : list str :=
  match result_follow_ups r with Some l => l | None => [] end.

(** The body of the loop over the generated queries; [recur] is the
    recursive call. *)
Definition iteration_step (recur : str -> Z -> Z -> M unit)
           (current_depth current_breadth : Z) (serp_query : SerpQuery)
  : M unit :=
  query_result <- execute_query serp_query current_depth current_breadth ;;
  progress_update add_completed_query ;;;
  if success query_result && (1 <? current_depth)%Z
     && nonempty (get_follow_ups query_result)
  then
    let follow_ups := get_follow_ups query_result in
    st <- get ;;
    params <-
      (if auto_tune st
       then adjust_parameters (current_depth - 1) current_breadth
       else ret (current_depth - 1, Z.max 1 (ceil_half current_breadth))%Z) ;;
    let '(new_depth, new_breadth) := params in
    let next_query :=
      strip ($"Previous research goal: " ++
             research_goal serp_query ++ ["010"%char] ++
             $"Follow-up research directions:" ++ ["010"%char] ++
             join ["010"%char] (slice_to 3 follow_ups)) in
    recur next_query new_depth new_breadth
  else ret tt.

(** The nested function [execute_research_iteration]; [fuel] bounds the
    nesting of its recursive calls. *)
Fixpoint execute_research_iteration (fuel : nat) (iteration_query : str)
         (current_depth current_breadth : Z) : M unit :=
  match fuel with
  | O => diverge
  | S fuel' =>
      modify count_iteration ;;;
      memory_add_thought
        ($"Starting research iteration at depth " ++ str_of_Z current_depth ++
         $" with breadth " ++ str_of_Z current_breadth) ;;;
      memory_add_thought ($"Iteration query: " ++ iteration_query) ;;;
      serp_queries <- generate_serp_queries iteration_query current_breadth ;;
      match serp_queries with
      | [] =>
          memory_add_thought
            $"Failed to generate search queries. Ending this research path."
      | _ =>
          progress_update
            (add_total_queries (Z.of_nat (length serp_queries))) ;;;
          for_each serp_queries
            (iteration_step (execute_research_iteration fuel')
                            current_depth current_breadth)
      end
  end.

(** [ResearchEngine.deep_research(query, breadth, depth)] *)
Definition deep_research (fuel : nat) (q : str)
           (breadth depth : option Z) : M dict :=
  st <- get ;;
  params <-
    (if auto_tune st
        && (match breadth with None => true | _ => false end
            || match depth with None => true | _ => false end)
     then
       auto <- determine_auto_parameters q ;;
       ret (py_or depth (fst auto), py_or breadth (snd auto))
     else ret (py_or depth 2, py_or breadth 4)) ;;
  let '(depth, breadth) := params in
  t0 <- now ;;
  modify (set_progress (Some (MkProgress depth breadth depth breadth 0 0 []
                                         t0))) ;;;
  st <- get ;;
  match auto_tune st, auto_tuner st with
  | true, Some tuner =>
      t <- event_loop_time ;;
      modify (set_auto_tuner (Some (AutoTuner.set_start_time t tuner)))
  | _, _ => ret tt
  end ;;;
  memory_add_thought ($"Starting deep research on: " ++ q) ;;;
  memory_add_thought
    ($"Research parameters - Breadth: " ++ str_of_Z breadth ++
     $", Depth: " ++ str_of_Z depth) ;;;
  st <- get ;;
  memory_add_thought
    ($"Current date context: " ++
     strftime_date (current_date (memory st))) ;;;
  execute_research_iteration fuel q depth breadth ;;;
  memory_add_thought $"Research process completed" ;;;
  st <- get ;;
  let m := memory st in
  ret [($"learnings", VStrings (learnings m));
       ($"visited_urls", VStrings (visited_urls m));
       ($"chain_of_thought", VStrings (chain_of_thought m));
       ($"information_map", VInfoMap (information_map m));
       ($"contradictions", VContradictions (contradictions m));
       ($"source_evaluations", VEvaluations (source_evaluations m))].

End WithWorld.

Arguments memory {World} s.
Arguments world {World} s.
Arguments progress {World} s.
Arguments auto_tune {World} s.
Arguments auto_tuner {World} s.
Arguments model {World} s.
Arguments iteration_calls {World} s.
Arguments ret {World A} a st.
Arguments raise {World A} e st.
Arguments diverge {World A} st.
Arguments bind {World A B} c k st.
Arguments try_except {World A} c h st.
Arguments get {World} st.
Arguments modify {World} f st.
Arguments lift_res {World A} r st.
Arguments for_each {World A} l body.
Arguments for_each_numbered {World A} i l body.

(** The state after [self.memory.add_contradiction(topic, claim1, claim2)],
    which reads the clock twice. *)
Definition recorded {World} (P : Providers World)
           (topic claim1 claim2 : str) (st : State World) : State World :=
  let (t1, w1) := clock World P (world st) in
  let (t2, w2) := clock World P w1 in
  set_memory World
    (add_contradiction t1 t2 topic claim1 claim2 [] [] (memory st))
    (set_world World w2 st).

(** Whether a keyword family finds a contradiction between the new
    learning and a stored one. *)
Definition fires (keywords : list str) (conflict : str -> str -> bool)
           (new_learning existing : str) : bool :=
  any_in keywords (lower new_learning) && any_in keywords (lower existing)
  && conflict new_learning existing.

(** A computation that returns or raises without entering
    [execute_research_iteration]. *)
Definition quiet {World A} (c : M World A) : Prop :=
  forall st,
    fst (c st) <> OutOfFuel /\
    iteration_calls (snd (c st)) = iteration_calls st.

(** A computation that enters [execute_research_iteration] exactly [k]
    times when it returns, and at most [k] times when it raises. *)
Definition enters {World A} (k : nat) (c : M World A) : Prop :=
  forall st,
    match fst (c st) with
    | Done _ => iteration_calls (snd (c st)) = (iteration_calls st + k)%nat
    | Threw _ =>
        (iteration_calls st <= iteration_calls (snd (c st))
         <= iteration_calls st + k)%nat
    | OutOfFuel => False
    end.

End Engine.

(* ================================================================== *)
(** ** api.py: the public entry point *)
(* ================================================================== *)

Module Api.

Import Engine.

Section WithWorld.
Context {R : Rounding}.
Variable World : Type.
Variable P : Providers World.

(** The dictionary of the [except] branch. *)
Definition error_result (e : exn) : dict :=
  [($"learnings", VStrings [$"Research error: " ++ exn_msg e]);
   ($"visited_urls", VStrings []);
   ($"chain_of_thought",
    VStrings [$"Critical error in research process: " ++ exn_msg e])].

(** [deep_research(query, breadth, depth, auto_tune, max_depth,
    max_breadth, time_budget_seconds)] run in the world [w]. *)
Definition deep_research (fuel : nat) (w : World) (q : str)
           (breadth depth : option Z) (auto_tune : bool)
           (max_depth max_breadth : Z) (time_budget_seconds : option Z)
  : outcome dict :=
  match Engine.init World P auto_tune max_depth max_breadth
                    time_budget_seconds w with
  | (Raise e, _) => Done (error_result e)
  | (Ok engine, _) =>
      match fst (Engine.deep_research World P fuel q breadth depth engine) with
      | Done result => Done result
      | Threw e => Done (error_result e)
      | OutOfFuel => OutOfFuel
      end
  end.
End WithWorld.

End Api.

(* ================================================================== *)
(** ** A world without services *)
(* ================================================================== *)

Module Offline.

Import Engine.

(** The clock of the test suite: 15 March 2024, midnight. *)
Definition march_15 : datetime := MkDatetime 2024 3 15 0 0 0 0.

(** A machine on which nothing is configured: the environment is empty,
    the completion service fails, searches find nothing. *)
Definition providers : Providers unit :=
  MkProviders unit
    (fun w => (march_15, w))
    (fun w => (0%Q, w))
    (fun _ _ => None)
    (fun _ _ _ => Ok [])
    (fun _ _ w => (Raise (Exn $"connection refused"), w))
    (fun _ w m => (Ok [], m, w))
    (fun _ w m => (Ok [], m, w))
    (fun _ _ _ w m => (Ok None, m, w)).

(** An engine whose memory holds the learnings [ls]. *)
Definition engine_with (ls : list str) : State unit :=
  MkState unit $"model" false None
          (Memory.set_learnings ls (Memory.init march_15)) None tt 0.

End Offline.

(* ================================================================== *)
(** ** The parameter adjustment as the specification words it *)
(* ================================================================== *)

Module AdjustSpec.

(** The deltas of the quality band. *)
Definition band_deltas (info_quality : Q) : Z * Z :=
  if Qlt_le_dec info_quality f0_3 then (1, 2)%Z
  else if Qlt_le_dec f0_7 info_quality then (-1, -1)%Z
  else (0, 1)%Z.

(** What time pressure subtracts from the deltas. *)
Definition time_penalty (time_usage_fraction : Q) : Z * Z :=
  if Qlt_le_dec f0_7 time_usage_fraction then (1, 2)%Z else (0, 0)%Z.

(** [x] clamped into [[lo, hi]]. *)
Definition clamp (lo hi x : Z) : Z :=
  if (x <? lo)%Z then lo else if (hi <? x)%Z then hi else x.

Definition adjusted (max_depth max_breadth depth breadth : Z)
           (info_quality time_usage_fraction : Q) : Z * Z :=
  let (dd, db) := band_deltas info_quality in
  let (pd, pb) := time_penalty time_usage_fraction in
  (clamp 1 max_depth (depth + (dd - pd)),
   clamp 2 max_breadth (breadth + (db - pb)))%Z.

End AdjustSpec.

(* ================================================================== *)
(** ** The validators as the specification words them *)
(* ================================================================== *)

Module ClassifierSpec.

Import ContentClassifier.

(** The first-of-month date of the match is strictly before the
    reference date. *)
Definition past (current_date : datetime) (m : match_obj) : bool :=
  match event_date m with
  | Ok d => dt_ltb d current_date
  | Raise _ => false
  end.

(** The year of a matched projection. *)
Definition year_of (m : match_obj) : Z := int_of_digits (group m 2).

(** The year lies more than 10 years after the reference year and the
    numeric literal contains a decimal point. *)
Definition flagged (current_date : datetime) (m : match_obj) : bool :=
  (10 <? year_of m - dt_year current_date)%Z && contains $"." (group m 3).

End ClassifierSpec.

(* ================================================================== *)
(** ** The entity pattern read as a function *)
(* ================================================================== *)

Module EntitySpec.

Fixpoint drop_while (p : ascii -> bool) (s : str) : str :=
  match s with
  | c :: t => if p c then drop_while p t else s
  | [] => []
  end.

(** [[a-z]+] at the head of [t]: what follows the longest run of
    lowercase letters, when there is one. *)
Definition word_end (t : str) : option str :=
  match t with
  | c :: t' => if is_lower c then Some (drop_while is_lower t') else None
  | [] => None
  end.

Definition is_sep (c : ascii) : bool :=
  Ascii.eqb " "%char c || Ascii.eqb "."%char c.

(** A blank or a dot, a capital and [[a-z]+] at the head of [r]. *)
Definition second_word (r : str) : option str :=
  match r with
  | sep :: c2 :: t2 => if is_sep sep && is_upper c2 then word_end t2 else None
  | _ => None
  end.

(** [[A-Z][A-Z]+] at the head of [c :: t], after the capital [c]. *)
Definition acronym_end (t : str) : option str :=
  match t with
  | c1 :: t' => if is_upper c1 then Some (drop_while is_upper t') else None
  | [] => None
  end.

(** What follows the entity at the head of [s], when there is one. *)
Definition entity_rest (s : str) : option str :=
  match s with
  | c :: t =>
      if is_upper c then
        match word_end t with
        | Some r =>
            match second_word r with
            | Some r2 => Some r2
            | None => Some r
            end
        | None => acronym_end t
        end
      else None
  | [] => None
  end.

(** The match object of an entity of [s] followed by [r]. *)
Definition entity_match (s r : str) : match_obj :=
  let g := firstn (length s - length r) s in
  MkMatch g [(1%nat, g)] r.

(** An occurrence of the needle [p] cannot begin inside another one. *)
Definition no_overlap (p : str) : Prop :=
  forall c x, starts_with p (c :: x) = true ->
              count_aux p (length p - 1) x = count_aux p 0 x.

(** [r] is what is left of [s] after some of its first characters. *)
Definition suffix (r s : str) : Prop := exists pre, s = pre ++ r.

(** A character in front of a string of length at most [n] does not
    lower its count of entities. *)
Definition prepend_upto (n : nat) : Prop :=
  forall s, (length s <= n)%nat ->
            forall c, (AutoTuner.count_entities s <=
                       AutoTuner.count_entities (c :: s))%nat.

End EntitySpec.

(* ================================================================== *)
(** ** memory.py: the information map *)
(* ================================================================== *)

Module InformationMap.

Import Memory.

(** The [content] argument of [update_information_map]: a list is spliced
    in, any other value is appended as one item. *)
Inductive content : Type :=
| Item (s : str)
| Items (l : list str).

Definition items_of (c : content) : list str :=
  match c with
  | Item s => [s]
  | Items l => l
  end.

(** [{"consensus": [], "contradictions": [], "gaps": []}] *)
Definition empty_entry : InfoEntry := MkInfoEntry [] [] [].

(** [information_map.get(topic)]; the map is a [dict], kept in insertion
    order. *)
Fixpoint lookup (topic : str) (im : list (str * InfoEntry))
  : option InfoEntry :=
  match im with
  | [] => None
  | (k, e) :: im' => if str_eqb topic k then Some e else lookup topic im'
  end.

(** [information_map[topic] = e]: an existing key keeps its place, a new
    one goes last. *)
Fixpoint store (topic : str) (e : InfoEntry) (im : list (str * InfoEntry))
  : list (str * InfoEntry) :=
  match im with
  | [] => [(topic, e)]
  | (k, e') :: im' =>
      if str_eqb topic k then (k, e) :: im'
      else (k, e') :: store topic e im'
  end.

(** [entry[info_type].extend(new_items)] when [info_type] is one of the
    three keys of an entry, nothing otherwise. *)
Definition extend (info_type : str) (new_items : list str) (e : InfoEntry)
  : InfoEntry :=
  if str_eqb info_type $"consensus"
  then MkInfoEntry (consensus e ++ new_items) (info_contradictions e) (gaps e)
  else if str_eqb info_type $"contradictions"
  then MkInfoEntry (consensus e) (info_contradictions e ++ new_items) (gaps e)
  else if str_eqb info_type $"gaps"
  then MkInfoEntry (consensus e) (info_contradictions e) (gaps e ++ new_items)
  else e.

Definition set_information_map (im : list (str * InfoEntry))
           (m : ResearchMemory) : ResearchMemory :=
  MkMemory (learnings m) (visited_urls m) (chain_of_thought m) im
           (contradictions m) (source_evaluations m) (current_date m).

(** The entry stored under a topic, or the empty entry of a new topic. *)
Definition entry_or_empty (topic : str) (m : ResearchMemory) : InfoEntry :=
  match lookup topic (information_map m) with
  | Some e => e
  | None => empty_entry
  end.

(** [information_map[topic]] *)
Definition getitem (topic : str) (im : list (str * InfoEntry))
  : res InfoEntry :=
  match lookup topic im with
  | Some e => Ok e
  | None => Raise (Exn ($"'" ++ topic ++ $"'"))
  end.

Definition update_information_map (topic info_type : str) (c : content)
           (m : ResearchMemory) : res ResearchMemory :=
  let im :=
    match lookup topic (information_map m) with
    | Some _ => information_map m
    | None => store topic empty_entry (information_map m)
    end in
  (e <- getitem topic im ;;
   Ok (set_information_map
         (store topic (extend info_type (items_of c) e) im) m))%res.

End InformationMap.

(* ================================================================== *)
(** ** content_classifier.py: classify_content_type *)
(* ================================================================== *)

Module Classification.

(** The phrases without the leading [(?i)]. *)
Definition speculative_words : list str :=
  map of_string
    ["could be"; "might be"; "potentially"; "possibly"; "projected";
     "forecasted"; "expected to"; "anticipated"; "estimated"].

(** [(?i)by 20\d\d] *)
Definition by_year_pattern : regex :=
  seqs [word_ci $"by 20"; Chr is_digit; Chr is_digit].

Definition speculative_phrases : list regex :=
  map word_ci speculative_words ++
  [by_year_pattern; word_ci $"in the future"].

Definition opinion_words : list str :=
  map of_string
    ["believe"; "feel"; "think"; "suggest"; "indicate"; "likely";
     "recommend"; "advocate"; "argue"].

Definition opinion_phrases : list regex := map word_ci opinion_words.

(** [re.search(phrase, text)] as a condition. *)
Definition found (phrase : regex) (text : str) : bool :=
  match search phrase text with
  | Some _ => true
  | None => false
  end.

Definition classify_content_type (text : str) : str :=
  if existsb (fun phrase => found phrase text) speculative_phrases
  then $"speculative"
  else if existsb (fun phrase => found phrase text) opinion_phrases
  then $"opinion"
  else $"factual".

(** The classification in plain words: [f] holds of [s] from some
    position on. *)
Fixpoint anywhere (f : str -> bool) (s : str) : bool :=
  match s with
  | [] => false
  | _ :: t => f s || anywhere f t
  end.

(** ["by 20"] and two digits at the head of [s]. *)
Definition by_year_at (s : str) : bool :=
  starts_with $"by 20" s &&
  match skipn 5 s with
  | d1 :: d2 :: _ => is_digit d1 && is_digit d2
  | _ => false
  end.

(** Some speculative phrase occurs in the lowercased text. *)
Definition speculative (text : str) : bool :=
  existsb (fun w => contains w (lower text))
          (speculative_words ++ [$"in the future"])
  || anywhere by_year_at (lower text).

(** Some opinion phrase occurs in the lowercased text. *)
Definition opinionated (text : str) : bool :=
  existsb (fun w => contains w (lower text)) opinion_words.

(** The order factual < opinion < speculative on the three results. *)
Definition rank (kind : str) : nat :=
  if str_eqb kind $"speculative" then 2
  else if str_eqb kind $"opinion" then 1
  else 0.

End Classification.

(* ================================================================== *)
(** ** The initial parameters as a scaling of the score *)
(* ================================================================== *)

Module TunerSpec.

Section WithRounding.
Context {R : Rounding}.

(** The value that is rounded to the initial depth (breadth): the lowest
    value [lo] plus the score times the room between [lo] and [hi]. *)
Definition scaled (lo hi : Z) (s : Q) : Q :=
  fadd (of_int lo) (fmul s (of_int (hi - lo))).
End WithRounding.

End TunerSpec.

(* ================================================================== *)
(** ** What a computation of the engine does to the engine *)
(* ================================================================== *)

Module EngineSpec.

Import Engine.

Section WithWorld.
Variable World : Type.

(** [c] never raises. *)
Definition never_raises {A} (c : M World A) : Prop :=
  forall st e, fst (c st) <> Threw e.

(** Every value [c] returns satisfies [Q]. *)
Definition yields {A} (Q : A -> Prop) (c : M World A) : Prop :=
  forall st a, fst (c st) = Done a -> Q a.

(** However [c] ends, the state it leaves is related by [Rel] to the state
    it started in. *)
Definition respects {A} (Rel : State World -> State World -> Prop)
           (c : M World A) : Prop :=
  forall st, Rel st (snd (c st)).

(** The relations the statements below use hold between a state and what
    the memory, the world, the tuner and the count of iterations become. *)
Class Frame (Rel : State World -> State World -> Prop) : Prop := {
  frame_refl : forall st, Rel st st;
  frame_trans : forall a b c, Rel a b -> Rel b c -> Rel a c;
  frame_memory : forall m st, Rel st (set_memory World m st);
  frame_world : forall w st, Rel st (set_world World w st);
  frame_tuner : forall a st, Rel st (set_auto_tuner World a st);
  frame_count : forall st, Rel st (count_iteration World st)
}.

(** The flag [auto_tune] is the same. *)
Definition same_mode (st st' : State World) : Prop :=
  auto_tune st' = auto_tune st.

(** The planned depth and breadth of a progress stay what they are. *)
Definition same_totals (st st' : State World) : Prop :=
  forall p, progress st = Some p ->
            exists p', progress st' = Some p' /\
                       total_depth p' = total_depth p /\
                       total_breadth p' = total_breadth p.

(** The planned queries that are not completed yet. *)
Definition pending (st : State World) : Z :=
  match progress st with
  | Some p => total_queries p - completed_queries p
  | None => 0
  end.

(** A progress stays a progress, with as many queries pending. *)
Definition same_pending (st st' : State World) : Prop :=
  (progress st <> None -> progress st' <> None) /\ pending st' = pending st.

(** Started with a progress, [c] leaves [n] pending queries fewer when it
    returns, and at most [n] fewer when it does not. *)
Definition settles {A} (n : Z) (c : M World A) : Prop :=
  forall st,
    progress st <> None ->
    progress (snd (c st)) <> None /\
    match fst (c st) with
    | Done _ => pending (snd (c st)) = (pending st - n)%Z
    | _ => (pending st - n <= pending (snd (c st)))%Z
    end.

(** What [execute_query] hands back at depth [current_depth]: a success
    has its learnings and no reason, a failure has a reason and nothing
    else, and follow-up questions come only with a success at a depth
    above 1. *)
Definition well_formed (current_depth : Z) (r : QueryResult) : Prop :=
  (if success r
   then reason r = None /\ new_learnings r <> None
   else reason r <> None /\ new_learnings r = None /\
        result_follow_ups r = None) /\
  (result_follow_ups r <> None -> (1 < current_depth)%Z).

(** The progress is the same. *)
Definition same_progress (st st' : State World) : Prop :=
  progress st' = progress st.

(** Started without auto-tuning, [c] leaves a progress that plans depth
    [d] and breadth [b], however it ends. *)
Definition plans {A} (d b : Z) (c : M World A) : Prop :=
  forall st,
    auto_tune st = false ->
    exists p, progress (snd (c st)) = Some p /\
              total_depth p = d /\ total_breadth p = b.

(** When [c] returns every planned query is completed; when it does not,
    and there was no progress before, no more queries are completed than
    were planned. *)
Definition completes {A} (c : M World A) : Prop :=
  forall st,
    match fst (c st) with
    | Done _ =>
        exists p, progress (snd (c st)) = Some p /\
                  completed_queries p = total_queries p
    | _ =>
        progress st = None ->
        match progress (snd (c st)) with
        | Some p => (completed_queries p <= total_queries p)%Z
        | None => True
        end
    end.

(** A contradiction that [detect_contradictions] may record for the new
    learning [new_learning] against the stored learnings [stored]. *)
Definition detected (new_learning : str) (stored : list str)
           (c : Memory.Contradiction) : Prop :=
  Memory.claim2 c = new_learning /\
  In (Memory.claim1 c) stored /\
  In (Memory.topic c) [$"Performance"; $"Event Dates"; $"Layoff Timeline"] /\
  Memory.source1 c = [] /\ Memory.source2 c = [].

(** Started with the learnings [stored], [c] returns, keeps the learnings
    and the urls, and appends at most [n] contradictions, each with one
    thought. *)
Definition records (new_learning : str) (stored : list str) (n : nat)
           (c : M World unit) : Prop :=
  forall st,
    Memory.learnings (memory st) = stored ->
    fst (c st) = Done tt /\
    Memory.learnings (memory (snd (c st))) = stored /\
    Memory.visited_urls (memory (snd (c st))) =
      Memory.visited_urls (memory st) /\
    exists added,
      Memory.contradictions (memory (snd (c st))) =
        Memory.contradictions (memory st) ++ added /\
      Forall (detected new_learning stored) added /\
      (length added <= n)%nat /\
      length (Memory.chain_of_thought (memory (snd (c st)))) =
        (length (Memory.chain_of_thought (memory st)) + length added)%nat.

(** Started without auto-tuning, [c] does not run out of fuel and leaves
    auto-tuning off. *)
Definition static {A} (c : M World A) : Prop :=
  forall st,
    auto_tune st = false ->
    fst (c st) <> OutOfFuel /\ auto_tune (snd (c st)) = false.

(** A service answered [a] in some state of the world and the memory. *)
Definition answered {A} (f : external World A) (a : A) : Prop :=
  exists w m, fst (fst (f w m)) = Ok a.

(** A service raises [e] whatever the world and the memory are. *)
Definition always_raises {A} (f : external World A) (e : exn) : Prop :=
  forall w m, fst (fst (f w m)) = Raise e.

(** A service raised [e] in some state of the world and the memory. *)
Definition raised {A} (f : external World A) (e : exn) : Prop :=
  exists w m, fst (fst (f w m)) = Raise e.

(** One of the three steps of the query [sq] raised [e]: the search, the
    scrape of some urls, or the extraction from some scraped data. *)
Definition step_raised (P : Providers World) (sq : SerpQuery)
           (current_breadth : Z) (e : exn) : Prop :=
  raised (execute_search World P (query sq)) e \/
  (exists urls, raised (scrape_content World P urls) e) \/
  (exists data,
     raised (process_serp_result World P (query sq) data current_breadth) e).

(** The thought and the reason of a failed query [sq]: the search found
    nothing, or a step raised an exception. *)
Definition failure_of (P : Providers World) (sq : SerpQuery)
           (current_breadth : Z) (thought why : str) : Prop :=
  (thought = $"No search results found. Cannot proceed with this query." /\
   why = $"No search results found" /\
   answered (execute_search World P (query sq)) []) \/
  exists e,
    thought = $"Error executing query '" ++ query sq ++ $"': " ++ exn_msg e /\
    why = exn_msg e /\
    step_raised P sq current_breadth e.

End WithWorld.

Arguments never_raises {World A} c.
Arguments yields {World A} Q c.
Arguments respects {World A} Rel c.
Arguments Frame {World} Rel.
Arguments frame_refl {World Rel Frame} st.
Arguments frame_trans {World Rel Frame} a b c _ _.
Arguments frame_memory {World Rel Frame} m st.
Arguments frame_world {World Rel Frame} w st.
Arguments frame_tuner {World Rel Frame} a st.
Arguments frame_count {World Rel Frame} st.
Arguments same_mode {World} st st'.
Arguments same_totals {World} st st'.
Arguments pending {World} st.
Arguments same_pending {World} st st'.
Arguments settles {World A} n c.
Arguments static {World A} c.
Arguments records {World} new_learning stored n c.
Arguments same_progress {World} st st'.
Arguments plans {World A} d b c.
Arguments completes {World A} c.
Arguments answered {World A} f a.
Arguments always_raises {World A} f e.
Arguments raised {World A} f e.
Arguments step_raised {World} P sq current_breadth e.
Arguments failure_of {World} P sq current_breadth thought why.

End EngineSpec.

(* ================================================================== *)
(** ** A world with scripted services *)
(* ================================================================== *)

Module Scripted.

Import Engine.

Definition queries : list SerpQuery :=
  [MkSerpQuery $"quantum error correction 2024" $"Find recent results";
   MkSerpQuery $"IBM quantum roadmap" $"Find the vendor plans";
   MkSerpQuery $"qubit fidelity records" $"Find the best numbers"].

Definition pages : list ScrapeItem :=
  [MkScrapeItem (Some 200%Z) (Some $"https://a.example/q")
                (Some $"IBM reports positive growth of qubit counts.");
   MkScrapeItem (Some 404%Z) (Some $"https://b.example/r") None].

Definition findings : Learnings :=
  MkLearnings [$"IBM reports positive growth of qubit counts."]
              [$"Which error rates were reached?"].

(** The world is the number of clock readings so far.  Every service
    answers, always with the same answer. *)
Definition providers : Providers nat :=
  MkProviders nat
    (fun w => (Offline.march_15, S w))
    (fun w => (inject_Z (Z.of_nat w), S w))
    (fun _ name => if str_eqb name $"LLM_MODEL_NAME" then Some $"gpt-4o"
                   else None)
    (fun q _ _ => Ok ($"Generate queries for: " ++ q))
    (fun _ _ w => (Ok queries, w))
    (fun _ w m => (Ok [$"https://a.example/q"; $"https://b.example/r"], m, w))
    (fun _ w m => (Ok pages, m, w))
    (fun _ _ _ w m => (Ok (Some findings), m, w)).

(** A fresh engine without auto-tuning. *)
Definition engine : State nat :=
  MkState nat $"gpt-4o" false None (Memory.init Offline.march_15) None 0 0.

End Scripted.

(* ================================================================== *)
(** ** models.py: the validators of the ratings *)
(* ================================================================== *)

Module Models.

Definition valid_ratings : list str :=
  map of_string ["high"; "medium-high"; "medium"; "low"].

Definition valid_levels : list str :=
  map of_string ["high"; "medium"; "low"].

(** The body shared by the three validators: the lowercased value when it
    is one of [valid], a [ValueError] naming the field otherwise. *)
Definition validate_one_of (field : str) (valid : list str) (v : str)
  : res str :=
  if mem (lower v) valid
  then Ok (lower v)
  else Raise (Exn (field ++ $" must be one of: " ++ join $", " valid)).

(** [SourceEvaluation.validate_credibility_rating] *)
Definition validate_credibility_rating (v : str) : res str :=
  validate_one_of $"Credibility rating" valid_ratings v.

(** [SourceEvaluation.validate_relevance_rating] *)
Definition validate_relevance_rating (v : str) : res str :=
  validate_one_of $"Relevance rating" valid_ratings v.

(** [InformationItem.validate_confidence] *)
Definition validate_confidence (v : str) : res str :=
  validate_one_of $"Confidence" valid_levels v.

End Models.

(* ================================================================== *)
(** ** run.py: the auto-tuning section of the report *)
(* ================================================================== *)

Module Session.

Definition newline : str := ["010"%char].

(** [s.split(sep, 1)]: the text before and the text after the first
    occurrence of [sep], when there is one. *)
Fixpoint split_once (sep s : str) : option (str * str) :=
  if starts_with sep s then Some ([], skipn (length sep) s)
  else match s with
       | [] => None
       | c :: t =>
           match split_once sep t with
           | Some (before, after) => Some (c :: before, after)
           | None => None
           end
       end.

Definition is_bracket (c : ascii) : bool :=
  Ascii.eqb c "["%char || Ascii.eqb c "]"%char.

Fixpoint lstrip_brackets (s : str) : str :=
  match s with
  | c :: t => if is_bracket c then lstrip_brackets t else s
  | [] => []
  end.

(** [s.strip("[]")] *)
Definition strip_brackets (s : str) : str :=
  rev (lstrip_brackets (rev (lstrip_brackets s))).

(** The characters of a timestamp. *)
Definition stamp_char (c : ascii) : bool :=
  is_digit c || Ascii.eqb c "-"%char || Ascii.eqb c " "%char
  || Ascii.eqb c ":"%char.

(** The entry [add_thought] stores for a thought. *)
Definition stored_entry (t : datetime) (thought : str) : str :=
  $"[" ++ strftime_full t ++ $"] " ++ thought.

(** The entries of the chain of thought the section lists. *)
Definition is_auto_tuning (entry : str) : bool :=
  contains $"Auto-tuned parameters" entry
  || contains $"Auto-adjusted parameters" entry.

(** The line of one entry. *)
Definition render_entry (entry : str) : str :=
  match split_once $"] " entry with
  | Some (before, content) =>
      $"- **" ++ strip_brackets before ++ $"**: " ++ content ++ newline
  | None => $"- " ++ entry ++ newline
  end.

Definition heading : str :=
  $"## Auto-Tuning Decisions" ++ newline ++ newline ++
  $"The research process used automatic parameter tuning based on question complexity and information quality:" ++
  newline ++ newline.

(** The closing text of the section. *)
Definition explanation : str :=
  newline ++
  $"### How Auto-Tuning Works" ++ newline ++
  newline ++
  $"The research system automatically tunes its parameters by:" ++ newline ++
  newline ++
  $"1. **Initial Assessment**: Analyzing question complexity to determine initial depth and breadth" ++ newline ++
  $"2. **Dynamic Adjustment**: Adjusting parameters during research based on information quality" ++ newline ++
  $"3. **Resource Optimization**: Focusing more effort on complex questions and less on simple ones" ++ newline ++
  $"4. **Time Management**: Working within specified time constraints when provided" ++ newline ++
  newline ++
  $"This approach helps optimize the research process to match the specific requirements of each query." ++ newline.

(** [ResearchSession.format_auto_tuning_section] *)
Definition format_auto_tuning_section (chain_of_thought : list str) : str :=
  match filter is_auto_tuning chain_of_thought with
  | [] => []
  | auto_tuning_entries =>
      heading ++ concat (map render_entry auto_tuning_entries) ++ explanation
  end.

End Session.

(* ================================================================== *)
(** ** utils/text_splitter.py: RecursiveCharacterTextSplitter *)
(* ================================================================== *)

Module Splitter.

Import Engine.

Record TextSplitter := MkSplitter {
  chunk_size : Z;
  chunk_overlap : Z;
  separators : list str
}.

Definition default_separators : list str :=
  [["010"%char; "010"%char]; ["010"%char]; $"."; $","; $">"; $"<"; $" "; []].

(** [RecursiveCharacterTextSplitter(chunk_size, chunk_overlap, separators)] *)
Definition init (chunk_size chunk_overlap : Z) (separators : option (list str))
  : res TextSplitter :=
  if (chunk_size <=? chunk_overlap)%Z
  then Raise (Exn $"Cannot have chunk_overlap >= chunk_size")
  else Ok (MkSplitter chunk_size chunk_overlap
                      (match separators with
                       | Some l => l
                       | None => default_separators
                       end)).

(** [len(s)] *)
Definition len (s : str) : Z := Z.of_nat (length s).

(** [s.split(sep)] for a non-empty [sep]: the pieces between the
    occurrences of [sep], found from the left without overlap.  [skip] is
    the number of characters of the current occurrence still to pass and
    [cur] the piece read so far, last character first. *)
Fixpoint split_on_aux (sep : str) (skip : nat) (cur : str) (s : str)
  : list str :=
  match s with
  | [] => [rev cur]
  | c :: t =>
      match skip with
      | S k => split_on_aux sep k cur t
      | O =>
          if starts_with sep s
          then rev cur :: split_on_aux sep (length sep - 1) [] t
          else split_on_aux sep 0 (c :: cur) t
      end
  end.

Definition split_on (sep s : str) : list str := split_on_aux sep 0 [] s.

(** [_join_docs]: the joined and stripped text, [None] when it is empty. *)
Definition join_docs (docs : list str) (separator : str) : option str :=
  match strip (join separator docs) with
  | [] => None
  | text => Some text
  end.

(** [docs.append(doc)] when [doc is not None]. *)
Definition append_doc (docs : list str) (doc : option str) : list str :=
  match doc with
  | Some d => docs ++ [d]
  | None => docs
  end.

(** The [while] loop of [merge_splits]: it drops documents from the front
    of [current_doc] while the total is above the overlap, or the new
    piece of length [len_d] would not fit. *)
Fixpoint pop_front (self : TextSplitter) (len_d : Z)
         (current_doc : list str) (total : Z) : list str * Z :=
  match current_doc with
  | [] => ([], total)
  | first :: rest =>
      if (chunk_overlap self <? total)%Z
         || ((chunk_size self <? total + len_d)%Z && (0 <? total)%Z)
      then pop_front self len_d rest (total - len first)%Z
      else (current_doc, total)
  end.

(** The [for] loop of [merge_splits].  The warning the source prints for
    a total above the chunk size is output only and not part of the
    result. *)
Fixpoint merge_loop (self : TextSplitter) (separator : str)
         (splits docs current_doc : list str) (total : Z) : list str :=
  match splits with
  | [] => append_doc docs (join_docs current_doc separator)
  | d :: rest =>
      let len_d := len d in
      let '(docs1, current1, total1) :=
        if (chunk_size self <=? total + len_d)%Z then
          match current_doc with
          | [] => (docs, current_doc, total)
          | _ =>
              let '(current', total') :=
                pop_front self len_d current_doc total in
              (append_doc docs (join_docs current_doc separator),
               current', total')
          end
        else (docs, current_doc, total) in
      merge_loop self separator rest docs1 (current1 ++ [d])
                 (total1 + len_d)%Z
  end.

Definition merge_splits (self : TextSplitter) (splits : list str)
           (separator : str) : list str :=
  merge_loop self separator splits [] [] 0.

(** The separator the [for ... break] loop stops at. *)
Fixpoint first_separator (seps : list str) (text : str) : option str :=
  match seps with
  | [] => None
  | s :: rest =>
      match s with
      | [] => Some []
      | _ => if contains s text then Some s else first_separator rest text
      end
  end.

(** The separator of a text: [separators[-1]] unless the loop finds one. *)
Definition choose_separator (self : TextSplitter) (text : str) : res str :=
  match rev (separators self) with
  | [] => Raise (Exn $"list index out of range")
  | last :: _ =>
      Ok (match first_separator (separators self) text with
          | Some s => s
          | None => last
          end)
  end.

(** [text.split(separator) if separator != "" else list(text)] *)
Definition pieces (separator text : str) : list str :=
  match separator with
  | [] => map (fun c => [c]) text
  | _ => split_on separator text
  end.

(** [final_chunks.extend(merge_splits(good_splits, separator))] when
    there are good splits. *)
Definition flush (self : TextSplitter) (separator : str)
           (good_splits final_chunks : list str) : list str :=
  match good_splits with
  | [] => final_chunks
  | _ => final_chunks ++ merge_splits self good_splits separator
  end.

(** The loop of [split_text] over the pieces; [recur] is the recursive
    call. *)
Fixpoint split_loop (recur : str -> outcome (list str))
         (self : TextSplitter) (separator : str)
         (splits good_splits final_chunks : list str)
  : outcome (list str) :=
  match splits with
  | [] => Done (flush self separator good_splits final_chunks)
  | s :: rest =>
      if (len s <? chunk_size self)%Z
      then split_loop recur self separator rest (good_splits ++ [s])
                      final_chunks
      else
        match recur s with
        | Done other_info =>
            split_loop recur self separator rest []
                       (flush self separator good_splits final_chunks
                        ++ other_info)
        | Threw e => Threw e
        | OutOfFuel => OutOfFuel
        end
  end.

(** [split_text]; [fuel] bounds the nesting of its recursive calls. *)
Fixpoint split_text (fuel : nat) (self : TextSplitter) (text : str)
  : outcome (list str) :=
  match fuel with
  | O => OutOfFuel
  | S fuel' =>
      match choose_separator self text with
      | Raise e => Threw e
      | Ok separator =>
          split_loop (split_text fuel' self) self separator
                     (pieces separator text) [] []
      end
  end.

(** A text without a blank at its head. *)
Definition clean (s : str) : Prop :=
  match s with
  | c :: _ => is_space c = false
  | [] => True
  end.

(** What every chunk of a text of length at most [bound] is: not empty,
    without blanks at its ends and no longer than [bound]. *)
Definition chunk_of (bound : nat) (c : str) : Prop :=
  c <> [] /\ strip c = c /\ (length c <= bound)%nat.

End Splitter.

(* ================================================================== *)
(** ** llm.py: trim_prompt *)
(* ================================================================== *)

Module Llm.

Import Engine Splitter.

Section TrimPrompt.

(** [len(encoder.encode(prompt))]: the number of tokens of a text, or
    what the encoder raises on it. *)
Variable encode : str -> res nat.

(** [int(os.environ.get("CONTEXT_SIZE", 128000))] *)
Variable environment_context_size : res Z.

Definition MinChunkSize : Z := 140.

(** The context size in force: the argument, or the environment's when
    the argument is [None]. *)
Definition resolve (context_size : option Z) : res Z :=
  match context_size with
  | Some c => Ok c
  | None => environment_context_size
  end.

(** [splits[0] if splits else ""] *)
Definition first_or_empty (splits : list str) : str :=
  match splits with
  | s :: _ => s
  | [] => []
  end.

(** [trim_prompt]; [fuel] bounds the nesting of the recursive calls, of
    the function itself and of the splitter it uses. *)
Fixpoint trim_prompt (fuel : nat) (prompt : str) (context_size : option Z)
  : outcome str :=
  match fuel with
  | O => OutOfFuel
  | S fuel' =>
      match resolve context_size with
      | Raise e => Threw e
      | Ok context_size =>
          match prompt with
          | [] => Done []
          | _ =>
              match encode prompt with
              | Raise e => Threw e
              | Ok length =>
                  if (Z.of_nat length <=? context_size)%Z then Done prompt
                  else
                    let overflow_tokens :=
                      (Z.of_nat length - context_size)%Z in
                    let chunk_size :=
                      (len prompt - overflow_tokens * 3)%Z in
                    if (chunk_size <? MinChunkSize)%Z
                    then Done (slice_to MinChunkSize prompt)
                    else
                      match Splitter.init chunk_size 0 None with
                      | Raise e => Threw e
                      | Ok splitter =>
                          match split_text fuel splitter prompt with
                          | Done splits =>
                              let trimmed_prompt := first_or_empty splits in
                              if (len trimmed_prompt =? len prompt)%Z
                              then trim_prompt fuel'
                                     (slice_to chunk_size prompt)
                                     (Some context_size)
                              else trim_prompt fuel' trimmed_prompt
                                     (Some context_size)
                          | Threw e => Threw e
                          | OutOfFuel => OutOfFuel
                          end
                      end
              end
          end
      end
  end.

(** What [trim_prompt] makes of a prompt of [n] characters: a text no
    longer than the prompt that fits the context size by the encoder's
    count or has at most 140 characters, or an error of the encoder. *)
Definition trimmed (n : nat) (context_size : Z) (o : outcome str) : Prop :=
  match o with
  | Done r =>
      (length r <= n)%nat /\
      ((length r <= 140)%nat \/
       exists tokens, encode r = Ok tokens /\
                      (Z.of_nat tokens <= context_size)%Z)
  | Threw e => exists s, (length s <= n)%nat /\ encode s = Raise e
  | OutOfFuel => False
  end.

End TrimPrompt.

End Llm.

(* ================================================================== *)
(** * Verification *)
(* ================================================================== *)

(** ** ResearchMemory: insertion without duplicates *)

Section MemoryFacts.
Import Memory.

Lemma str_eqb_true_iff (a b : str) : str_eqb a b = true <-> a = b.
Proof.
  unfold str_eqb. destruct (str_dec a b); split;
    intros; congruence.
Qed.

(** [x in l] is membership by equality of strings. *)
Lemma mem_In (x : str) (l : list str) : mem x l = true <-> In x l.
Proof.
  unfold mem. rewrite existsb_exists. split.
  - intros [y [Hy He]]. apply str_eqb_true_iff in He. now subst.
  - intros H. exists x. split; [assumption | now apply str_eqb_true_iff].
Qed.

Lemma mem_app_self (x : str) (l : list str) : mem x (l ++ [x]) = true.
Proof. apply mem_In, in_or_app. right. now left. Qed.

Lemma mem_in_dec (x : str) (l : list str) :
  mem x l = if in_dec str_dec x l then true else false.
Proof.
  destruct (in_dec str_dec x l) as [H | H].
  - now apply mem_In.
  - destruct (mem x l) eqn:E; [| reflexivity].
    apply mem_In in E. contradiction.
Qed.

Lemma add_learning_NoDup (s : str) (m : ResearchMemory) :
  NoDup (learnings m) -> NoDup (learnings (add_learning s m)).
Proof.
  intros H. unfold add_learning. destruct (mem s (learnings m)) eqn:E.
  - assumption.
  - simpl. apply NoDup_app; [assumption | repeat constructor; cbn; tauto |].
    intros x Hx [Hs | []]. subst x. apply mem_In in Hx. congruence.
Qed.
End MemoryFacts.

(** C7. Adding the same learning (the same URL) twice leaves the memory as
    it is after the first addition; a string is appended, at the end of the
    list, exactly when no equal string is stored already, so the stored
    strings keep the order of their first insertion and none is repeated. *)
Theorem add_twice_same_as_once (m : Memory.ResearchMemory) (s : str) :
  Memory.add_learning s (Memory.add_learning s m) = Memory.add_learning s m /\
  Memory.add_url s (Memory.add_url s m) = Memory.add_url s m /\
  Memory.learnings (Memory.add_learning s m) =
    Memory.learnings m ++
    (if in_dec str_dec s (Memory.learnings m) then [] else [s]) /\
  Memory.visited_urls (Memory.add_url s m) =
    Memory.visited_urls m ++
    (if in_dec str_dec s (Memory.visited_urls m) then [] else [s]) /\
  Memory.visited_urls (Memory.add_learning s m) = Memory.visited_urls m /\
  Memory.learnings (Memory.add_url s m) = Memory.learnings m.
Proof.
  unfold Memory.add_learning, Memory.add_url.
  rewrite !mem_in_dec.
  destruct (in_dec str_dec s (Memory.learnings m)) as [Hl | Hl];
    destruct (in_dec str_dec s (Memory.visited_urls m)) as [Hu | Hu];
    cbn [Memory.learnings Memory.visited_urls Memory.set_learnings
         Memory.set_visited_urls];
    rewrite ?mem_in_dec, ?app_nil_r;
    repeat match goal with
           | |- context [in_dec str_dec s ?l] =>
               destruct (in_dec str_dec s l) as [? | Hn];
               [| try (exfalso; apply Hn; first
                         [ assumption
                         | apply in_or_app; right; now left ])]
           end;
    repeat split; reflexivity.
Qed.

(** ** AutoTuner.adjust_parameters *)

Lemma ltb_spec (x y : Q) : Float.ltb x y = true <-> (x < y)%Q.
Proof.
  unfold Float.ltb. rewrite negb_true_iff. split.
  - intros H. apply Qnot_le_lt. intros Hle.
    apply Qle_bool_iff in Hle. congruence.
  - intros H. destruct (Qle_bool y x) eqn:E; [| reflexivity].
    apply Qle_bool_iff in E. exfalso. now apply (Qlt_not_le x y).
Qed.

Lemma ltb_dec (x y : Q) :
  Float.ltb x y = if Qlt_le_dec x y then true else false.
Proof.
  destruct (Qlt_le_dec x y) as [H | H].
  - now apply ltb_spec.
  - destruct (Float.ltb x y) eqn:E; [| reflexivity].
    apply ltb_spec in E. exfalso. now apply (Qlt_not_le x y).
Qed.

Lemma f0_3_lt_f0_7 : (f0_3 < f0_7)%Q.
Proof. reflexivity. Qed.

(** C3. [adjust_parameters] returns the current depth and breadth moved by
    the deltas of the quality band ((+1, +2) below 0.3, (-1, -1) above
    0.7, (0, +1) otherwise), less (1, 2) when more than 0.7 of the time is
    used, and clamped into [[1, max_depth]] and [[2, max_breadth]]. *)
Theorem adjust_parameters_by_band
        (self : AutoTuner.AutoTuner) (depth breadth : Z)
        (info_quality time_usage_fraction : Q) :
  (1 <= AutoTuner.max_depth self)%Z ->
  (2 <= AutoTuner.max_breadth self)%Z ->
  let r := AutoTuner.adjust_parameters self depth breadth
                                       info_quality time_usage_fraction in
  r = AdjustSpec.adjusted (AutoTuner.max_depth self)
                          (AutoTuner.max_breadth self) depth breadth
                          info_quality time_usage_fraction /\
  (1 <= fst r <= AutoTuner.max_depth self)%Z /\
  (2 <= snd r <= AutoTuner.max_breadth self)%Z.
Proof.
  intros Hd Hb.
  unfold AutoTuner.adjust_parameters, AdjustSpec.adjusted,
    AdjustSpec.band_deltas, AdjustSpec.time_penalty, AdjustSpec.clamp,
    Float.gtb.
  rewrite !ltb_dec.
  pose proof f0_3_lt_f0_7 as H37.
  destruct (Qlt_le_dec info_quality f0_3) as [Hq | Hq];
    destruct (Qlt_le_dec f0_7 info_quality) as [Hq' | Hq'];
    destruct (Qlt_le_dec f0_7 time_usage_fraction) as [Ht | Ht];
    try (exfalso;
         apply (Qlt_irrefl info_quality);
         eapply Qlt_trans; [exact Hq |];
         eapply Qlt_trans; [exact H37 | exact Hq']);
    cbn [fst snd];
    repeat match goal with
           | |- context [(?a <? ?b)%Z] => destruct (Z.ltb_spec a b)
           end;
    repeat split; try (f_equal; lia); lia.
Qed.

(** The theorem at the tuner of the test suite. *)
Lemma adjust_parameters_by_band_witness :
  let r := AutoTuner.adjust_parameters (AutoTuner.init 5 8 (Some 300%Z))
                                       3 4 (1 # 2) f0_8 in
  r = AdjustSpec.adjusted 5 8 3 4 (1 # 2) f0_8 /\
  (1 <= fst r <= 5)%Z /\ (2 <= snd r <= 8)%Z.
Proof.
  apply (adjust_parameters_by_band (AutoTuner.init 5 8 (Some 300%Z))
                                   3 4 (1 # 2) f0_8); simpl; lia.
Defined.

(** With low quality and time pressure the deltas cancel: at depth 3 and
    breadth 4, quality 0.2 and time usage 0.8, both parameters come back
    unchanged, neither smaller nor at their floor. *)
Lemma time_pressure_low_quality_unchanged :
  let r := AutoTuner.adjust_parameters (AutoTuner.init 5 8 None)
                                       3 4 f0_2 f0_8 in
  ~ (((fst r < 3)%Z \/ fst r = 1%Z) /\ ((snd r < 4)%Z \/ snd r = 2%Z)).
Proof.
  cbv zeta. vm_compute. intros [[H | H] _].
  - discriminate H.
  - discriminate H.
Qed.

(** C4, amended. With time usage 0.8, for every quality that is not below
    0.3 the returned depth is smaller than the current one or is 1, and the
    returned breadth is smaller than the current one or is 2; for a quality
    below 0.3 the deltas cancel and the current values are only clamped. *)
Theorem time_pressure_contracts
        (self : AutoTuner.AutoTuner) (depth breadth : Z) (info_quality : Q) :
  let r := AutoTuner.adjust_parameters self depth breadth info_quality f0_8 in
  ((f0_3 <= info_quality)%Q ->
   ((fst r < depth)%Z \/ fst r = 1%Z) /\
   ((snd r < breadth)%Z \/ snd r = 2%Z)) /\
  ((info_quality < f0_3)%Q ->
   r = (Z.max 1 (Z.min (AutoTuner.max_depth self) depth),
        Z.max 2 (Z.min (AutoTuner.max_breadth self) breadth))).
Proof.
  unfold AutoTuner.adjust_parameters, Float.gtb.
  rewrite !ltb_dec.
  assert (H78 : (f0_7 < f0_8)%Q) by reflexivity.
  destruct (Qlt_le_dec f0_7 f0_8) as [_ | Hc];
    [| exfalso; now apply (Qlt_not_le f0_7 f0_8)].
  destruct (Qlt_le_dec info_quality f0_3) as [Hq | Hq];
    [| destruct (Qlt_le_dec f0_7 info_quality) as [Hq' | Hq']];
    cbn [fst snd]; split; intros H;
    try (exfalso; now apply (Qlt_not_le info_quality f0_3));
    try (f_equal; f_equal; f_equal; lia);
    split; lia.
Qed.

(** The theorem at the tuner of the test suite, in the moderate band and
    in the low band. *)
Lemma time_pressure_contracts_witness :
  (let r := AutoTuner.adjust_parameters (AutoTuner.init 5 8 None)
                                        3 4 (1 # 2) f0_8 in
   ((fst r < 3)%Z \/ fst r = 1%Z) /\ ((snd r < 4)%Z \/ snd r = 2%Z)) /\
  AutoTuner.adjust_parameters (AutoTuner.init 5 8 None) 3 4 f0_2 f0_8 =
    (3, 4)%Z.
Proof.
  split.
  - apply (time_pressure_contracts (AutoTuner.init 5 8 None) 3 4 (1 # 2)).
    unfold Qle, f0_3; simpl; lia.
  - apply (time_pressure_contracts (AutoTuner.init 5 8 None) 3 4 f0_2).
    reflexivity.
Defined.

(** ** The public entry point *)

(** No exception leaves the entry point: whatever the world does, the
    call returns a dictionary or, in the model, runs out of fuel. *)
Lemma deep_research_never_raises
      {R : Rounding} (World : Type) (P : Engine.Providers World)
      (fuel : nat) (w : World) (q : str) (breadth depth : option Z)
      (auto_tune : bool) (max_depth max_breadth : Z) (budget : option Z)
      (e : exn) :
  Api.deep_research World P fuel w q breadth depth auto_tune
                    max_depth max_breadth budget <> Engine.Threw e.
Proof.
  unfold Api.deep_research.
  destruct (Engine.init World P auto_tune max_depth max_breadth budget w)
    as [[engine | e0] w'].
  - destruct (fst (Engine.deep_research World P fuel q breadth depth engine));
      discriminate.
  - discriminate.
Qed.

(** C1, at the failing input. When [LLM_MODEL_NAME] is not set the
    constructor of the engine raises, and the entry point returns the
    dictionary of its [except] branch: it has the fields [learnings] (one
    error string), [visited_urls] and [chain_of_thought] (the critical
    error), and lacks [information_map], [contradictions] and
    [source_evaluations]. *)
Theorem error_result_lacks_three_fields
        {R : Rounding} (fuel : nat) (q : str) (breadth depth : option Z)
        (auto_tune : bool) (max_depth max_breadth : Z) (budget : option Z) :
  let d := [($"learnings",
             Engine.VStrings [$"Research error: 'LLM_MODEL_NAME'"]);
            ($"visited_urls", Engine.VStrings []);
            ($"chain_of_thought",
             Engine.VStrings
               [$"Critical error in research process: 'LLM_MODEL_NAME'"])] in
  Api.deep_research unit Offline.providers fuel tt q breadth depth
                    auto_tune max_depth max_breadth budget = Engine.Done d /\
  Engine.has_key $"learnings" d = true /\
  Engine.has_key $"visited_urls" d = true /\
  Engine.has_key $"chain_of_thought" d = true /\
  Engine.has_key $"information_map" d = false /\
  Engine.has_key $"contradictions" d = false /\
  Engine.has_key $"source_evaluations" d = false.
Proof.
  cbv zeta. repeat split; reflexivity.
Qed.

(** ** The recursion of the engine *)

Section EngineFacts.
Context {R : Rounding}.
Variable World : Type.
Variable P : Engine.Providers World.
Import Engine.

Lemma quiet_ret {A} (a : A) : quiet (World := World) (ret a).
Proof. intros st. split; [discriminate | reflexivity]. Qed.

Lemma quiet_raise {A} (e : exn) : quiet (World := World) (A := A) (raise e).
Proof. intros st. split; [discriminate | reflexivity]. Qed.

Lemma quiet_get : quiet (World := World) get.
Proof. intros st. split; [discriminate | reflexivity]. Qed.

Lemma quiet_modify (f : State World -> State World) :
  (forall st, iteration_calls (f st) = iteration_calls st) ->
  quiet (modify f).
Proof. intros H st. split; [discriminate | apply H]. Qed.

Lemma quiet_lift_res {A} (r : res A) : quiet (World := World) (lift_res r).
Proof. destruct r; [apply quiet_ret | apply quiet_raise]. Qed.

Lemma quiet_bind {A B} (c : M World A) (k : A -> M World B) :
  quiet c -> (forall a, quiet (k a)) -> quiet (bind c k).
Proof.
  intros Hc Hk st. unfold bind. specialize (Hc st).
  destruct (c st) as [[a | e |] st']; cbn [fst snd] in *.
  - destruct Hc as [_ Hc]. rewrite <- Hc. apply Hk.
  - split; [discriminate | apply Hc].
  - destruct Hc as [Hc _]. now contradiction Hc.
Qed.

Lemma quiet_try_except {A} (c : M World A) (h : exn -> M World A) :
  quiet c -> (forall e, quiet (h e)) -> quiet (try_except c h).
Proof.
  intros Hc Hh st. unfold try_except. specialize (Hc st).
  destruct (c st) as [[a | e |] st']; cbn [fst snd] in *.
  - split; [discriminate | apply Hc].
  - destruct Hc as [_ Hc]. rewrite <- Hc. apply Hh.
  - destruct Hc as [Hc _]. now contradiction Hc.
Qed.

Lemma quiet_for_each {A} (l : list A) (body : A -> M World unit) :
  (forall x, quiet (body x)) -> quiet (for_each l body).
Proof.
  intros H. induction l as [| x l IH]; cbn [for_each].
  - apply quiet_ret.
  - apply quiet_bind; [apply H | intros _; exact IH].
Qed.

Lemma quiet_for_each_numbered {A} (l : list A) (body : Z -> A -> M World unit) :
  (forall i x, quiet (body i x)) ->
  forall i, quiet (for_each_numbered i l body).
Proof.
  intros H. induction l as [| x l IH]; intros i; cbn [for_each_numbered].
  - apply quiet_ret.
  - apply quiet_bind; [apply H | intros _; apply IH].
Qed.

Lemma quiet_now : quiet (now World P).
Proof.
  intros st. unfold now. destruct (clock World P (world st)).
  split; [discriminate | reflexivity].
Qed.

Lemma quiet_event_loop_time : quiet (event_loop_time World P).
Proof.
  intros st. unfold event_loop_time. destruct (loop_time World P (world st)).
  split; [discriminate | reflexivity].
Qed.

Lemma quiet_call {A} (f : external World A) : quiet (call World f).
Proof.
  intros st. unfold call. destruct (f (world st) (memory st)) as [[r m] w].
  destruct r; split; try discriminate; reflexivity.
Qed.

Lemma quiet_request_serp_queries (prompt : str) :
  quiet (request_serp_queries World P prompt).
Proof.
  intros st. unfold request_serp_queries.
  destruct (generate_serp World P (model st) prompt (world st)) as [r w].
  destruct r; split; try discriminate; reflexivity.
Qed.

Lemma quiet_memory_add_thought (t : str) : quiet (memory_add_thought World P t).
Proof.
  unfold memory_add_thought. apply quiet_bind; [apply quiet_now |].
  intros d. now apply quiet_modify.
Qed.

Lemma quiet_progress_update (f : ResearchProgress -> ResearchProgress) :
  quiet (progress_update World P f).
Proof.
  unfold progress_update. apply quiet_bind; [apply quiet_get |].
  intros st. destruct (progress st).
  - apply quiet_bind; [now apply quiet_modify |]. intros _.
    apply quiet_bind; [apply quiet_now | intros _; apply quiet_ret].
  - apply quiet_ret.
Qed.

(** One step of the proof that a computation is quiet. *)
Ltac quiet_step :=
  first
    [ apply quiet_ret | apply quiet_raise | apply quiet_get
    | apply quiet_lift_res | apply quiet_now | apply quiet_event_loop_time
    | apply quiet_call | apply quiet_memory_add_thought
    | apply quiet_request_serp_queries
    | apply quiet_progress_update
    | apply quiet_modify; intro; reflexivity
    | apply quiet_for_each; intro
    | apply quiet_for_each_numbered; intros
    | apply quiet_bind; [| intro]
    | apply quiet_try_except; [| intro]
    | match goal with
      | |- quiet (match ?x with _ => _ end) => destruct x
      | |- quiet (if ?b then _ else _) => destruct b
      end ].

Lemma quiet_determine_auto_parameters (q : str) :
  quiet (determine_auto_parameters World P q).
Proof. unfold determine_auto_parameters. repeat quiet_step. Qed.

Lemma quiet_generate_serp_queries (q : str) (n : Z) :
  quiet (generate_serp_queries World P q n).
Proof.
  unfold generate_serp_queries. repeat quiet_step.
Qed.

Lemma quiet_execute_query (sq : SerpQuery) (d b : Z) :
  quiet (execute_query World P sq d b).
Proof. unfold execute_query. repeat quiet_step. Qed.

Lemma quiet_time_usage (tuner : AutoTuner.AutoTuner) :
  quiet (time_usage World P tuner).
Proof. unfold time_usage. repeat quiet_step. Qed.

(** The same, knowing the methods of the engine. *)
Ltac quiet_method :=
  first
    [ apply quiet_time_usage | apply quiet_execute_query
    | apply quiet_generate_serp_queries
    | apply quiet_determine_auto_parameters
    | quiet_step ].

Lemma quiet_adjust_parameters (d b : Z) :
  quiet (adjust_parameters World P d b).
Proof.
  unfold adjust_parameters. repeat quiet_method.
Qed.

(** At depth 1 the loop body does not use the recursive call. *)
Lemma iteration_step_depth_1 (recur : str -> Z -> Z -> M World unit)
      (b : Z) (sq : SerpQuery) (st : State World) :
  iteration_step World P recur 1 b sq st =
  iteration_step World P (fun _ _ _ => ret tt) 1 b sq st.
Proof.
  unfold iteration_step, bind.
  destruct (execute_query World P sq 1 b st) as [[qr | e |] st1];
    try reflexivity.
  destruct (progress_update World P add_completed_query st1)
    as [[u | e |] st2]; try reflexivity.
  change (1 <? 1)%Z with false. rewrite andb_false_r. reflexivity.
Qed.

Lemma quiet_iteration_step_depth_1 (recur : str -> Z -> Z -> M World unit)
      (b : Z) (sq : SerpQuery) :
  quiet (iteration_step World P recur 1 b sq).
Proof.
  intros st. rewrite iteration_step_depth_1. revert st.
  change (quiet (iteration_step World P (fun _ _ _ => ret tt) 1 b sq)).
  unfold iteration_step.
  repeat first [apply quiet_adjust_parameters | quiet_method].
Qed.

Lemma enters_bind_quiet_l {A B} (k : nat) (c : M World A) (f : A -> M World B)
      (Q : A -> Prop) :
  quiet c ->
  (forall st a, fst (c st) = Done a -> Q a) ->
  (forall a, Q a -> enters k (f a)) ->
  enters k (bind c f).
Proof.
  intros Hc HQ Hf st. unfold bind.
  specialize (Hc st). specialize (HQ st).
  destruct (c st) as [[a | e |] st']; cbn [fst snd] in *.
  - destruct Hc as [_ Hc]. rewrite <- Hc. apply Hf. now apply HQ.
  - destruct Hc as [_ Hc]. rewrite Hc. lia.
  - destruct Hc as [Hc _]. now apply Hc.
Qed.

Lemma enters_bind_quiet_r {A B} (k : nat) (c : M World A) (f : A -> M World B) :
  enters k c -> (forall a, quiet (f a)) -> enters k (bind c f).
Proof.
  intros Hc Hf st. unfold bind. specialize (Hc st).
  destruct (c st) as [[a | e |] st']; cbn [fst snd] in *.
  - specialize (Hf a st'). destruct Hf as [Hf1 Hf2].
    destruct (f a st') as [[x | e |] st'']; cbn [fst snd] in *.
    + congruence.
    + rewrite Hf2, Hc. lia.
    + now apply Hf1.
  - exact Hc.
  - exact Hc.
Qed.

Lemma enters_once_then_quiet {A} (c : M World A) :
  quiet c -> enters 1 (bind (modify (count_iteration World)) (fun _ => c)).
Proof.
  intros H st. unfold bind, modify.
  specialize (H (count_iteration World st)).
  destruct H as [H1 H2]. cbn [count_iteration iteration_calls] in H2.
  destruct (c (count_iteration World st)) as [[u | e |] st'];
    cbn [fst snd] in *.
  - rewrite H2. lia.
  - rewrite H2. lia.
  - now apply H1.
Qed.

(** An iteration at depth 1 is entered once and calls no other. *)
Lemma iteration_depth_1_enters_once (n : nat) (q : str) (b : Z) :
  enters 1 (execute_research_iteration World P (S n) q 1 b).
Proof.
  cbn [execute_research_iteration].
  apply enters_once_then_quiet.
  repeat first [apply quiet_iteration_step_depth_1 | quiet_method].
Qed.

(** C2. A run of [deep_research] started with depth 1, in any world and
    with any answers of the search, scrape and extraction services (any
    number of follow-up questions among them), enters
    [execute_research_iteration] once, for the top-level call, and never
    again: with fuel for a single entry the run already returns or raises. *)
Theorem depth_one_never_recurses
        (n : nat) (q : str) (breadth : option Z) (st : State World) :
  let r := deep_research World P (S n) q breadth (Some 1%Z) st in
  match fst r with
  | Done _ => iteration_calls (snd r) = S (iteration_calls st)
  | Threw _ => (iteration_calls (snd r) <= S (iteration_calls st))%nat
  | OutOfFuel => False
  end.
Proof.
  cbv zeta.
  assert (H : enters 1 (deep_research World P (S n) q breadth (Some 1%Z))).
  { unfold deep_research.
    apply enters_bind_quiet_l with (Q := fun _ => True);
      [apply quiet_get | trivial | intros st0 _].
    apply enters_bind_quiet_l with (Q := fun p => fst p = 1%Z).
    - repeat quiet_method.
    - intros s a. destruct (auto_tune st0 && _).
      + unfold bind.
        destruct (determine_auto_parameters World P q s) as [[x | e |] s'];
          cbn; intros E; try discriminate.
        injection E as <-. reflexivity.
      + cbn. intros E. injection E as <-. reflexivity.
    - intros [d b] Hd. cbn in Hd. subst d.
      apply enters_bind_quiet_l with (Q := fun _ => True);
        [apply quiet_now | trivial | intros t0 _].
      apply enters_bind_quiet_l with (Q := fun _ => True);
        [repeat quiet_step | trivial | intros _ _].
      apply enters_bind_quiet_l with (Q := fun _ => True);
        [apply quiet_get | trivial | intros st1 _].
      apply enters_bind_quiet_l with (Q := fun _ => True);
        [repeat quiet_step | trivial | intros _ _].
      apply enters_bind_quiet_l with (Q := fun _ => True);
        [repeat quiet_step | trivial | intros _ _].
      apply enters_bind_quiet_l with (Q := fun _ => True);
        [repeat quiet_step | trivial | intros _ _].
      apply enters_bind_quiet_l with (Q := fun _ => True);
        [apply quiet_get | trivial | intros st2 _].
      apply enters_bind_quiet_l with (Q := fun _ => True);
        [repeat quiet_step | trivial | intros _ _].
      apply enters_bind_quiet_r;
        [apply iteration_depth_1_enters_once | intros _; repeat quiet_step]. }
  specialize (H st).
  destruct (fst (deep_research World P (S n) q breadth (Some 1%Z) st));
    [lia | lia | exact H].
Qed.
End EngineFacts.

(** ** The matcher *)

Section MatcherFacts.
Import Re.

Lemma rep_greedy_consumes {A} (p : ascii -> bool) (s : str) :
  forall (lo : nat) (hi : option nat) (k : str -> option A) (x : A),
    rep_greedy p lo hi s k = Some x ->
    exists run s', s = run ++ s' /\ forallb p run = true /\
                   (lo <= length run)%nat /\
                   match hi with
                   | Some h => (length run <= h)%nat
                   | None => True
                   end /\
                   k s' = Some x.
Proof.
  induction s as [| c t IH]; intros lo hi k x H; cbn [rep_greedy] in H.
  - destruct lo; [| discriminate].
    exists [], []. repeat split; try assumption; try (cbn; lia).
    destruct hi; cbn; [lia | exact I].
  - assert (Hstop : match lo with O => k (c :: t) | S _ => None end = Some x ->
                    exists run s', c :: t = run ++ s' /\
                      forallb p run = true /\ (lo <= length run)%nat /\
                      match hi with
                      | Some h => (length run <= h)%nat
                      | None => True
                      end /\ k s' = Some x).
    { intros Hs. destruct lo; [| discriminate].
      exists [], (c :: t). repeat split; try assumption; try (cbn; lia).
      destruct hi; cbn; [lia | exact I]. }
    destruct (hi_open hi && p c) eqn:E; [| now apply Hstop].
    apply andb_true_iff in E. destruct E as [Eh Ep].
    destruct (rep_greedy p (pred lo) (hi_pred hi) t k) as [y |] eqn:Er;
      [| now apply Hstop].
    injection H as <-.
    apply IH in Er. destruct Er as [run [s' [E1 [E2 [E3 [E4 E5]]]]]].
    exists (c :: run), s'. subst t. repeat split.
    + cbn. now rewrite Ep, E2.
    + cbn. lia.
    + destruct hi as [[| h] |]; cbn in *; try discriminate; try lia; exact I.
    + assumption.
Qed.

Lemma rep_lazy_consumes {A} (p : ascii -> bool) (s : str) :
  forall (lo : nat) (hi : option nat) (k : str -> option A) (x : A),
    rep_lazy p lo hi s k = Some x ->
    exists run s', s = run ++ s' /\ forallb p run = true /\
                   (lo <= length run)%nat /\
                   match hi with
                   | Some h => (length run <= h)%nat
                   | None => True
                   end /\
                   k s' = Some x.
Proof.
  induction s as [| c t IH]; intros lo hi k x H; cbn [rep_lazy] in H.
  - destruct lo; [| discriminate].
    destruct (k []) eqn:E; [| discriminate]. injection H as <-.
    exists [], []. repeat split; try assumption; try (cbn; lia).
    destruct hi; cbn; [lia | exact I].
  - assert (Hmore : (if hi_open hi && p c
                     then rep_lazy p (pred lo) (hi_pred hi) t k
                     else None) = Some x ->
                    exists run s', c :: t = run ++ s' /\
                      forallb p run = true /\ (lo <= length run)%nat /\
                      match hi with
                      | Some h => (length run <= h)%nat
                      | None => True
                      end /\ k s' = Some x).
    { intros Hm. destruct (hi_open hi && p c) eqn:E; [| discriminate].
      apply andb_true_iff in E. destruct E as [Eh Ep].
      apply IH in Hm. destruct Hm as [run [s' [E1 [E2 [E3 [E4 E5]]]]]].
      exists (c :: run), s'. subst t. repeat split.
      + cbn. now rewrite Ep, E2.
      + cbn. lia.
      + destruct hi as [[| h] |]; cbn in *; try discriminate; try lia; exact I.
      + assumption. }
    destruct lo; [| now apply Hmore].
    destruct (k (c :: t)) as [y |] eqn:E; [| now apply Hmore].
    injection H as <-.
    exists [], (c :: t). repeat split; try assumption; try (cbn; lia).
    destruct hi; cbn; [lia | exact I].
Qed.

(** Every answer of the matcher comes from its continuation, called after
    a match of the pattern. *)
Lemma rmatch_consumes {A} (r : regex) :
  forall (s : str) (cs : captures) (k : str -> captures -> option A) (x : A),
    rmatch r s cs k = Some x ->
    exists s' cs', consumes r s cs s' cs' /\ k s' cs' = Some x.
Proof.
  induction r as [p | | r1 IH1 r2 IH2 | r1 IH1 r2 IH2 | g lo hi p | n r1 IH1];
    intros s cs k x H; cbn [rmatch] in H; cbn [consumes].
  - destruct s as [| c t]; [discriminate |].
    destruct (p c) eqn:E; [| discriminate].
    exists t, cs. split; [| assumption]. now exists c.
  - exists s, cs. now split.
  - apply IH1 in H. destruct H as [s1 [cs1 [H1 H]]].
    apply IH2 in H. destruct H as [s2 [cs2 [H2 H]]].
    exists s2, cs2. split; [| assumption]. now exists s1, cs1.
  - destruct (rmatch r1 s cs k) as [y |] eqn:E.
    + injection H as <-. apply IH1 in E. destruct E as [s' [cs' [H1 H2]]].
      exists s', cs'. split; [now left | assumption].
    + apply IH2 in H. destruct H as [s' [cs' [H1 H2]]].
      exists s', cs'. split; [now right | assumption].
  - assert (Hrep : exists run s', s = run ++ s' /\ forallb p run = true /\
                     (lo <= length run)%nat /\
                     match hi with
                     | Some h => (length run <= h)%nat
                     | None => True
                     end /\ k s' cs = Some x).
    { destruct g.
      - now apply (rep_greedy_consumes p s lo hi (fun s' => k s' cs)).
      - now apply (rep_lazy_consumes p s lo hi (fun s' => k s' cs)). }
    destruct Hrep as [run [s' [E1 [E2 [E3 [E4 E5]]]]]].
    exists s', cs. split; [| assumption]. split; [reflexivity |].
    now exists run.
  - apply IH1 in H. destruct H as [s' [cs' [H1 H2]]].
    exists s', ((n, firstn (length s - length s') s) :: cs').
    split; [| assumption]. now exists cs'.
Qed.

Lemma match_here_consumes (r : regex) (s : str) (m : match_obj) :
  match_here r s = Some m ->
  exists s' cs', consumes r s [] s' cs' /\
                 m = MkMatch (firstn (length s - length s') s) cs' s'.
Proof.
  unfold match_here. intros H. apply rmatch_consumes in H.
  destruct H as [s' [cs' [H1 H2]]]. exists s', cs'.
  split; [assumption | congruence].
Qed.

Lemma finditer_aux_match (r : regex) (m : match_obj) (s : str) :
  forall skip, In m (finditer_aux r skip s) ->
               exists s0, match_here r s0 = Some m.
Proof.
  induction s as [| c t IH]; intros skip H; cbn [finditer_aux] in H.
  - destruct H.
  - destruct skip as [| k]; [| now apply (IH k)].
    destruct (match_here r (c :: t)) as [m0 |] eqn:E.
    + destruct H as [-> | H]; [now exists (c :: t) | now apply IH in H].
    + now apply IH in H.
Qed.

Lemma finditer_match (r : regex) (m : match_obj) (s : str) :
  In m (finditer r s) -> exists s0, match_here r s0 = Some m.
Proof. apply finditer_aux_match. Qed.

Lemma no_groups_consumes (r : regex) :
  no_groups r = true ->
  forall s cs s' cs', consumes r s cs s' cs' -> cs' = cs.
Proof.
  induction r as [p | | r1 IH1 r2 IH2 | r1 IH1 r2 IH2 | g lo hi p | n r1 IH1];
    cbn [no_groups consumes]; intros Hn s cs s' cs' H.
  - now destruct H as [c [_ [_ H]]].
  - now destruct H.
  - apply andb_true_iff in Hn. destruct Hn as [Hn1 Hn2].
    destruct H as [s1 [cs1 [H1 H2]]].
    apply (IH1 Hn1) in H1. apply (IH2 Hn2) in H2. congruence.
  - apply andb_true_iff in Hn. destruct Hn as [Hn1 Hn2].
    destruct H as [H | H]; [now apply (IH1 Hn1) in H | now apply (IH2 Hn2) in H].
  - now destruct H.
  - discriminate.
Qed.

Lemma firstn_consumed {A} (pre s' : list A) :
  firstn (length (pre ++ s') - length s') (pre ++ s') = pre.
Proof.
  rewrite length_app, Nat.add_sub.
  rewrite firstn_app, Nat.sub_diag, firstn_all. cbn. apply app_nil_r.
Qed.
End MatcherFacts.

(** ** The patterns of the content classifier *)

Section PatternFacts.
Import Re ContentClassifier ClassifierSpec.

Lemma ascii_eqb_true (a b : ascii) : Ascii.eqb a b = true -> a = b.
Proof. apply Ascii.eqb_eq. Qed.

Lemma word_consumes (w : str) :
  forall s cs s' cs',
    consumes (word w) s cs s' cs' -> s = w ++ s' /\ cs' = cs.
Proof.
  induction w as [| c t IH]; intros s cs s' cs' H.
  - cbn in H. destruct H. now subst.
  - destruct t as [| c2 t'].
    + cbn in H. destruct H as [x [-> [E ->]]].
      apply ascii_eqb_true in E. now subst.
    + change (word (c :: c2 :: t'))
        with (Seq (Chr (chr_eq c)) (word (c2 :: t'))) in H.
      cbn [consumes] in H.
      destruct H as [s1 [cs1 [[x [-> [E ->]]] H2]]].
      apply ascii_eqb_true in E. subst x.
      apply IH in H2. destruct H2 as [-> ->]. now split.
Qed.

Lemma word_ci_consumes (w : str) :
  forall s cs s' cs',
    consumes (word_ci w) s cs s' cs' ->
    exists pre, s = pre ++ s' /\ lower pre = lower w /\ cs' = cs.
Proof.
  induction w as [| c t IH]; intros s cs s' cs' H.
  - cbn in H. destruct H. subst. now exists [].
  - destruct t as [| c2 t'].
    + cbn in H. destruct H as [x [-> [E ->]]].
      apply ascii_eqb_true in E. exists [x]. unfold lower. cbn [map app].
      repeat split. congruence.
    + change (word_ci (c :: c2 :: t'))
        with (Seq (Chr (chr_ci c)) (word_ci (c2 :: t'))) in H.
      cbn [consumes] in H.
      destruct H as [s1 [cs1 [[x [-> [E ->]]] H2]]].
      apply ascii_eqb_true in E.
      apply IH in H2. destruct H2 as [pre [-> [El ->]]].
      exists (x :: pre). unfold lower in *. cbn [map] in *.
      repeat split. congruence.
Qed.

Lemma alts_consumes (rs : list regex) :
  forall s cs s' cs',
    consumes (alts rs) s cs s' cs' ->
    exists r, In r rs /\ consumes r s cs s' cs'.
Proof.
  induction rs as [| r rs' IH]; intros s cs s' cs' H.
  - cbn in H. destruct H as [c [_ [E _]]]. discriminate.
  - destruct rs' as [| r2 rs''].
    + exists r. split; [now left | exact H].
    + change (alts (r :: r2 :: rs'')) with (Alt r (alts (r2 :: rs''))) in H.
      cbn [consumes] in H. destruct H as [H | H].
      * exists r. split; [now left | exact H].
      * apply IH in H. destruct H as [r0 [Hin H]].
        exists r0. split; [now right | exact H].
Qed.

Lemma month_names_lower (w : str) : In w month_names -> lower w = w.
Proof.
  intros H. cbn in H.
  repeat (destruct H as [<- | H]; [reflexivity |]). destruct H.
Qed.

Lemma month_alt_consumes s cs s' cs' :
  consumes month_alt s cs s' cs' ->
  exists pre, s = pre ++ s' /\ In (lower pre) month_names /\ cs' = cs.
Proof.
  intros H. apply alts_consumes in H. destruct H as [r [Hin H]].
  apply in_map_iff in Hin. destruct Hin as [w [<- Hw]].
  apply word_ci_consumes in H. destruct H as [pre [E1 [E2 E3]]].
  exists pre. repeat split; try assumption.
  rewrite E2, (month_names_lower w Hw). exact Hw.
Qed.

Lemma year_20xx_consumes s cs s' cs' :
  consumes year_20xx s cs s' cs' ->
  exists d1 d2, s = "2"%char :: "0"%char :: d1 :: d2 :: s' /\
                is_digit d1 = true /\ is_digit d2 = true /\ cs' = cs.
Proof.
  unfold year_20xx. cbn [seqs consumes].
  intros [s1 [cs1 [H1 [s2 [cs2 [[d1 [E1 [D1 C1]]] [d2 [E2 [D2 C2]]]]]]]]].
  apply word_consumes in H1. destruct H1 as [-> ->]. subst.
  exists d1, d2. repeat split; assumption.
Qed.

(** The groups of a month followed, after a gap, by a year. *)
Lemma month_year_consumes (gap : regex) s cs s' cs' :
  no_groups gap = true ->
  consumes (Seq (Group 1 month_alt) (Seq gap (Group 2 year_20xx)))
           s cs s' cs' ->
  exists pre d1 d2,
    cs' = (2, ["2"%char; "0"%char; d1; d2]) :: (1, pre) :: cs /\
    In (lower pre) month_names /\
    is_digit d1 = true /\ is_digit d2 = true.
Proof.
  intros Hg. cbn [consumes].
  intros [s1 [cs1 [[cs0 [Hm E1]] [s2 [cs2 [Hgap [cs3 [Hy E2]]]]]]]].
  apply month_alt_consumes in Hm. destruct Hm as [pre [Es [Hin ->]]].
  apply (no_groups_consumes gap Hg) in Hgap. subst cs2.
  apply year_20xx_consumes in Hy. destruct Hy as [d1 [d2 [Ey [D1 [D2 ->]]]]].
  exists pre, d1, d2. subst. repeat split; try assumption.
  rewrite firstn_consumed.
  change ("2"%char :: "0"%char :: d1 :: d2 :: s')
    with (["2"%char; "0"%char; d1; d2] ++ s').
  now rewrite firstn_consumed.
Qed.

Lemma digit_value (d : ascii) :
  is_digit d = true ->
  (0 <= Z.of_nat (nat_of_ascii d - 48) <= 9)%Z.
Proof.
  unfold is_digit, in_range. cbv zeta.
  intros H. apply andb_true_iff in H. destruct H as [H1 H2].
  apply Nat.leb_le in H1, H2. lia.
Qed.

Lemma int_20xx (d1 d2 : ascii) :
  is_digit d1 = true -> is_digit d2 = true ->
  exists y, int ["2"%char; "0"%char; d1; d2] = Ok y /\
            y = int_of_digits ["2"%char; "0"%char; d1; d2] /\
            (y = 2000 + 10 * Z.of_nat (nat_of_ascii d1 - 48)
                 + Z.of_nat (nat_of_ascii d2 - 48))%Z.
Proof.
  intros D1 D2. unfold int. cbn [forallb].
  change (is_digit "2"%char) with true. change (is_digit "0"%char) with true.
  rewrite D1, D2. cbn [andb].
  eexists. split; [reflexivity |]. split; [reflexivity |].
  unfold int_of_digits. cbn [fold_left].
  change (nat_of_ascii "2"%char - 48)%nat with 2%nat.
  change (nat_of_ascii "0"%char - 48)%nat with 0%nat. lia.
Qed.

Lemma index_In (x : str) (l : list str) :
  In x l -> exists i, index x l = Ok i /\ (0 <= i < Z.of_nat (length l))%Z.
Proof.
  induction l as [| y t IH]; intros H; [destruct H |].
  cbn [index]. destruct (str_eqb x y) eqn:E.
  - exists 0%Z. split; [reflexivity | cbn [length]; lia].
  - destruct H as [-> | H].
    + unfold str_eqb in E. destruct (str_dec x x); congruence.
    + destruct (IH H) as [i [Ei Hi]]. rewrite Ei. cbn [res_bind].
      exists (i + 1)%Z. split; [reflexivity | cbn [length]; lia].
Qed.

(** A match whose groups are a month name and a year [20dd] has an
    event date. *)
Lemma event_date_of_groups (m : match_obj) (pre : str) (d1 d2 : ascii) :
  groups m = [(2, ["2"%char; "0"%char; d1; d2]); (1, pre)] ->
  In (lower pre) month_names ->
  is_digit d1 = true -> is_digit d2 = true ->
  exists d, event_date m = Ok d.
Proof.
  intros Hg Hin D1 D2. unfold event_date, group. rewrite Hg. cbn [lookup Nat.eqb].
  destruct (int_20xx d1 d2 D1 D2) as [y [Ey [_ Hy]]]. rewrite Ey.
  cbn [res_bind].
  destruct (index_In _ _ Hin) as [i [Ei Hi]]. rewrite Ei. cbn [res_bind].
  pose proof (digit_value d1 D1). pose proof (digit_value d2 D2).
  change (Z.of_nat (length month_names)) with 12%Z in Hi.
  unfold first_of_month.
  assert (E1 : ((1 <=? y) && (y <=? 9999))%Z = true).
  { apply andb_true_iff. split; apply Z.leb_le; lia. }
  assert (E2 : ((1 <=? i + 1) && (i + 1 <=? 12))%Z = true).
  { apply andb_true_iff. split; apply Z.leb_le; lia. }
  rewrite E1, E2. now eexists.
Qed.

Lemma upcoming_event_date (s : str) (m : match_obj) :
  match_here upcoming_pattern s = Some m -> exists d, event_date m = Ok d.
Proof.
  intros H. apply match_here_consumes in H.
  destruct H as [s' [cs' [H ->]]].
  unfold upcoming_pattern in H. cbn [seqs] in H.
  cbn [consumes] in H. destruct H as [s1 [cs1 [H1 [s2 [cs2 [H2 H3]]]]]].
  apply word_ci_consumes in H1. destruct H1 as [_ [_ [_ ->]]].
  destruct H2 as [-> _].
  apply (month_year_consumes (upto 10 any_char)) in H3; [| reflexivity].
  destruct H3 as [pre [d1 [d2 [-> [Hin [D1 D2]]]]]].
  now apply (event_date_of_groups _ pre d1 d2).
Qed.

Lemma scheduled_event_date (s : str) (m : match_obj) :
  match_here scheduled_pattern s = Some m -> exists d, event_date m = Ok d.
Proof.
  intros H. apply match_here_consumes in H.
  destruct H as [s' [cs' [H ->]]].
  unfold scheduled_pattern in H. cbn [seqs] in H.
  cbn [consumes] in H.
  destruct H as [s1 [cs1 [H1 [s2 [cs2 [H2 [s3 [cs3 [H3 [s4 [cs4 [H4 H5]]]]]]]]]]]].
  apply word_ci_consumes in H1. destruct H1 as [_ [_ [_ ->]]].
  destruct H2 as [-> _].
  apply word_ci_consumes in H3. destruct H3 as [_ [_ [_ ->]]].
  destruct H4 as [-> _].
  apply (month_year_consumes (lazy_star any_char)) in H5; [| reflexivity].
  destruct H5 as [pre [d1 [d2 [-> [Hin [D1 D2]]]]]].
  now apply (event_date_of_groups _ pre d1 d2).
Qed.

(** The loop returns the message of the first past event. *)
Lemma first_past_event_find (current_date : datetime)
      (message : match_obj -> str) (ms : list match_obj) :
  (forall m, In m ms -> exists d, event_date m = Ok d) ->
  first_past_event current_date message ms =
  Ok (option_map message (find (past current_date) ms)).
Proof.
  induction ms as [| m ms' IH]; intros H; [reflexivity |].
  cbn [first_past_event find]. unfold past at 1.
  destruct (H m (or_introl eq_refl)) as [d Ed]. rewrite Ed. cbn [res_bind].
  destruct (dt_ltb d current_date); [reflexivity |].
  apply IH. intros m' Hm'. apply H. now right.
Qed.

Lemma contains_app_r (p s t : str) :
  contains p t = true -> contains p (s ++ t) = true.
Proof.
  intros H. induction s as [| c s' IH]; [exact H |].
  cbn [app contains]. rewrite IH. apply orb_true_r.
Qed.
End PatternFacts.

(** C5 as it is stated fails for a text that only contains
    "scheduled for January 2023": the upcoming scan runs first, and at
    2024-03-15 it rejects the text below with its own message, which does
    not say that the event should have already occurred. *)
Lemma upcoming_scan_reports_first :
  contains $"scheduled for January 2023"
           $"upcoming December 2023 scheduled for January 2023" = true /\
  ContentClassifier.validate_temporal_consistency
    Offline.march_15
    $"upcoming December 2023 scheduled for January 2023" =
    Ok (false,
        $"Temporal inconsistency: 'upcoming December 2023 scheduled for January 2023' refers to a past event as upcoming") /\
  contains $"should have already occurred"
           $"Temporal inconsistency: 'upcoming December 2023 scheduled for January 2023' refers to a past event as upcoming" = false.
Proof. repeat split; vm_compute; reflexivity. Qed.

(** C5, amended. With reference date 2024-03-15, the text
    "scheduled for January 2023" is rejected with a message that says the
    event should have already occurred, and
    "upcoming conference in December 2024" is accepted.  For every
    reference date and every ASCII text the validator returns (it does not
    raise): the message of the first upcoming match whose first-of-month
    date is before the reference date, else that of the first such
    scheduled match, each naming its kind of inconsistency, and
    acceptance when no match lies in the past.  Nothing is said of text
    that is not ASCII. *)
Theorem temporal_consistency_first_violation
        (current_date : datetime) (text : str) (m : match_obj)
        (Hascii : isascii text = true) :
  ContentClassifier.validate_temporal_consistency
    Offline.march_15 $"scheduled for January 2023" =
    Ok (false,
        $"Temporal inconsistency: 'scheduled for January 2023' refers to a scheduled event that should have already occurred") /\
  ContentClassifier.validate_temporal_consistency
    Offline.march_15 $"upcoming conference in December 2024" =
    Ok (true, $"No temporal inconsistencies detected") /\
  ContentClassifier.validate_temporal_consistency current_date text =
    Ok (match find (ClassifierSpec.past current_date)
                   (finditer ContentClassifier.upcoming_pattern text) with
        | Some m1 => (false, ContentClassifier.upcoming_message m1)
        | None =>
            match find (ClassifierSpec.past current_date)
                       (finditer ContentClassifier.scheduled_pattern text) with
            | Some m2 => (false, ContentClassifier.scheduled_message m2)
            | None => (true, $"No temporal inconsistencies detected")
            end
        end) /\
  contains $"past event as upcoming"
           (ContentClassifier.upcoming_message m) = true /\
  contains $"should have already occurred"
           (ContentClassifier.scheduled_message m) = true.
Proof.
  split; [vm_compute; reflexivity |].
  split; [vm_compute; reflexivity |].
  split.
  - unfold ContentClassifier.validate_temporal_consistency.
    rewrite !first_past_event_find.
    + destruct (find _ (finditer ContentClassifier.upcoming_pattern text));
        cbn [res_bind option_map]; [reflexivity |].
      destruct (find _ (finditer ContentClassifier.scheduled_pattern text));
        reflexivity.
    + intros m0 H. apply finditer_match in H. destruct H as [s0 H].
      now apply scheduled_event_date in H.
    + intros m0 H. apply finditer_match in H. destruct H as [s0 H].
      now apply upcoming_event_date in H.
  - split.
    + unfold ContentClassifier.upcoming_message.
      do 2 apply contains_app_r. reflexivity.
    + unfold ContentClassifier.scheduled_message.
      do 2 apply contains_app_r. reflexivity.
Qed.

Lemma temporal_consistency_first_violation_witness :
  ContentClassifier.validate_temporal_consistency
    (MkDatetime 2021 1 10 8 0 0 0)
    $"The upcoming summit in May 2021 was scheduled for June 2020" =
  Ok (match find (ClassifierSpec.past (MkDatetime 2021 1 10 8 0 0 0))
                 (finditer ContentClassifier.upcoming_pattern
                    $"The upcoming summit in May 2021 was scheduled for June 2020") with
      | Some m1 => (false, ContentClassifier.upcoming_message m1)
      | None =>
          match find (ClassifierSpec.past (MkDatetime 2021 1 10 8 0 0 0))
                     (finditer ContentClassifier.scheduled_pattern
                        $"The upcoming summit in May 2021 was scheduled for June 2020") with
          | Some m2 => (false, ContentClassifier.scheduled_message m2)
          | None => (true, $"No temporal inconsistencies detected")
          end
      end).
Proof.
  exact (proj1 (proj2 (proj2
           (temporal_consistency_first_violation
              (MkDatetime 2021 1 10 8 0 0 0)
              $"The upcoming summit in May 2021 was scheduled for June 2020"
              (MkMatch [] [] [])
              eq_refl)))).
Defined.

Section ProjectionFacts.
Import Re ContentClassifier ClassifierSpec.

(** The groups of a matched projection: a year [20dd] from 2030 on
    comes second. *)
Lemma projection_consumes s s' cs' :
  consumes long_term_projection_pattern s [] s' cs' ->
  exists w d1 d2 v,
    cs' = [(3, v); (2, ["2"%char; "0"%char; d1; d2]); (1, w)] /\
    in_range 51 57 d1 = true /\ is_digit d2 = true.
Proof.
  unfold long_term_projection_pattern. cbn [seqs]. cbn [consumes].
  intros [s1 [cs1 [[c1 [HA E1]] [s2 [cs2 [HU [s3 [cs3 [[c3 [HY E3]]
         [s4 [cs4 [HU2 [s5 [cs5 [HO [c6 [HV E6]]]]]]]]]]]]]]]]].
  apply no_groups_consumes in HA; [| reflexivity].
  apply no_groups_consumes in HU; [| reflexivity].
  apply no_groups_consumes in HU2; [| reflexivity].
  apply no_groups_consumes in HO; [| reflexivity].
  apply no_groups_consumes in HV; [| reflexivity].
  unfold year_from_2030 in HY. cbn [seqs consumes] in HY.
  destruct HY as [t1 [ct1 [HW [t2 [ct2 [[d1 [Ed1 [D1 Ec1]]]
                                       [d2 [Ed2 [D2 Ec2]]]]]]]]].
  apply word_consumes in HW. destruct HW as [Ew Ecw].
  subst. exists (firstn (length s - length s1) s), d1, d2,
           (firstn (length s5 - length s') s5).
  repeat split; try assumption.
  change (($"20" ++ d1 :: d2 :: s3))
    with (["2"%char; "0"%char; d1; d2] ++ s3).
  now rewrite firstn_consumed.
Qed.

Lemma from_3_is_digit (d : ascii) : in_range 51 57 d = true -> is_digit d = true.
Proof.
  unfold is_digit, in_range. cbv zeta. intros H.
  apply andb_true_iff in H. destruct H as [H1 H2].
  apply Nat.leb_le in H1, H2.
  apply andb_true_iff. split; apply Nat.leb_le; lia.
Qed.

Lemma projection_year (text : str) (m : match_obj) :
  In m (finditer long_term_projection_pattern text) ->
  int (group m 2) = Ok (year_of m) /\ (2030 <= year_of m <= 2099)%Z.
Proof.
  intros H. apply finditer_match in H. destruct H as [s0 H].
  apply match_here_consumes in H. destruct H as [s' [cs' [H ->]]].
  apply projection_consumes in H.
  destruct H as [w [d1 [d2 [v [-> [D1 D2]]]]]].
  unfold year_of, group. cbn [groups lookup Nat.eqb].
  destruct (int_20xx d1 d2 (from_3_is_digit d1 D1) D2) as [y [Ey [Ei Hy]]].
  rewrite Ey, <- Ei. split; [reflexivity |].
  pose proof (digit_value d2 D2).
  unfold in_range in D1. cbv zeta in D1.
  apply andb_true_iff in D1. destruct D1 as [H1 H2].
  apply Nat.leb_le in H1, H2. lia.
Qed.

Lemma contains_char (c : ascii) (s : str) :
  contains [c] s = existsb (Ascii.eqb c) s.
Proof.
  induction s as [| x t IH]; [reflexivity |].
  cbn [contains starts_with existsb]. rewrite IH.
  destruct t; now rewrite andb_true_r.
Qed.

(** Removing the commas keeps the decimal point. *)
Lemma remove_commas_point (s : str) :
  contains $"." (remove_commas s) = contains $"." s.
Proof.
  change ($".") with ["."%char]. rewrite !contains_char.
  unfold remove_commas. induction s as [| x t IH]; [reflexivity |].
  cbn [filter existsb].
  destruct (Ascii.eqb x ","%char) eqn:E; cbn [negb existsb].
  - apply ascii_eqb_true in E. subst x. rewrite IH. reflexivity.
  - now rewrite IH.
Qed.

(** The loop returns the message of the first flagged projection. *)
Lemma first_too_precise_find (current_date : datetime) (ms : list match_obj) :
  (forall m, In m ms -> int (group m 2) = Ok (year_of m)) ->
  first_too_precise current_date ms =
  Ok (option_map
        (fun m => precision_message m (year_of m - dt_year current_date))
        (find (flagged current_date) ms)).
Proof.
  induction ms as [| m ms' IH]; intros H; [reflexivity |].
  cbn [first_too_precise find]. unfold too_precise, flagged at 1.
  rewrite (H m (or_introl eq_refl)). cbn [res_bind fst snd].
  rewrite remove_commas_point.
  destruct ((10 <? year_of m - dt_year current_date)%Z
            && contains $"." (group m 3)); [reflexivity |].
  apply IH. intros m' Hm'. apply H. now right.
Qed.
End ProjectionFacts.

(** C6. For every reference date and every text the validator returns
    (it does not raise); it rejects the text exactly when some matched
    projection, whose year is always in 2030-2099, lies more than 10 years
    after the reference year and has a decimal point in its numeric
    literal, with the message of the first such match.  With reference
    year 2024, "By 2035, the market will reach exactly $42.75 billion" is
    rejected and "By 2026, $2 billion" is accepted. *)
Theorem numerical_reasonableness_first_flagged
        (current_date : datetime) (text : str) :
  let ms := finditer ContentClassifier.long_term_projection_pattern text in
  ContentClassifier.validate_numerical_reasonableness current_date text =
    Ok (match find (ClassifierSpec.flagged current_date) ms with
        | Some m =>
            (false,
             ContentClassifier.precision_message
               m (ClassifierSpec.year_of m - dt_year current_date))
        | None => (true, $"No unreasonable numerical projections detected")
        end) /\
  fst (match ContentClassifier.validate_numerical_reasonableness
               current_date text with
       | Ok r => r
       | Raise _ => (true, [])
       end) = negb (existsb (ClassifierSpec.flagged current_date) ms) /\
  forallb (fun m => (2030 <=? ClassifierSpec.year_of m)%Z
                    && (ClassifierSpec.year_of m <=? 2099)%Z) ms = true /\
  ContentClassifier.validate_numerical_reasonableness
    Offline.march_15
    $"By 2035, the market will reach exactly $42.75 billion" =
    Ok (false,
        $"Unreasonable precision: 'By 2035, the market will reach exactly $42.75' has decimal precision for a 11-year forecast") /\
  ContentClassifier.validate_numerical_reasonableness
    Offline.march_15 $"By 2026, $2 billion" =
    Ok (true, $"No unreasonable numerical projections detected").
Proof.
  cbv zeta.
  assert (E : ContentClassifier.validate_numerical_reasonableness
                current_date text =
              Ok (match find (ClassifierSpec.flagged current_date)
                             (finditer
                                ContentClassifier.long_term_projection_pattern
                                text) with
                  | Some m =>
                      (false,
                       ContentClassifier.precision_message
                         m (ClassifierSpec.year_of m - dt_year current_date))
                  | None =>
                      (true,
                       $"No unreasonable numerical projections detected")
                  end)).
  { unfold ContentClassifier.validate_numerical_reasonableness.
    rewrite first_too_precise_find.
    - destruct (find _ _); reflexivity.
    - intros m H. now apply projection_year in H. }
  split; [exact E |]. split.
  - rewrite E. clear E.
    induction (finditer ContentClassifier.long_term_projection_pattern text)
      as [| m ms IH]; [reflexivity |].
    cbn [find existsb].
    destruct (ClassifierSpec.flagged current_date m); [reflexivity | exact IH].
  - split.
    + apply forallb_forall. intros m H. apply projection_year in H.
      apply andb_true_iff. split; apply Z.leb_le; lia.
    + split; vm_compute; reflexivity.
Qed.

(** ** Contradiction detection *)

Section ContradictionFacts.
Variable World : Type.
Variable P : Engine.Providers World.
Import Memory Engine.

Lemma memory_add_contradiction_run (topic c1 c2 : str) (st : State World) :
  memory_add_contradiction World P topic c1 c2 st =
  (Done tt, recorded P topic c1 c2 st).
Proof.
  unfold memory_add_contradiction, recorded, bind, now, modify.
  destruct (clock World P (world st)) as [t1 w1]. cbn [world set_world].
  destruct (clock World P w1) as [t2 w2]. reflexivity.
Qed.

Lemma recorded_learnings (topic c1 c2 : str) (st : State World) :
  learnings (memory (recorded P topic c1 c2 st)) = learnings (memory st).
Proof.
  unfold recorded.
  destruct (clock World P (world st)) as [t1 w1].
  destruct (clock World P w1) as [t2 w2]. reflexivity.
Qed.

Lemma recorded_contradictions (topic c1 c2 : str) (st : State World) :
  exists ts,
    contradictions (memory (recorded P topic c1 c2 st)) =
    contradictions (memory st) ++ [MkContradiction topic c1 c2 [] [] ts].
Proof.
  unfold recorded.
  destruct (clock World P (world st)) as [t1 w1].
  destruct (clock World P w1) as [t2 w2].
  exists (isoformat t1). reflexivity.
Qed.

(** A keyword family run against a memory holding one learning. *)
Lemma detect_family_single (keywords : list str)
      (conflict : str -> str -> bool) (topic new_learning existing : str)
      (st : State World) :
  learnings (memory st) = [existing] ->
  detect_family World P keywords conflict topic new_learning st =
  (Done tt,
   if fires keywords conflict new_learning existing
   then recorded P topic existing new_learning st
   else st).
Proof.
  intros Hl. unfold detect_family, fires.
  destruct (any_in keywords (lower new_learning)); [| reflexivity].
  unfold bind at 1. unfold get at 1. rewrite Hl. cbn [for_each].
  destruct (any_in keywords (lower existing)); [| reflexivity].
  destruct (conflict new_learning existing); [| reflexivity].
  unfold bind. rewrite memory_add_contradiction_run. reflexivity.
Qed.

Lemma starts_with_lower (p s : str) :
  starts_with p s = true -> starts_with (lower p) (lower s) = true.
Proof.
  revert s. induction p as [| a p' IH]; intros s H; [reflexivity |].
  destruct s as [| b s']; [discriminate |].
  cbn [starts_with lower map] in *.
  apply andb_true_iff in H. destruct H as [H1 H2].
  apply Ascii.eqb_eq in H1. subst b.
  rewrite Ascii.eqb_refl. now apply IH.
Qed.

Lemma contains_lower (p s : str) :
  contains p s = true -> contains (lower p) (lower s) = true.
Proof.
  induction s as [| c t IH]; intros H.
  - cbn [contains] in H. rewrite orb_false_r in H.
    apply starts_with_lower in H. cbn [contains lower map] in *.
    now rewrite H.
  - cbn [contains] in H. apply orb_true_iff in H.
    cbn [lower map contains]. apply orb_true_iff. destruct H as [H | H].
    + left. now apply (starts_with_lower p (c :: t)).
    + right. now apply IH.
Qed.

Lemma any_in_of (keywords : list str) (k text : str) :
  In k keywords -> contains k text = true -> any_in keywords text = true.
Proof.
  intros Hin H. unfold any_in. apply existsb_exists. now exists k.
Qed.

Lemma performance_keywords_lower (k : str) :
  In k performance_keywords -> lower k = k.
Proof.
  intros H. cbn in H.
  repeat (destruct H as [<- | H]; [reflexivity |]). destruct H.
Qed.

(** C8, amended. Against a memory holding one learning that contains
    "positive" and "growth", a new learning that contains "negative" and
    "decline" and shares a performance keyword with it makes
    [detect_contradictions] record exactly one contradiction of topic
    "Performance", between the stored and the new learning; the other two
    families each record one more, of topic "Event Dates" or "Layoff
    Timeline", when they fire, and nothing else is recorded. *)
Theorem performance_contradiction_recorded
        (st : State World) (existing new_learning k : str) :
  learnings (memory st) = [existing] ->
  contains $"positive" existing = true ->
  contains $"growth" existing = true ->
  contains $"negative" new_learning = true ->
  contains $"decline" new_learning = true ->
  In k performance_keywords ->
  contains k new_learning = true ->
  contains k existing = true ->
  let r := detect_contradictions World P new_learning st in
  exists ts rest,
    fst r = Done tt /\
    contradictions (memory (snd r)) =
      contradictions (memory st) ++
      MkContradiction $"Performance" existing new_learning [] [] ts :: rest /\
    map topic rest =
      (if fires event_keywords dates_conflict new_learning existing
       then [$"Event Dates"] else []) ++
      (if fires layoff_keywords layoff_conflict new_learning existing
       then [$"Layoff Timeline"] else []).
Proof.
  intros Hl Hpos Hgro Hneg Hdec Hk Hkn Hke. cbv zeta.
  apply contains_lower in Hpos, Hgro, Hneg, Hdec, Hkn, Hke.
  rewrite (performance_keywords_lower k Hk) in Hkn, Hke.
  change (lower $"positive") with ($"positive") in Hpos.
  change (lower $"growth") with ($"growth") in Hgro.
  change (lower $"negative") with ($"negative") in Hneg.
  change (lower $"decline") with ($"decline") in Hdec.
  assert (F1 : fires performance_keywords performance_conflict
                     new_learning existing = true).
  { unfold fires, performance_conflict.
    rewrite (any_in_of performance_keywords k _ Hk Hkn).
    rewrite (any_in_of performance_keywords k _ Hk Hke).
    rewrite (any_in_of negative_terms $"negative" (lower new_learning));
      [| cbn; tauto | exact Hneg].
    rewrite (any_in_of positive_terms $"positive" (lower existing));
      [| cbn; tauto | exact Hpos].
    cbn [andb]. apply orb_true_r. }
  set (st1 := recorded P $"Performance" existing new_learning st).
  assert (Hl1 : learnings (memory st1) = [existing]).
  { unfold st1. now rewrite recorded_learnings. }
  remember (fires event_keywords dates_conflict new_learning existing)
    as f2 eqn:Ef2.
  set (st2 := if f2
              then recorded P $"Event Dates" existing new_learning st1
              else st1).
  assert (Hl2 : learnings (memory st2) = [existing]).
  { unfold st2. destruct f2; [now rewrite recorded_learnings | exact Hl1]. }
  remember (fires layoff_keywords layoff_conflict new_learning existing)
    as f3 eqn:Ef3.
  assert (Er : detect_contradictions World P new_learning st =
               (Done tt,
                if f3
                then recorded P $"Layoff Timeline" existing new_learning st2
                else st2)).
  { unfold detect_contradictions, bind, get. rewrite Hl.
    rewrite (detect_family_single _ _ _ _ existing st Hl), F1. fold st1.
    rewrite (detect_family_single _ _ _ _ existing st1 Hl1), <- Ef2. fold st2.
    rewrite (detect_family_single _ _ _ _ existing st2 Hl2), <- Ef3.
    reflexivity. }
  rewrite Er. cbn [fst snd].
  destruct (recorded_contradictions $"Performance" existing new_learning st)
    as [ts E1]. fold st1 in E1.
  destruct (recorded_contradictions $"Event Dates" existing new_learning st1)
    as [ts2 E2].
  destruct (recorded_contradictions
              $"Layoff Timeline" existing new_learning st2) as [ts3 E3].
  assert (E2' : exists rest2,
             contradictions (memory st2) =
             contradictions (memory st) ++
             MkContradiction $"Performance" existing new_learning [] [] ts
               :: rest2 /\
             map topic rest2 = if f2 then [$"Event Dates"] else []).
  { unfold st2. destruct f2.
    - exists [MkContradiction $"Event Dates" existing new_learning [] [] ts2].
      rewrite E2, E1, <- app_assoc. now split.
    - exists []. rewrite E1. now split. }
  destruct E2' as [rest2 [E2' T2]].
  exists ts. destruct f3.
  - exists (rest2 ++
            [MkContradiction $"Layoff Timeline" existing new_learning [] []
                             ts3]).
    rewrite E3, E2', <- app_assoc, map_app, T2. now repeat split.
  - exists rest2. rewrite E2', T2, app_nil_r. now repeat split.
Qed.
End ContradictionFacts.

(** A stored and a new learning that, besides their opposite words on
    growth, announce different dates: two contradictions are recorded,
    not one. *)
Lemma event_family_records_a_second :
  let existing := $"positive growth announced in January 2023" in
  let new_learning := $"negative decline in growth announced in March 2024" in
  let r := Engine.detect_contradictions
             unit Offline.providers new_learning
             (Offline.engine_with [existing]) in
  contains $"positive" existing = true /\
  contains $"growth" existing = true /\
  contains $"negative" new_learning = true /\
  contains $"decline" new_learning = true /\
  contains $"growth" new_learning = true /\
  map Memory.topic (Memory.contradictions (Engine.memory (snd r))) =
    [$"Performance"; $"Event Dates"] /\
  length (Memory.contradictions (Engine.memory (snd r))) <> 1%nat.
Proof.
  cbv zeta. repeat split; try (vm_compute; reflexivity).
  vm_compute. discriminate.
Qed.

(** The theorem at two learnings on performance only: one contradiction,
    of topic "Performance". *)
Lemma performance_contradiction_recorded_witness :
  let existing :=
    $"IBM's quantum computer shows positive performance growth with error rates decreasing by 50%." in
  let new_learning :=
    $"IBM's quantum computer shows negative performance and a decline in fidelity." in
  let r := Engine.detect_contradictions
             unit Offline.providers new_learning
             (Offline.engine_with [existing]) in
  exists ts rest,
    fst r = Engine.Done tt /\
    Memory.contradictions (Engine.memory (snd r)) =
      [] ++ Memory.MkContradiction $"Performance" existing new_learning
                                   [] [] ts :: rest /\
    map Memory.topic rest = [] ++ [].
Proof.
  cbv zeta.
  apply (performance_contradiction_recorded
           unit Offline.providers
           (Offline.engine_with
              [$"IBM's quantum computer shows positive performance growth with error rates decreasing by 50%."])
           $"IBM's quantum computer shows positive performance growth with error rates decreasing by 50%."
           $"IBM's quantum computer shows negative performance and a decline in fidelity."
           $"performance");
    try (vm_compute; reflexivity).
  left. reflexivity.
Defined.

(** ** Floats: consequences of the rounding laws *)

Lemma exact_laws : RoundingLaws exact.
Proof.
  split.
  - intros x y H. exact H.
  - intros x _. apply Qeq_refl.
Qed.

Section RoundingFacts.
Context {R : Rounding} {L : RoundingLaws R}.

Ltac representable_by m e :=
  exists m, e; split; [vm_compute; reflexivity
                      | split; [lia | vm_compute; reflexivity]].

Lemma representable_0 : representable 0.
Proof. representable_by 0%Z 0%Z. Qed.

Lemma representable_1 : representable 1.
Proof. representable_by 1%Z 0%Z. Qed.

Lemma representable_f0_3 : representable f0_3.
Proof. representable_by 5404319552844595%Z (-54)%Z. Qed.

Lemma representable_f0_4 : representable f0_4.
Proof. representable_by 3602879701896397%Z (-53)%Z. Qed.

Lemma representable_f0_6 : representable f0_6.
Proof. representable_by 5404319552844595%Z (-53)%Z. Qed.

Lemma rnd_le (x c : Q) : (x <= c)%Q -> representable c -> (rnd x <= c)%Q.
Proof.
  intros H Hc. eapply Qle_trans; [apply rnd_mono; exact H |].
  apply Qle_lteq. right. now apply rnd_fix.
Qed.

Lemma rnd_ge (x c : Q) : (c <= x)%Q -> representable c -> (c <= rnd x)%Q.
Proof.
  intros H Hc. eapply Qle_trans; [| apply rnd_mono; exact H].
  apply Qle_lteq. right. symmetry. now apply rnd_fix.
Qed.

Lemma rnd_nonneg (x : Q) : (0 <= x)%Q -> (0 <= rnd x)%Q.
Proof. intros H. apply rnd_ge; [exact H | apply representable_0]. Qed.

Lemma inject_Z_nonneg (n : Z) : (0 <= n)%Z -> (0 <= inject_Z n)%Q.
Proof. intros H. unfold Qle. cbn. lia. Qed.

Lemma Qdiv_nonneg (x y : Q) : (0 <= x)%Q -> (0 <= y)%Q -> (0 <= x / y)%Q.
Proof.
  intros Hx Hy. unfold Qdiv.
  apply Qmult_le_0_compat; [exact Hx | now apply Qinv_le_0_compat].
Qed.

Lemma of_int_nonneg (n : Z) : (0 <= n)%Z -> (0 <= of_int n)%Q.
Proof. intros H. apply rnd_nonneg, inject_Z_nonneg, H. Qed.

Lemma of_int_positive (n : Z) :
  (0 < n)%Z -> (Z.abs n < 2 ^ 53)%Z -> Qeq_bool (of_int n) 0 = false.
Proof.
  intros Hn Hb. destruct (Qeq_bool (of_int n) 0) eqn:E; [| reflexivity].
  apply Qeq_bool_iff in E. unfold of_int in E.
  rewrite rnd_fix in E.
  - unfold Qeq in E. cbn in E. lia.
  - exists n, 0%Z. split; [exact Hb |]. split; [lia |].
    unfold Qeq. cbn. lia.
Qed.

Lemma int_truediv_nonneg (a b : Z) :
  (0 <= a)%Z -> (0 < b)%Z ->
  exists q, int_truediv a b = Ok q /\ (0 <= q)%Q.
Proof.
  intros Ha Hb. unfold int_truediv.
  destruct (Z.eqb_spec b 0) as [E | _]; [lia |].
  eexists. split; [reflexivity |].
  apply rnd_nonneg, Qdiv_nonneg; apply inject_Z_nonneg; lia.
Qed.

Lemma fmin_unit (x : Q) : (0 <= x)%Q -> (0 <= fmin 1 x <= 1)%Q.
Proof.
  intros H. unfold fmin. destruct (Float.ltb x 1) eqn:E.
  - apply ltb_spec in E. split; [exact H | now apply Qlt_le_weak].
  - split; [unfold Qle; cbn; lia | apply Qle_refl].
Qed.

Lemma fmax_unit (x : Q) : (x <= 1)%Q -> (0 <= fmax 0 x <= 1)%Q.
Proof.
  intros H. unfold fmax, Float.gtb. destruct (Float.ltb 0 x) eqn:E.
  - apply ltb_spec in E. split; [now apply Qlt_le_weak | exact H].
  - split; [apply Qle_refl | unfold Qle; cbn; lia].
Qed.

Lemma fold_lengths_nonneg (l : list str) (acc : Z) :
  (0 <= acc)%Z ->
  (0 <= fold_left Z.add (map (fun x : str => Z.of_nat (length x)) l) acc)%Z.
Proof.
  revert acc. induction l as [| x t IH]; intros acc H; cbn [map fold_left].
  - exact H.
  - apply IH. lia.
Qed.

Lemma length_score_unit (learnings : list str) :
  learnings <> [] ->
  exists v, AutoTuner.length_score learnings = Ok v /\ (0 <= v <= 1)%Q.
Proof.
  intros Hne. unfold AutoTuner.length_score. cbv zeta.
  match goal with
  | |- context [int_truediv ?a ?b] =>
      destruct (int_truediv_nonneg a b) as [avg [Ea Ha]]
  end.
  - now apply fold_lengths_nonneg.
  - destruct learnings; [congruence | cbn [length]; lia].
  - rewrite Ea. cbn [res_bind]. unfold fdiv.
    rewrite of_int_positive; [| lia | vm_compute; reflexivity].
    cbn [res_bind]. eexists. split; [reflexivity |].
    apply fmin_unit, rnd_nonneg, Qdiv_nonneg; [exact Ha |].
    apply of_int_nonneg. lia.
Qed.

Lemma contradiction_score_unit (learnings : list str)
      (contradictions : list Memory.Contradiction) :
  exists v, AutoTuner.contradiction_score learnings contradictions = Ok v /\
            (0 <= v <= 1)%Q.
Proof.
  unfold AutoTuner.contradiction_score. cbv zeta.
  match goal with
  | |- context [int_truediv ?a ?b] =>
      destruct (int_truediv_nonneg a b) as [r [Er Hr]]; [lia | lia |]
  end.
  rewrite Er. cbn [res_bind]. eexists. split; [reflexivity |].
  apply fmax_unit. unfold fsub. apply rnd_le; [| apply representable_1].
  assert (H : (0 <= fmul r (of_int 2))%Q).
  { unfold fmul. apply rnd_nonneg, Qmult_le_0_compat; [exact Hr |].
    apply of_int_nonneg. lia. }
  assert (H1 : (of_int 1 <= 1)%Q).
  { apply rnd_le; [apply Qle_refl | apply representable_1]. }
  lra.
Qed.

Lemma diversity_score_unit (learnings : list str) :
  exists v, AutoTuner.diversity_score learnings = Ok v /\ (0 <= v <= 1)%Q.
Proof.
  unfold AutoTuner.diversity_score. cbv zeta.
  match goal with
  | |- context [int_truediv ?a ?b] =>
      destruct (int_truediv_nonneg a b) as [r [Er Hr]]; [lia | lia |]
  end.
  rewrite Er. cbn [res_bind]. eexists. split; [reflexivity |].
  apply fmin_unit. unfold fmul. apply rnd_nonneg, Qmult_le_0_compat;
    [exact Hr | apply of_int_nonneg; lia].
Qed.

(** The weighted sum of three scores of the unit interval. *)
Lemma weighted_sum_unit (ls cs ds : Q) :
  (0 <= ls <= 1)%Q -> (0 <= cs <= 1)%Q -> (0 <= ds <= 1)%Q ->
  (0 <= fadd (fadd (fmul ls f0_3) (fmul cs f0_3)) (fmul ds f0_4) <= 1)%Q.
Proof.
  intros [Hl0 Hl1] [Hc0 Hc1] [Hd0 Hd1].
  assert (Ha : (0 <= fmul ls f0_3 <= f0_3)%Q).
  { unfold fmul. split.
    - apply rnd_nonneg. unfold f0_3. lra.
    - apply rnd_le; [unfold f0_3; lra | apply representable_f0_3]. }
  assert (Hb : (0 <= fmul cs f0_3 <= f0_3)%Q).
  { unfold fmul. split.
    - apply rnd_nonneg. unfold f0_3. lra.
    - apply rnd_le; [unfold f0_3; lra | apply representable_f0_3]. }
  assert (Hc : (0 <= fmul ds f0_4 <= f0_4)%Q).
  { unfold fmul. split.
    - apply rnd_nonneg. unfold f0_4. lra.
    - apply rnd_le; [unfold f0_4; lra | apply representable_f0_4]. }
  destruct Ha as [Ha0 Ha1]. destruct Hb as [Hb0 Hb1]. destruct Hc as [Hw0 Hw1].
  assert (E6 : (f0_3 + f0_3 == f0_6)%Q) by reflexivity.
  assert (E1 : (f0_6 + f0_4 == 1)%Q) by reflexivity.
  assert (Hab : (0 <= fadd (fmul ls f0_3) (fmul cs f0_3) <= f0_6)%Q).
  { unfold fadd. split.
    - apply rnd_nonneg.
      apply (Qplus_le_compat 0 (fmul ls f0_3) 0 (fmul cs f0_3)); assumption.
    - apply rnd_le; [| apply representable_f0_6].
      rewrite <- E6. now apply Qplus_le_compat. }
  destruct Hab as [Hab0 Hab1].
  unfold fadd at 1. split.
  - apply rnd_nonneg.
    apply (Qplus_le_compat 0 (fadd (fmul ls f0_3) (fmul cs f0_3))
                           0 (fmul ds f0_4)); assumption.
  - apply rnd_le; [| apply representable_1].
    rewrite <- E1. now apply Qplus_le_compat.
Qed.

(** C10. [estimate_info_quality] returns for every list of learnings and
    every list of contradictions, without raising: 0 for no learnings, and
    otherwise the weighted sum of a length score, a contradiction score
    and a diversity score that each lie in [[0, 1]], a sum that lies in
    [[0, 1]] itself. *)
Theorem estimate_info_quality_in_unit_interval
        (learnings : list str) (contradictions : list Memory.Contradiction) :
  exists q,
    AutoTuner.estimate_info_quality learnings contradictions = Ok q /\
    (0 <= q <= 1)%Q /\
    match learnings with
    | [] => q = 0%Q
    | _ :: _ =>
        exists ls cs ds,
          AutoTuner.length_score learnings = Ok ls /\
          AutoTuner.contradiction_score learnings contradictions = Ok cs /\
          AutoTuner.diversity_score learnings = Ok ds /\
          (0 <= ls <= 1)%Q /\ (0 <= cs <= 1)%Q /\ (0 <= ds <= 1)%Q /\
          q = fadd (fadd (fmul ls f0_3) (fmul cs f0_3)) (fmul ds f0_4)
    end.
Proof.
  destruct learnings as [| l0 rest].
  - exists 0%Q. split; [reflexivity |]. split; [lra | reflexivity].
  - destruct (length_score_unit (l0 :: rest)) as [ls [El Hl]]; [discriminate |].
    destruct (contradiction_score_unit (l0 :: rest) contradictions)
      as [cs [Ec Hc]].
    destruct (diversity_score_unit (l0 :: rest)) as [ds [Ed Hd]].
    unfold AutoTuner.estimate_info_quality. rewrite El, Ec, Ed.
    cbn [res_bind]. eexists. split; [reflexivity |].
    split; [now apply weighted_sum_unit |].
    exists ls, cs, ds. repeat split; tauto.
Qed.
End RoundingFacts.

(** The theorem in exact arithmetic, at two learnings (one of them empty)
    and no contradiction. *)
Lemma estimate_info_quality_witness :
  exists q,
    AutoTuner.estimate_info_quality (R := exact)
      [$"Quantum computers use qubits"; []] [] = Ok q /\
    (0 <= q <= 1)%Q.
Proof.
  destruct (estimate_info_quality_in_unit_interval
              (R := exact) (L := exact_laws)
              [$"Quantum computers use qubits"; []] [])
    as [q [E [H _]]].
  exists q. split; [exact E | exact H].
Defined.

(** ** Counting in a question and in a part of it *)

Section SubstringFacts.
Import EntitySpec.

Lemma starts_with_app (p s t : str) :
  starts_with p s = true -> starts_with p (s ++ t) = true.
Proof.
  revert s. induction p as [| a p' IH]; intros s H; [reflexivity |].
  destruct s as [| b s']; [discriminate |].
  cbn [starts_with app] in *.
  apply andb_true_iff in H. destruct H as [H1 H2].
  rewrite H1. cbn [andb]. now apply IH.
Qed.

Lemma contains_app_l (p s t : str) :
  contains p s = true -> contains p (s ++ t) = true.
Proof.
  induction s as [| c s' IH]; intros H.
  - cbn [contains] in H. rewrite orb_false_r in H.
    destruct p; [| discriminate]. destruct t; reflexivity.
  - cbn [contains app] in *. apply orb_true_iff in H.
    apply orb_true_iff. destruct H as [H | H].
    + left. now apply (starts_with_app p (c :: s') t).
    + right. now apply IH.
Qed.

Lemma contains_within (p pre s post : str) :
  contains p s = true -> contains p (pre ++ s ++ post) = true.
Proof. intros H. now apply contains_app_r, contains_app_l. Qed.

Lemma lower_app (s t : str) : lower (s ++ t) = lower s ++ lower t.
Proof. apply map_app. Qed.

Lemma filter_length_le {A} (f g : A -> bool) (l : list A) :
  (forall x, f x = true -> g x = true) ->
  (length (filter f l) <= length (filter g l))%nat.
Proof.
  intros H. induction l as [| x l' IH]; [apply Nat.le_refl |].
  cbn [filter]. destruct (f x) eqn:E.
  - rewrite (H x E). cbn [length]. lia.
  - destruct (g x); cbn [length]; lia.
Qed.

Lemma count_keywords_within (pre s post : str) :
  (AutoTuner.count_keywords s <=
   AutoTuner.count_keywords (pre ++ s ++ post))%nat.
Proof.
  unfold AutoTuner.count_keywords. apply filter_length_le.
  intros w H. rewrite !lower_app. now apply contains_within.
Qed.

Lemma no_overlap_char (a : ascii) : no_overlap [a].
Proof. intros c x _. reflexivity. Qed.

Lemma no_overlap_and : no_overlap $"and".
Proof.
  intros c x H.
  change ($"and") with ["a"%char; "n"%char; "d"%char] in *.
  cbn [length Nat.sub].
  destruct x as [| c1 x1].
  { cbn [starts_with] in H. rewrite andb_false_r in H. discriminate H. }
  destruct x1 as [| c2 x'].
  { cbn [starts_with] in H. rewrite !andb_false_r in H. discriminate H. }
  cbn [starts_with] in H.
  apply andb_true_iff in H. destruct H as [_ H].
  apply andb_true_iff in H. destruct H as [H1 H].
  apply andb_true_iff in H. destruct H as [H2 _].
  apply Ascii.eqb_eq in H1, H2. subst c1 c2.
  cbn [count_aux].
  change (starts_with ["a"%char; "n"%char; "d"%char]
                      ("n"%char :: "d"%char :: x')) with false.
  cbv iota.
  destruct x' as [| c3 x'']; [reflexivity |].
  change (starts_with ["a"%char; "n"%char; "d"%char] ("d"%char :: c3 :: x''))
    with false.
  reflexivity.
Qed.

Lemma count_cons (p : str) (c : ascii) (s : str) :
  no_overlap p -> (count p s <= count p (c :: s))%nat.
Proof.
  intros H. unfold count. cbn [count_aux].
  destruct (starts_with p (c :: s)) eqn:E.
  - rewrite (H c s E). lia.
  - apply Nat.le_refl.
Qed.

Lemma count_aux_app (p : str) (t : str) :
  no_overlap p ->
  forall s skip, (count_aux p skip s <= count_aux p skip (s ++ t))%nat.
Proof.
  intros H. induction s as [| c s' IH]; intros skip; [cbn; lia |].
  cbn [count_aux app]. destruct skip as [| k]; [| apply IH].
  destruct (starts_with p (c :: s')) eqn:E.
  - pose proof (starts_with_app p (c :: s') t E) as E2.
    cbn [app] in E2. rewrite E2. specialize (IH (length p - 1)%nat). lia.
  - destruct (starts_with p (c :: s' ++ t)) eqn:E'.
    + rewrite (H c (s' ++ t) E'). specialize (IH 0%nat). lia.
    + apply IH.
Qed.

Lemma count_within (p pre s post : str) :
  no_overlap p -> (count p s <= count p (pre ++ s ++ post))%nat.
Proof.
  intros H. apply Nat.le_trans with (count p (s ++ post)).
  - apply count_aux_app, H.
  - induction pre as [| c pre' IH]; [apply Nat.le_refl |].
    eapply Nat.le_trans; [exact IH |]. apply count_cons, H.
Qed.

Lemma count_aspects_within (pre s post : str) :
  (AutoTuner.count_aspects s <=
   AutoTuner.count_aspects (pre ++ s ++ post))%nat.
Proof.
  unfold AutoTuner.count_aspects.
  pose proof (count_within $"," pre s post (no_overlap_char ","%char)).
  pose proof (count_within $";" pre s post (no_overlap_char ";"%char)).
  pose proof (count_within $"and" pre s post no_overlap_and).
  lia.
Qed.
End SubstringFacts.

(** ** The entity pattern *)

Section EntityFacts.
Import Re EntitySpec.

Lemma lower_not_upper (c : ascii) : is_lower c = true -> is_upper c = false.
Proof.
  unfold is_lower, is_upper, in_range. cbv zeta. intros H.
  apply andb_true_iff in H. destruct H as [H1 H2].
  apply Nat.leb_le in H1, H2.
  apply andb_false_iff. right. apply Nat.leb_gt. lia.
Qed.

Lemma plus_cons {A} (p : ascii -> bool) (c : ascii) (t : str)
      (k : str -> option A) :
  rep_greedy p 1 None (c :: t) k =
  if p c then rep_greedy p 0 None t k else None.
Proof.
  cbn [rep_greedy hi_open hi_pred pred andb].
  destruct (p c); [| reflexivity].
  now destruct (rep_greedy p 0 None t k).
Qed.

(** The longest run is tried first. *)
Lemma star_longest {A} (p : ascii -> bool) (t : str) (k : str -> option A)
      (x : A) :
  k (drop_while p t) = Some x -> rep_greedy p 0 None t k = Some x.
Proof.
  induction t as [| c t' IH]; intros H; cbn [rep_greedy drop_while] in *.
  - exact H.
  - cbn [hi_open andb hi_pred pred]. destruct (p c).
    + now rewrite (IH H).
    + exact H.
Qed.

(** A shorter run is of no use when what follows cannot begin with a
    character of the class. *)
Lemma star_no_backtrack {A} (p : ascii -> bool) (t : str)
      (k : str -> option A) :
  (forall c u, p c = true -> k (c :: u) = None) ->
  rep_greedy p 0 None t k = k (drop_while p t).
Proof.
  intros Hk. induction t as [| c t' IH]; cbn [rep_greedy drop_while].
  - reflexivity.
  - cbn [hi_open andb hi_pred pred]. destruct (p c) eqn:E; [| reflexivity].
    rewrite IH. destruct (k (drop_while p t')) eqn:E2; [reflexivity |].
    now apply Hk.
Qed.

Lemma word_then {A} (t : str) (k : str -> option A) :
  (forall c u, is_lower c = true -> k (c :: u) = None) ->
  rep_greedy is_lower 1 None t k =
  match word_end t with Some r => k r | None => None end.
Proof.
  intros Hk. destruct t as [| c t']; [reflexivity |].
  rewrite plus_cons. unfold word_end. destruct (is_lower c); [| reflexivity].
  now apply star_no_backtrack.
Qed.

Lemma word_last {A} (t : str) (k : str -> option A) :
  (forall u, k u <> None) ->
  rep_greedy is_lower 1 None t k =
  match word_end t with Some r => k r | None => None end.
Proof.
  intros Hk. destruct t as [| c t']; [reflexivity |].
  rewrite plus_cons. unfold word_end. destruct (is_lower c); [| reflexivity].
  destruct (k (drop_while is_lower t')) as [x |] eqn:E.
  - now apply star_longest.
  - now apply Hk in E.
Qed.

Lemma acronym_last {A} (t : str) (k : str -> option A) :
  (forall u, k u <> None) ->
  rep_greedy is_upper 1 None t k =
  match acronym_end t with Some r => k r | None => None end.
Proof.
  intros Hk. destruct t as [| c t']; [reflexivity |].
  rewrite plus_cons. unfold acronym_end. destruct (is_upper c); [| reflexivity].
  destruct (k (drop_while is_upper t')) as [x |] eqn:E.
  - now apply star_longest.
  - now apply Hk in E.
Qed.

(** The first two alternatives: two capitalised words joined by [sep]. *)
Lemma pair_alternative {A} (sep : ascii) (s : str) (cs : captures)
      (k : str -> captures -> option A) :
  is_lower sep = false ->
  (forall u, k u cs <> None) ->
  rmatch (seqs [Chr is_upper; plus is_lower; Chr (chr_eq sep);
                Chr is_upper; plus is_lower]) s cs k =
  match s with
  | c :: t =>
      if is_upper c then
        match word_end t with
        | Some (sp :: c2 :: t2) =>
            if Ascii.eqb sep sp && is_upper c2 then
              match word_end t2 with
              | Some r2 => k r2 cs
              | None => None
              end
            else None
        | _ => None
        end
      else None
  | [] => None
  end.
Proof.
  intros Hsep Hk. cbn [seqs rmatch plus].
  destruct s as [| c t]; [reflexivity |].
  destruct (is_upper c); [| reflexivity].
  rewrite word_then.
  - destruct (word_end t) as [r |]; [| reflexivity].
    destruct r as [| sp [| c2 t2]]; [reflexivity | |].
    + unfold chr_eq at 1. now destruct (Ascii.eqb sep sp).
    + unfold chr_eq at 1. destruct (Ascii.eqb sep sp); [| reflexivity].
      cbn [andb]. destruct (is_upper c2); [| reflexivity].
      now apply word_last.
  - intros c0 u Hc0. unfold chr_eq.
    destruct (Ascii.eqb sep c0) eqn:E; [| reflexivity].
    apply Ascii.eqb_eq in E. subst c0. congruence.
Qed.

(** The matcher on the entity pattern is [entity_rest]. *)
Lemma match_here_entity (s : str) :
  match_here AutoTuner.entity_pattern s =
  option_map (entity_match s) (entity_rest s).
Proof.
  unfold match_here, AutoTuner.entity_pattern.
  cbn [rmatch alts].
  rewrite (pair_alternative " "%char); [| reflexivity | discriminate].
  rewrite (pair_alternative "."%char); [| reflexivity | discriminate].
  cbn [seqs rmatch plus].
  unfold entity_rest, entity_match.
  destruct s as [| c t]; [reflexivity |].
  destruct (is_upper c) eqn:Eu; [| reflexivity].
  rewrite acronym_last; [| discriminate].
  rewrite word_last; [| discriminate].
  destruct t as [| c1 t']; [reflexivity |].
  unfold second_word, is_sep. cbn [word_end acronym_end].
  destruct (is_lower c1) eqn:El.
  - rewrite (lower_not_upper c1 El).
    destruct (drop_while is_lower t') as [| sp [| c2 t2]]; try reflexivity.
    destruct (Ascii.eqb " "%char sp); destruct (Ascii.eqb "."%char sp);
      destruct (is_upper c2); destruct (word_end t2);
      cbn [orb andb]; reflexivity.
  - destruct (is_upper c1); reflexivity.
Qed.

Lemma upper_not_lower (c : ascii) : is_upper c = true -> is_lower c = false.
Proof.
  intros H. destruct (is_lower c) eqn:E; [| reflexivity].
  apply lower_not_upper in E. congruence.
Qed.

Lemma sep_not_upper (c : ascii) : is_sep c = true -> is_upper c = false.
Proof.
  unfold is_sep. intros H. apply orb_true_iff in H.
  destruct H as [H | H]; apply Ascii.eqb_eq in H; subst c; reflexivity.
Qed.

(** ** Suffixes *)

Lemma suffix_refl (s : str) : suffix s s.
Proof. now exists []. Qed.

Lemma suffix_trans (a b c : str) : suffix a b -> suffix b c -> suffix a c.
Proof.
  intros [p1 ->] [p2 ->]. exists (p2 ++ p1). now rewrite app_assoc.
Qed.

Lemma suffix_cons (c : ascii) (r s : str) : suffix r s -> suffix r (c :: s).
Proof. intros [pre ->]. now exists (c :: pre). Qed.

Lemma suffix_length (r s : str) : suffix r s -> (length r <= length s)%nat.
Proof. intros [pre ->]. rewrite length_app. lia. Qed.

Lemma drop_while_suffix (p : ascii -> bool) (s : str) :
  suffix (drop_while p s) s.
Proof.
  induction s as [| c t IH]; cbn [drop_while]; [apply suffix_refl |].
  destruct (p c); [now apply suffix_cons | apply suffix_refl].
Qed.

Lemma word_end_suffix (t r : str) :
  word_end t = Some r -> suffix r t /\ (length r < length t)%nat.
Proof.
  unfold word_end. destruct t as [| c t']; [discriminate |].
  destruct (is_lower c); [| discriminate]. intros H. injection H as <-.
  pose proof (drop_while_suffix is_lower t') as Hs. split.
  - now apply suffix_cons.
  - apply suffix_length in Hs. cbn [length]. lia.
Qed.

Lemma acronym_end_suffix (t r : str) :
  acronym_end t = Some r -> suffix r t /\ (length r < length t)%nat.
Proof.
  unfold acronym_end. destruct t as [| c t']; [discriminate |].
  destruct (is_upper c); [| discriminate]. intros H. injection H as <-.
  pose proof (drop_while_suffix is_upper t') as Hs. split.
  - now apply suffix_cons.
  - apply suffix_length in Hs. cbn [length]. lia.
Qed.

Lemma second_word_suffix (r r2 : str) :
  second_word r = Some r2 -> suffix r2 r /\ (length r2 < length r)%nat.
Proof.
  unfold second_word. destruct r as [| sep [| c2 t2]]; try discriminate.
  destruct (is_sep sep && is_upper c2); [| discriminate].
  intros H. apply word_end_suffix in H. destruct H as [Hs Hl]. split.
  - now apply suffix_cons, suffix_cons.
  - cbn [length]. lia.
Qed.

Lemma entity_rest_suffix (s r : str) :
  entity_rest s = Some r -> suffix r s /\ (length r < length s)%nat.
Proof.
  unfold entity_rest. destruct s as [| c t]; [discriminate |].
  destruct (is_upper c); [| discriminate].
  destruct (word_end t) as [r1 |] eqn:Ew.
  - apply word_end_suffix in Ew. destruct Ew as [Hs Hl].
    destruct (second_word r1) as [r2 |] eqn:E2; intros H; injection H as <-.
    + apply second_word_suffix in E2. destruct E2 as [Hs2 Hl2]. split.
      * apply suffix_cons. now apply (suffix_trans r2 r1 t).
      * cbn [length]. lia.
    + split; [now apply suffix_cons | cbn [length]; lia].
  - intros H. apply acronym_end_suffix in H. destruct H as [Hs Hl].
    split; [now apply suffix_cons | cbn [length]; lia].
Qed.

(** ** Counting entities *)

Lemma finditer_aux_skip (r : regex) (s : str) :
  forall k, finditer_aux r k s = finditer_aux r 0 (skipn k s).
Proof.
  induction s as [| c t IH]; intros k.
  - now destruct k.
  - destruct k as [| k']; [reflexivity |].
    cbn [finditer_aux skipn]. apply IH.
Qed.

(** The count of entities, scanning from the left. *)
Lemma count_entities_cons (c : ascii) (t : str) :
  AutoTuner.count_entities (c :: t) =
  match entity_rest (c :: t) with
  | Some r => S (AutoTuner.count_entities r)
  | None => AutoTuner.count_entities t
  end.
Proof.
  unfold AutoTuner.count_entities, finditer. cbn [finditer_aux].
  rewrite match_here_entity.
  destruct (entity_rest (c :: t)) as [r |] eqn:E; cbn [option_map];
    [| reflexivity].
  cbn [length]. f_equal. rewrite finditer_aux_skip. f_equal.
  apply entity_rest_suffix in E. destruct E as [[pre E] Hl].
  unfold entity_match. cbn [group0]. rewrite E, firstn_consumed.
  destruct pre as [| c0 pre'].
  - cbn [app] in E. subst r. cbn [length] in Hl. lia.
  - cbn [app] in E. injection E as -> ->.
    replace (length (c0 :: pre') - 1)%nat with (length pre')
      by (cbn [length]; lia).
    rewrite skipn_app, skipn_all, Nat.sub_diag. reflexivity.
Qed.

Lemma count_entities_nil : AutoTuner.count_entities [] = 0%nat.
Proof. reflexivity. Qed.

Lemma count_entities_skip (c : ascii) (t : str) :
  is_upper c = false ->
  AutoTuner.count_entities (c :: t) = AutoTuner.count_entities t.
Proof.
  intros H. rewrite count_entities_cons. cbn [entity_rest]. now rewrite H.
Qed.

Lemma count_entities_single (c : ascii) : AutoTuner.count_entities [c] = 0%nat.
Proof.
  rewrite count_entities_cons. cbn [entity_rest word_end acronym_end].
  now destruct (is_upper c).
Qed.

Lemma count_entities_lower_run (run r : str) :
  forallb is_lower run = true ->
  AutoTuner.count_entities (run ++ r) = AutoTuner.count_entities r.
Proof.
  induction run as [| c run' IH]; intros H; [reflexivity |].
  cbn [forallb] in H. apply andb_true_iff in H. destruct H as [H1 H2].
  cbn [app]. rewrite count_entities_skip; [now apply IH |].
  now apply lower_not_upper.
Qed.

Lemma drop_while_run (p : ascii -> bool) (s : str) :
  exists run, s = run ++ drop_while p s /\ forallb p run = true.
Proof.
  induction s as [| c t IH]; cbn [drop_while]; [now exists [] |].
  destruct (p c) eqn:E.
  - destruct IH as [run [E1 E2]]. exists (c :: run). split.
    + cbn [app]. now f_equal.
    + cbn [forallb]. now rewrite E, E2.
  - now exists [].
Qed.

Lemma count_entities_word_end (t r : str) :
  word_end t = Some r ->
  AutoTuner.count_entities t = AutoTuner.count_entities r.
Proof.
  unfold word_end. destruct t as [| c t']; [discriminate |].
  destruct (is_lower c) eqn:E; [| discriminate]. intros H. injection H as <-.
  destruct (drop_while_run is_lower t') as [run [E1 E2]].
  rewrite E1 at 1.
  apply (count_entities_lower_run (c :: run)).
  cbn [forallb]. now rewrite E, E2.
Qed.

(** ** A character in front adds no less than it hides *)

Abbreviation entities := AutoTuner.count_entities.

Lemma suffix_mono_upto (n : nat) :
  prepend_upto n ->
  forall r s, suffix r s -> (length s <= n)%nat ->
              (entities r <= entities s)%nat.
Proof.
  intros IH r s [pre ->]. induction pre as [| a pre' IHp]; intros Hl.
  - apply Nat.le_refl.
  - cbn [app length] in *. eapply Nat.le_trans.
    + apply IHp. lia.
    + apply IH. lia.
Qed.

(** After a capital and a word, the entity ends inside what follows the
    word or at its end. *)
Lemma entity_rest_after_word (c : ascii) (t r1 : str) :
  is_upper c = true -> word_end t = Some r1 ->
  exists r, entity_rest (c :: t) = Some r /\ suffix r r1.
Proof.
  intros Hu Hw. unfold entity_rest. rewrite Hu, Hw.
  destruct (second_word r1) as [r2 |] eqn:E2.
  - exists r2. split; [reflexivity |]. now apply second_word_suffix in E2.
  - exists r1. split; [reflexivity | apply suffix_refl].
Qed.

Lemma prepend_step (n : nat) (s r : str) (c : ascii) :
  prepend_upto n -> (length s <= S n)%nat ->
  entity_rest (c :: s) = Some r ->
  (entities s <= S (entities r))%nat.
Proof.
  intros IH Hl. unfold entity_rest.
  destruct (is_upper c); [| discriminate].
  destruct (word_end s) as [r1 |] eqn:Ew.
  - pose proof (count_entities_word_end s r1 Ew) as Es.
    apply word_end_suffix in Ew. destruct Ew as [_ Hl1].
    destruct (second_word r1) as [r2 |] eqn:E2; intros H; injection H as <-;
      [| rewrite Es; lia].
    unfold second_word in E2.
    destruct r1 as [| sep [| c2 t2]]; try discriminate E2.
    destruct (is_sep sep && is_upper c2) eqn:Ec; [| discriminate E2].
    apply andb_true_iff in Ec. destruct Ec as [Hsep Hup].
    rewrite Es, (count_entities_skip sep _ (sep_not_upper sep Hsep)).
    destruct (entity_rest_after_word c2 t2 r2 Hup E2) as [r' [Er' Hs']].
    rewrite count_entities_cons, Er'. apply le_n_S.
    apply (suffix_mono_upto n IH); [exact Hs' |].
    apply word_end_suffix in E2. destruct E2 as [_ Hl2].
    cbn [length] in *. lia.
  - intros Ha. unfold acronym_end in Ha.
    destruct s as [| c1 t']; [discriminate |].
    destruct (is_upper c1) eqn:Eu1; [| discriminate].
    injection Ha as <-. cbn [length] in Hl.
    rewrite count_entities_cons.
    destruct (entity_rest (c1 :: t')) as [r' |] eqn:Er.
    + apply le_n_S. unfold entity_rest in Er. rewrite Eu1 in Er.
      destruct (word_end t') as [r1' |] eqn:Ew'.
      * assert (Hd : drop_while is_upper t' = t').
        { unfold word_end in Ew'. destruct t' as [| c2 t'']; [discriminate |].
          destruct (is_lower c2) eqn:El; [| discriminate].
          cbn [drop_while]. now rewrite (lower_not_upper c2 El). }
        rewrite Hd. apply (suffix_mono_upto n IH); [| lia].
        apply word_end_suffix in Ew'. destruct Ew' as [Hs1 _].
        destruct (second_word r1') as [r2' |] eqn:E2'; injection Er as <-.
        -- apply second_word_suffix in E2'. destruct E2' as [Hs2 _].
           now apply (suffix_trans r2' r1' t').
        -- exact Hs1.
      * unfold acronym_end in Er. destruct t' as [| c2 t'']; [discriminate |].
        destruct (is_upper c2) eqn:Eu2; [| discriminate].
        injection Er as <-. cbn [drop_while]. rewrite Eu2. apply Nat.le_refl.
    + unfold entity_rest in Er. rewrite Eu1 in Er.
      destruct (word_end t'); [destruct (second_word _); discriminate |].
      unfold acronym_end in Er. destruct t' as [| c2 t'']; [cbn; lia |].
      destruct (is_upper c2) eqn:Eu2; [discriminate |].
      cbn [drop_while]. rewrite Eu2. lia.
Qed.

Lemma prepend_all (n : nat) : prepend_upto n.
Proof.
  induction n as [| n IH]; intros s Hl c.
  - destruct s; [| cbn [length] in Hl; lia].
    rewrite count_entities_single. apply Nat.le_refl.
  - rewrite count_entities_cons.
    destruct (entity_rest (c :: s)) as [r |] eqn:E; [| apply Nat.le_refl].
    now apply (prepend_step n s r c).
Qed.

Lemma count_entities_suffix (r s : str) :
  suffix r s -> (entities r <= entities s)%nat.
Proof.
  intros H. apply (suffix_mono_upto (length s)); [apply prepend_all | exact H |].
  apply Nat.le_refl.
Qed.

(** ** Characters behind a string only lengthen or add entities *)

Lemma drop_while_app (p : ascii -> bool) (s t : str) :
  drop_while p (s ++ t) =
  match drop_while p s with
  | [] => drop_while p t
  | r => r ++ t
  end.
Proof.
  induction s as [| c s' IH]; cbn [app drop_while].
  - now destruct (drop_while p t).
  - destruct (p c); [exact IH | reflexivity].
Qed.

Lemma word_end_app (t0 t r1 : str) :
  word_end t0 = Some r1 ->
  word_end (t0 ++ t) =
  Some (match r1 with [] => drop_while is_lower t | _ => r1 ++ t end).
Proof.
  unfold word_end. destruct t0 as [| c t']; [discriminate |].
  cbn [app]. destruct (is_lower c); [| discriminate].
  intros H. injection H as <-. rewrite drop_while_app.
  now destruct (drop_while is_lower t').
Qed.

Lemma word_end_app_none (t0 t : str) :
  word_end t0 = None -> t0 <> [] -> word_end (t0 ++ t) = None.
Proof.
  unfold word_end. destruct t0 as [| c t']; [congruence |].
  cbn [app]. now destruct (is_lower c).
Qed.

Lemma acronym_end_app (t0 t r : str) :
  acronym_end t0 = Some r ->
  acronym_end (t0 ++ t) =
  Some (match r with [] => drop_while is_upper t | _ => r ++ t end).
Proof.
  unfold acronym_end. destruct t0 as [| c t']; [discriminate |].
  cbn [app]. destruct (is_upper c); [| discriminate].
  intros H. injection H as <-. rewrite drop_while_app.
  now destruct (drop_while is_upper t').
Qed.

Lemma acronym_end_app_none (t0 t : str) :
  acronym_end t0 = None -> t0 <> [] -> acronym_end (t0 ++ t) = None.
Proof.
  unfold acronym_end. destruct t0 as [| c t']; [congruence |].
  cbn [app]. now destruct (is_upper c).
Qed.

Lemma second_word_app (r t r2 : str) :
  second_word r = Some r2 ->
  second_word (r ++ t) =
  Some (match r2 with [] => drop_while is_lower t | _ => r2 ++ t end).
Proof.
  unfold second_word. destruct r as [| sep [| c2 t2]]; try discriminate.
  cbn [app]. destruct (is_sep sep && is_upper c2); [| discriminate].
  apply word_end_app.
Qed.

(** When no second word follows, none follows after an extension either,
    unless what is left holds no entity. *)
Lemma second_word_app_none (r t : str) :
  second_word r = None ->
  second_word (r ++ t) = None \/ entities r = 0%nat.
Proof.
  unfold second_word. destruct r as [| sep [| c2 t2]].
  - intros _. now right.
  - intros _. right. apply count_entities_single.
  - cbn [app]. destruct (is_sep sep && is_upper c2) eqn:Ec; [| now left].
    apply andb_true_iff in Ec. destruct Ec as [Hsep Hup]. intros Hw.
    destruct t2 as [| c3 t3].
    + right. rewrite (count_entities_skip sep _ (sep_not_upper sep Hsep)).
      apply count_entities_single.
    + left. now apply word_end_app_none.
Qed.

(** The entity at the head of a string stays one when the string is
    extended: it ends where it did, or what followed it held no entity. *)
Lemma entity_rest_app (s t r : str) :
  entity_rest s = Some r ->
  exists r', entity_rest (s ++ t) = Some r' /\
             (r' = r ++ t \/ entities r = 0%nat).
Proof.
  unfold entity_rest. destruct s as [| c t0]; [discriminate |].
  cbn [app]. destruct (is_upper c); [| discriminate].
  destruct (word_end t0) as [r1 |] eqn:Ew.
  - rewrite (word_end_app t0 t r1 Ew).
    destruct r1 as [| x r1'].
    + cbn [second_word]. intros H. injection H as <-.
      destruct (second_word (drop_while is_lower t)) as [r2 |];
        eexists; (split; [reflexivity | now right]).
    + destruct (second_word (x :: r1')) as [r2 |] eqn:E2;
        intros H; injection H as <-.
      * rewrite (second_word_app (x :: r1') t r2 E2).
        eexists. split; [reflexivity |].
        destruct r2; [now right | now left].
      * destruct (second_word_app_none (x :: r1') t E2) as [E | E].
        -- rewrite E. eexists. split; [reflexivity | now left].
        -- destruct (second_word ((x :: r1') ++ t));
             eexists; (split; [reflexivity | now right]).
  - intros Ha.
    assert (Hne : t0 <> []).
    { destruct t0; [discriminate Ha | discriminate]. }
    rewrite (word_end_app_none t0 t Ew Hne), (acronym_end_app t0 t r Ha).
    eexists. split; [reflexivity |].
    destruct r; [now right | now left].
Qed.

(** Where no entity begins, none begins after an extension, unless the
    string was a single character. *)
Lemma entity_rest_app_none (c : ascii) (t0 t : str) :
  entity_rest (c :: t0) = None ->
  entity_rest (c :: t0 ++ t) = None \/ t0 = [].
Proof.
  unfold entity_rest. destruct (is_upper c); [| now left].
  destruct (word_end t0) as [r1 |] eqn:Ew.
  - destruct (second_word r1); discriminate.
  - intros Ha. destruct t0 as [| c1 t1]; [now right |]. left.
    rewrite (word_end_app_none (c1 :: t1) t Ew); [| discriminate].
    apply acronym_end_app_none; [exact Ha | discriminate].
Qed.

Lemma append_upto (n : nat) :
  forall s, (length s <= n)%nat ->
            forall t, (entities s <= entities (s ++ t))%nat.
Proof.
  induction n as [| n IH]; intros s Hl t.
  - destruct s; [cbn; lia | cbn [length] in Hl; lia].
  - destruct s as [| c t0]; [cbn; lia |].
    cbn [app length] in *. rewrite !count_entities_cons.
    destruct (entity_rest (c :: t0)) as [r |] eqn:E.
    + pose proof (entity_rest_suffix _ _ E) as [_ Hr].
      destruct (entity_rest_app (c :: t0) t r E) as [r' [E' [-> | H0]]];
        cbn [app] in E'; rewrite E'.
      * apply le_n_S, IH. cbn [length] in Hr. lia.
      * rewrite H0. lia.
    + destruct (entity_rest_app_none c t0 t E) as [E' | ->].
      * rewrite E'. apply IH. lia.
      * cbn. lia.
Qed.

(** The entities of a part of a question are no more than those of the
    question. *)
Lemma count_entities_within (pre s post : str) :
  (entities s <= entities (pre ++ s ++ post))%nat.
Proof.
  apply Nat.le_trans with (entities (s ++ post)).
  - now apply (append_upto (length s)).
  - apply count_entities_suffix. now exists pre.
Qed.
End EntityFacts.

(** ** The complexity score *)

Section ScoreFacts.
Context {R : Rounding} {L : RoundingLaws R}.

Lemma of_int_mono (a b : Z) : (a <= b)%Z -> (of_int a <= of_int b)%Q.
Proof. intros H. apply rnd_mono. now rewrite <- Zle_Qle. Qed.

Lemma fmul_mono (x y c : Q) :
  (0 <= c)%Q -> (x <= y)%Q -> (fmul x c <= fmul y c)%Q.
Proof. intros Hc H. apply rnd_mono. now apply Qmult_le_compat_r. Qed.

Lemma fadd_mono (a a' b b' : Q) :
  (a <= a')%Q -> (b <= b')%Q -> (fadd a b <= fadd a' b')%Q.
Proof. intros Ha Hb. apply rnd_mono. now apply Qplus_le_compat. Qed.

Lemma weighted_complexity_mono (e e' a a' k k' : Z) :
  (e <= e')%Z -> (a <= a')%Z -> (k <= k')%Z ->
  (AutoTuner.weighted_complexity e a k <=
   AutoTuner.weighted_complexity e' a' k')%Q.
Proof.
  intros He Ha Hk. unfold AutoTuner.weighted_complexity.
  repeat apply fadd_mono; apply fmul_mono;
    try (now apply of_int_mono); unfold Qle; cbn; lia.
Qed.

Lemma fmin_mono (a x y : Q) : (x <= y)%Q -> (fmin a x <= fmin a y)%Q.
Proof.
  intros H. unfold fmin.
  destruct (Float.ltb x a) eqn:Ex; destruct (Float.ltb y a) eqn:Ey.
  - exact H.
  - apply ltb_spec in Ex. now apply Qlt_le_weak.
  - apply ltb_spec in Ey. rewrite ltb_dec in Ex.
    destruct (Qlt_le_dec x a) as [? | Hax]; [discriminate |].
    exfalso. apply (Qlt_irrefl a).
    eapply Qle_lt_trans; [exact Hax |]. eapply Qle_lt_trans; eassumption.
  - apply Qle_refl.
Qed.

Lemma fdiv_10_mono (x y : Q) :
  (x <= y)%Q ->
  exists qx qy, fdiv x 10 = Ok qx /\ fdiv y 10 = Ok qy /\ (qx <= qy)%Q.
Proof.
  intros H. unfold fdiv. change (Qeq_bool 10 0) with false. cbv iota.
  eexists. eexists. split; [reflexivity |]. split; [reflexivity |].
  apply rnd_mono. unfold Qdiv. apply Qmult_le_compat_r; [exact H |].
  unfold Qle. cbn. lia.
Qed.

(** C9. The question is analysed without error, and so is each of its
    contiguous parts; the part has no more entities, no more aspects and
    no more complexity keywords than the question, and its complexity
    score is no greater. *)
Theorem complexity_score_monotone (pre s post : str) :
  exists mq ms,
    AutoTuner.analyze_question_complexity (pre ++ s ++ post) = Ok mq /\
    AutoTuner.analyze_question_complexity s = Ok ms /\
    (AutoTuner.complexity_score ms <= AutoTuner.complexity_score mq)%Q /\
    (AutoTuner.entity_count ms <= AutoTuner.entity_count mq)%Z /\
    (AutoTuner.aspect_count ms <= AutoTuner.aspect_count mq)%Z /\
    (AutoTuner.complexity_keyword_count ms <=
     AutoTuner.complexity_keyword_count mq)%Z.
Proof.
  pose proof (count_entities_within pre s post) as He.
  pose proof (count_aspects_within pre s post) as Ha.
  pose proof (count_keywords_within pre s post) as Hk.
  apply Nat2Z.inj_le in He, Ha, Hk.
  unfold AutoTuner.analyze_question_complexity. cbv zeta.
  destruct (fdiv_10_mono _ _ (weighted_complexity_mono _ _ _ _ _ _ He Ha Hk))
    as [qs [qq [Es [Eq Hq]]]].
  rewrite Es, Eq. cbn [res_bind].
  eexists. eexists. split; [reflexivity |]. split; [reflexivity |].
  cbn [AutoTuner.complexity_score AutoTuner.entity_count
       AutoTuner.aspect_count AutoTuner.complexity_keyword_count].
  split; [now apply fmin_mono |]. now repeat split.
Qed.
End ScoreFacts.

(** The theorem in exact arithmetic, at a question of the test suite and
    its part "IBM, Google". *)
Lemma complexity_score_monotone_witness :
  exists mq ms,
    AutoTuner.analyze_question_complexity (R := exact)
      ($"Compare the approaches of " ++ $"IBM, Google" ++ $", and Microsoft")
      = Ok mq /\
    AutoTuner.analyze_question_complexity (R := exact) $"IBM, Google"
      = Ok ms /\
    (AutoTuner.complexity_score ms <= AutoTuner.complexity_score mq)%Q.
Proof.
  destruct (complexity_score_monotone
              (R := exact) (L := exact_laws)
              $"Compare the approaches of " $"IBM, Google" $", and Microsoft")
    as [mq [ms [Eq [Es [H _]]]]].
  exists mq, ms. repeat split; assumption.
Defined.

(* ================================================================== *)
(** * Further properties of the code *)
(* ================================================================== *)

(** ** ResearchMemory: batches of learnings and urls *)

Section BatchFacts.
Import Memory.

Lemma add_learning_other_fields (s : str) (m : ResearchMemory) :
  visited_urls (add_learning s m) = visited_urls m /\
  chain_of_thought (add_learning s m) = chain_of_thought m /\
  information_map (add_learning s m) = information_map m /\
  contradictions (add_learning s m) = contradictions m /\
  source_evaluations (add_learning s m) = source_evaluations m /\
  current_date (add_learning s m) = current_date m.
Proof.
  unfold add_learning. destruct (mem s (learnings m)); repeat split.
Qed.

(** What a batch appends: the strings not stored yet, each once. *)
Lemma add_learnings_added (new : list str) (m : ResearchMemory) :
  exists added,
    learnings (add_learnings new m) = learnings m ++ added /\
    NoDup added /\
    forall x, In x added <-> In x new /\ ~ In x (learnings m).
Proof.
  unfold add_learnings. revert m.
  induction new as [| s new' IH]; intros m.
  - exists []. cbn [fold_left]. rewrite app_nil_r.
    split; [reflexivity |]. split; [constructor |].
    intros x. cbn [In]. tauto.
  - cbn [fold_left].
    destruct (IH (add_learning s m)) as [added [E [ND HI]]].
    assert (C : (In s (learnings m) /\ add_learning s m = m) \/
                (~ In s (learnings m) /\
                 learnings (add_learning s m) = learnings m ++ [s])).
    { unfold add_learning. destruct (mem s (learnings m)) eqn:Es.
      - left. split; [now apply mem_In | reflexivity].
      - right. split; [| reflexivity].
        intros H. apply mem_In in H. congruence. }
    destruct C as [[Hs Em] | [Hs El]].
    + rewrite Em in *. exists added.
      split; [exact E |]. split; [exact ND |].
      intros x. rewrite HI. cbn [In]. split.
      * intros [H1 H2]. tauto.
      * intros [[H1 | H1] H2]; [subst; contradiction | tauto].
    + rewrite El in E, HI.
      exists (s :: added). split.
      * rewrite E, <- app_assoc. reflexivity.
      * split.
        -- constructor; [| exact ND].
           intros H. apply HI in H. destruct H as [_ H]. apply H.
           apply in_or_app. right. now left.
        -- intros x. cbn [In]. rewrite HI. split.
           ++ intros [H | [H1 H2]]; [subst; tauto |].
              split; [tauto |]. intros H. apply H2, in_or_app. now left.
           ++ intros [[H | H] H2]; [now left |].
              destruct (str_dec s x) as [-> | Hn]; [now left |].
              right. split; [exact H |].
              intros H3. apply in_app_or in H3.
              destruct H3 as [H3 | [H3 | []]]; tauto.
Qed.

Lemma add_learnings_other_fields (new : list str) (m : ResearchMemory) :
  visited_urls (add_learnings new m) = visited_urls m /\
  chain_of_thought (add_learnings new m) = chain_of_thought m /\
  contradictions (add_learnings new m) = contradictions m.
Proof.
  unfold add_learnings. revert m.
  induction new as [| s new' IH]; intros m; [repeat split |].
  cbn [fold_left]. destruct (IH (add_learning s m)) as [H1 [H2 H3]].
  destruct (add_learning_other_fields s m) as [G1 [G2 [_ [G3 _]]]].
  rewrite H1, H2, H3, G1, G2, G3. repeat split.
Qed.

Lemma add_url_NoDup (u : str) (m : ResearchMemory) :
  NoDup (visited_urls m) -> NoDup (visited_urls (add_url u m)).
Proof.
  intros H. unfold add_url. destruct (mem u (visited_urls m)) eqn:E.
  - assumption.
  - simpl. apply NoDup_app; [assumption | repeat constructor; cbn; tauto |].
    intros x Hx [Hs | []]. subst x. apply mem_In in Hx. congruence.
Qed.

Lemma add_url_In (u x : str) (m : ResearchMemory) :
  In x (visited_urls (add_url u m)) <-> In x (visited_urls m) \/ x = u.
Proof.
  unfold add_url. destruct (mem u (visited_urls m)) eqn:E.
  - apply mem_In in E. split; [tauto |]. intros [H | ->]; assumption.
  - cbn [visited_urls set_visited_urls]. rewrite in_app_iff. cbn [In].
    split; intros [H | H]; try tauto; try (right; tauto).
    + destruct H as [H | []]. now right.
    + subst. right. now left.
Qed.

Lemma add_urls_In (new : list str) (x : str) (m : ResearchMemory) :
  In x (visited_urls (add_urls new m)) <-> In x (visited_urls m) \/ In x new.
Proof.
  unfold add_urls. revert m.
  induction new as [| u new' IH]; intros m; cbn [fold_left In]; [tauto |].
  rewrite IH, add_url_In. split; intros H; intuition auto.
Qed.

Lemma add_urls_NoDup (new : list str) (m : ResearchMemory) :
  NoDup (visited_urls m) -> NoDup (visited_urls (add_urls new m)).
Proof.
  unfold add_urls. revert m.
  induction new as [| u new' IH]; intros m H; [exact H |].
  cbn [fold_left]. apply IH, add_url_NoDup, H.
Qed.

(** Adding urls that are all stored changes nothing. *)
Lemma add_urls_known (new : list str) (m : ResearchMemory) :
  (forall x, In x new -> In x (visited_urls m)) -> add_urls new m = m.
Proof.
  unfold add_urls. induction new as [| u new' IH]; intros H; [reflexivity |].
  cbn [fold_left]. unfold add_url at 2.
  assert (E : mem u (visited_urls m) = true).
  { apply mem_In, H. now left. }
  rewrite E. apply IH. intros x Hx. apply H. now right.
Qed.
End BatchFacts.

(** X1. A batch of learnings is appended after the stored ones, which keep
    their places: what is appended is duplicate-free and consists of exactly
    the strings of the batch that were not stored; the urls, the chain of
    thought and the contradictions are left alone. *)
Theorem add_learnings_appends_the_new_ones
        (new : list str) (m : Memory.ResearchMemory) :
  (exists added,
     Memory.learnings (Memory.add_learnings new m) =
       Memory.learnings m ++ added /\
     NoDup added /\
     forall x, In x added <-> In x new /\ ~ In x (Memory.learnings m)) /\
  Memory.visited_urls (Memory.add_learnings new m) = Memory.visited_urls m /\
  Memory.chain_of_thought (Memory.add_learnings new m) =
    Memory.chain_of_thought m /\
  Memory.contradictions (Memory.add_learnings new m) =
    Memory.contradictions m.
Proof.
  split; [apply add_learnings_added | apply add_learnings_other_fields].
Qed.

(** X2. A memory whose urls are pairwise different keeps them so under
    [add_urls]; afterwards exactly the old urls and those of the batch are
    stored, and adding the same batch once more changes nothing. *)
Theorem add_urls_keeps_urls_distinct
        (new : list str) (m : Memory.ResearchMemory)
        (H : NoDup (Memory.visited_urls m)) :
  NoDup (Memory.visited_urls (Memory.add_urls new m)) /\
  (forall x, In x (Memory.visited_urls (Memory.add_urls new m)) <->
             In x (Memory.visited_urls m) \/ In x new) /\
  Memory.add_urls new (Memory.add_urls new m) = Memory.add_urls new m.
Proof.
  split; [now apply add_urls_NoDup |].
  split; [intros x; apply add_urls_In |].
  apply add_urls_known. intros x Hx. apply add_urls_In. now right.
Qed.

Lemma add_urls_keeps_urls_distinct_witness :
  let m := Memory.add_url $"https://a.example" (Memory.init Offline.march_15) in
  let new := [$"https://b.example"; $"https://a.example"; $"https://b.example"] in
  NoDup (Memory.visited_urls (Memory.add_urls new m)) /\
  (forall x, In x (Memory.visited_urls (Memory.add_urls new m)) <->
             In x (Memory.visited_urls m) \/ In x new) /\
  Memory.add_urls new (Memory.add_urls new m) = Memory.add_urls new m.
Proof.
  apply (add_urls_keeps_urls_distinct
           [$"https://b.example"; $"https://a.example"; $"https://b.example"]
           (Memory.add_url $"https://a.example" (Memory.init Offline.march_15))).
  vm_compute. repeat constructor. intros [].
Defined.

(** ** ResearchMemory: the information map *)

Section InformationMapFacts.
Import Memory InformationMap.

Lemma str_eqb_refl (a : str) : str_eqb a a = true.
Proof. now apply str_eqb_true_iff. Qed.

Lemma str_eqb_neq (a b : str) : a <> b -> str_eqb a b = false.
Proof.
  intros H. destruct (str_eqb a b) eqn:E; [| reflexivity].
  apply str_eqb_true_iff in E. contradiction.
Qed.

Lemma lookup_store_same (t : str) (e : InfoEntry) (im : list (str * InfoEntry)) :
  lookup t (store t e im) = Some e.
Proof.
  induction im as [| [k e'] im' IH]; cbn [store lookup].
  - now rewrite str_eqb_refl.
  - destruct (str_eqb t k) eqn:E; cbn [lookup]; rewrite E; [reflexivity | exact IH].
Qed.

Lemma lookup_store_other (t t' : str) (e : InfoEntry)
      (im : list (str * InfoEntry)) :
  t' <> t -> lookup t' (store t e im) = lookup t' im.
Proof.
  intros H. induction im as [| [k e'] im' IH]; cbn [store lookup].
  - now rewrite str_eqb_neq.
  - destruct (str_eqb t k) eqn:E; cbn [lookup].
    + apply str_eqb_true_iff in E. subst k. now rewrite str_eqb_neq.
    + now rewrite IH.
Qed.

Lemma keys_store (t : str) (e : InfoEntry) (im : list (str * InfoEntry)) :
  map fst (store t e im) =
  map fst im ++ match lookup t im with Some _ => [] | None => [t] end.
Proof.
  induction im as [| [k e'] im' IH]; cbn [store lookup map fst app];
    [reflexivity |].
  destruct (str_eqb t k) eqn:E; cbn [map fst].
  - now rewrite app_nil_r.
  - now rewrite IH.
Qed.

Lemma store_store (t : str) (e1 e2 : InfoEntry) (im : list (str * InfoEntry)) :
  store t e2 (store t e1 im) = store t e2 im.
Proof.
  induction im as [| [k e'] im' IH]; cbn [store].
  - now rewrite str_eqb_refl.
  - destruct (str_eqb t k) eqn:E; cbn [store]; rewrite E;
      [reflexivity | now rewrite IH].
Qed.

Lemma extend_extend (ty : str) (l1 l2 : list str) (e : InfoEntry) :
  extend ty l2 (extend ty l1 e) = extend ty (l1 ++ l2) e.
Proof.
  unfold extend.
  destruct (str_eqb ty $"consensus") eqn:E1;
    [cbn; now rewrite app_assoc |].
  destruct (str_eqb ty $"contradictions") eqn:E2;
    [cbn; now rewrite app_assoc |].
  destruct (str_eqb ty $"gaps") eqn:E3;
    [cbn; now rewrite app_assoc | reflexivity].
Qed.

(** The update as one store. *)
Lemma update_information_map_run (topic ty : str) (c : content)
      (m : ResearchMemory) :
  update_information_map topic ty c m =
  Ok (set_information_map
        (store topic (extend ty (items_of c) (entry_or_empty topic m))
               (information_map m)) m).
Proof.
  unfold update_information_map, entry_or_empty, getitem.
  destruct (lookup topic (information_map m)) as [e |] eqn:E.
  - rewrite E. reflexivity.
  - rewrite lookup_store_same. cbn [res_bind]. now rewrite store_store.
Qed.
End InformationMapFacts.

(** X3. [update_information_map] never raises.  Afterwards the topic holds
    its previous entry (the three empty lists if the topic is new) with the
    content appended to the list named by [info_type]; an [info_type] that
    is none of the three keys leaves the entry as it was, yet a new topic
    is still created.  The other topics keep their entries, the keys keep
    their order with a new topic last, and the rest of the memory is left
    alone. *)
Theorem update_information_map_stores_under_topic
        (topic info_type : str) (c : InformationMap.content)
        (m : Memory.ResearchMemory) :
  let old := InformationMap.entry_or_empty topic m in
  exists m',
    InformationMap.update_information_map topic info_type c m = Ok m' /\
    InformationMap.lookup topic (Memory.information_map m') =
      Some (InformationMap.extend info_type (InformationMap.items_of c) old) /\
    (~ In info_type [$"consensus"; $"contradictions"; $"gaps"] ->
     InformationMap.lookup topic (Memory.information_map m') = Some old) /\
    (forall t, t <> topic ->
               InformationMap.lookup t (Memory.information_map m') =
               InformationMap.lookup t (Memory.information_map m)) /\
    map fst (Memory.information_map m') =
      map fst (Memory.information_map m) ++
      match InformationMap.lookup topic (Memory.information_map m) with
      | Some _ => []
      | None => [topic]
      end /\
    Memory.learnings m' = Memory.learnings m /\
    Memory.visited_urls m' = Memory.visited_urls m /\
    Memory.chain_of_thought m' = Memory.chain_of_thought m /\
    Memory.contradictions m' = Memory.contradictions m /\
    Memory.source_evaluations m' = Memory.source_evaluations m.
Proof.
  cbv zeta. eexists. split; [apply update_information_map_run |].
  cbn [Memory.information_map InformationMap.set_information_map
       Memory.learnings Memory.visited_urls Memory.chain_of_thought
       Memory.contradictions Memory.source_evaluations].
  split; [apply lookup_store_same |].
  split.
  { intros H. rewrite lookup_store_same. f_equal.
    unfold InformationMap.extend.
    rewrite !str_eqb_neq; [reflexivity | | |];
      intros ->; apply H; cbn [In]; tauto. }
  split; [intros t Ht; now apply lookup_store_other |].
  split; [apply keys_store |].
  repeat split.
Qed.

(** X4. A list passed as content is spliced in: it has the effect of
    passing its items one after the other, a list in two parts that of
    passing the parts in turn, and a single value that of the one-item
    list. *)
Theorem update_information_map_splices_lists
        (topic info_type : str) (l1 l2 : list str) (s : str)
        (m : Memory.ResearchMemory) :
  res_bind (InformationMap.update_information_map
              topic info_type (InformationMap.Items l1) m)
           (InformationMap.update_information_map
              topic info_type (InformationMap.Items l2)) =
  InformationMap.update_information_map
    topic info_type (InformationMap.Items (l1 ++ l2)) m /\
  InformationMap.update_information_map
    topic info_type (InformationMap.Item s) m =
  InformationMap.update_information_map
    topic info_type (InformationMap.Items [s]) m /\
  fold_left (fun r x =>
               res_bind r (InformationMap.update_information_map
                             topic info_type (InformationMap.Item x)))
            l1
            (InformationMap.update_information_map
               topic info_type (InformationMap.Items []) m) =
  InformationMap.update_information_map
    topic info_type (InformationMap.Items l1) m.
Proof.
  assert (Two : forall a b m0,
             res_bind (InformationMap.update_information_map
                         topic info_type (InformationMap.Items a) m0)
                      (InformationMap.update_information_map
                         topic info_type (InformationMap.Items b)) =
             InformationMap.update_information_map
               topic info_type (InformationMap.Items (a ++ b)) m0).
  { intros a b m0. rewrite !update_information_map_run. cbn [res_bind].
    rewrite update_information_map_run. unfold InformationMap.entry_or_empty.
    cbn [Memory.information_map InformationMap.set_information_map
         InformationMap.items_of].
    rewrite lookup_store_same, store_store, extend_extend. reflexivity. }
  split; [apply Two |]. split; [reflexivity |].
  change (InformationMap.Items l1) with (InformationMap.Items ([] ++ l1)) at 1.
  generalize (@nil str) as done.
  induction l1 as [| x l1' IH]; intros done; cbn [fold_left].
  - now rewrite app_nil_r.
  - change (InformationMap.update_information_map
              topic info_type (InformationMap.Item x))
      with (InformationMap.update_information_map
              topic info_type (InformationMap.Items [x])).
    rewrite Two, IH, <- app_assoc. reflexivity.
Qed.

(** ** ContentClassifier: the kind of a text *)

Section ClassificationFacts.
Import Classification.

(** A search succeeds when the pattern matches at some position. *)
Lemma found_anywhere (r : regex) (s : str) :
  found r s =
  anywhere (fun s' => match match_here r s' with
                      | Some _ => true
                      | None => false
                      end) s.
Proof.
  unfold found, search, finditer.
  induction s as [| c t IH]; [reflexivity |].
  cbn [finditer_aux anywhere].
  destruct (match_here r (c :: t)); [reflexivity |].
  cbn [orb]. exact IH.
Qed.

Lemma anywhere_ext (f g : str -> bool) (s : str) :
  (forall x, f x = g x) -> anywhere f s = anywhere g s.
Proof.
  intros H. induction s as [| c t IH]; [reflexivity |].
  cbn [anywhere]. now rewrite H, IH.
Qed.

Lemma anywhere_lower (f : str -> bool) (s : str) :
  anywhere (fun x => f (lower x)) s = anywhere f (lower s).
Proof.
  induction s as [| c t IH]; [reflexivity |].
  cbn [anywhere lower map]. now rewrite IH.
Qed.

Lemma contains_anywhere (p : str) (s : str) :
  p <> [] -> contains p s = anywhere (starts_with p) s.
Proof.
  intros Hp. induction s as [| c t IH].
  - destruct p; [contradiction | reflexivity].
  - cbn [contains anywhere]. now rewrite IH.
Qed.

(** A word under [(?i)] matches when the lowercased text starts with the
    lowercased word. *)
Lemma rmatch_word_ci {A} (w : str) :
  forall (s : str) (cs : captures) (k : str -> captures -> option A),
    rmatch (word_ci w) s cs k =
    if starts_with (lower w) (lower s) then k (skipn (length w) s) cs
    else None.
Proof.
  induction w as [| a w' IH]; intros s cs k; [reflexivity |].
  assert (Step : forall (s0 : str) (k' : str -> captures -> option A),
             rmatch (Chr (chr_ci a)) s0 cs k' =
             match s0 return option A with
             | c :: t => if Ascii.eqb (lower_char a) (lower_char c)
                         then k' t cs else None
             | [] => None
             end) by reflexivity.
  destruct w' as [| b w''].
  - cbn [word_ci]. rewrite Step. destruct s as [| c t]; [reflexivity |].
    cbn [lower map starts_with length skipn].
    destruct (Ascii.eqb (lower_char a) (lower_char c)); reflexivity.
  - change (word_ci (a :: b :: w''))
      with (Seq (Chr (chr_ci a)) (word_ci (b :: w''))).
    cbn [rmatch]. destruct s as [| c t]; [reflexivity |].
    cbn [lower map starts_with length skipn].
    unfold chr_ci.
    destruct (Ascii.eqb (lower_char a) (lower_char c)); [| reflexivity].
    cbn [andb]. rewrite IH. reflexivity.
Qed.

Lemma found_word_ci (w s : str) :
  w <> [] -> lower w = w -> found (word_ci w) s = contains w (lower s).
Proof.
  intros Hw Hl. rewrite found_anywhere, contains_anywhere by exact Hw.
  rewrite <- anywhere_lower. apply anywhere_ext. intros x.
  unfold match_here. rewrite rmatch_word_ci, Hl.
  destruct (starts_with w (lower x)); reflexivity.
Qed.

Lemma is_digit_lower_char (c : ascii) : is_digit (lower_char c) = is_digit c.
Proof.
  destruct c as [[] [] [] [] [] [] [] []]; reflexivity.
Qed.

Lemma skipn_lower (n : nat) (s : str) : skipn n (lower s) = lower (skipn n s).
Proof. unfold lower. apply skipn_map. Qed.

Lemma found_by_year (s : str) :
  found by_year_pattern s = anywhere by_year_at (lower s).
Proof.
  rewrite found_anywhere, <- anywhere_lower. apply anywhere_ext. intros x.
  unfold match_here, by_year_pattern. cbn [seqs rmatch].
  rewrite rmatch_word_ci. unfold by_year_at.
  change (lower $"by 20") with ($"by 20").
  destruct (starts_with $"by 20" (lower x)); [| reflexivity].
  cbn [andb]. rewrite skipn_lower.
  change (length $"by 20") with 5%nat.
  destruct (skipn 5 x) as [| d1 [| d2 t]]; cbn [lower map].
  - reflexivity.
  - destruct (is_digit d1); reflexivity.
  - rewrite !is_digit_lower_char.
    destruct (is_digit d1); [| reflexivity].
    destruct (is_digit d2); reflexivity.
Qed.

Lemma existsb_found_words (ws : list str) (s : str) :
  Forall (fun w => w <> [] /\ lower w = w) ws ->
  existsb (fun phrase => found phrase s) (map word_ci ws) =
  existsb (fun w => contains w (lower s)) ws.
Proof.
  induction 1 as [| w ws' [Hw Hl] _ IH]; [reflexivity |].
  cbn [map existsb]. now rewrite found_word_ci, IH.
Qed.

Lemma words_are_lowercase :
  Forall (fun w => w <> [] /\ lower w = w)
         (speculative_words ++ [$"in the future"]) /\
  Forall (fun w => w <> [] /\ lower w = w) opinion_words.
Proof.
  split; repeat constructor; discriminate.
Qed.

(** The kind of a text, read off its lowercased form. *)
Lemma classify_by_substrings (text : str) :
  classify_content_type text =
  if speculative text then $"speculative"
  else if opinionated text then $"opinion"
  else $"factual".
Proof.
  destruct words_are_lowercase as [Hs Ho].
  unfold classify_content_type, speculative, opinionated,
    speculative_phrases, opinion_phrases.
  rewrite (existsb_found_words _ _ Ho).
  apply Forall_app in Hs. destruct Hs as [Hs1 Hs2].
  rewrite !existsb_app, (existsb_found_words _ _ Hs1).
  cbn [existsb]. rewrite found_by_year.
  rewrite found_word_ci; [| discriminate | reflexivity].
  rewrite !orb_false_r.
  rewrite (orb_comm (anywhere by_year_at (lower text))).
  rewrite orb_assoc. reflexivity.
Qed.

Lemma lower_char_idem (c : ascii) : lower_char (lower_char c) = lower_char c.
Proof.
  destruct c as [[] [] [] [] [] [] [] []]; reflexivity.
Qed.

Lemma lower_idem (s : str) : lower (lower s) = lower s.
Proof.
  unfold lower. rewrite map_map. apply map_ext, lower_char_idem.
Qed.

Lemma anywhere_app_r (f : str -> bool) (pre s : str) :
  anywhere f s = true -> anywhere f (pre ++ s) = true.
Proof.
  intros H. induction pre as [| c pre' IH]; [exact H |].
  cbn [app anywhere]. rewrite IH. apply orb_true_r.
Qed.

Lemma anywhere_app_l (f : str -> bool) (s post : str) :
  (forall x, f x = true -> f (x ++ post) = true) ->
  anywhere f s = true -> anywhere f (s ++ post) = true.
Proof.
  intros Hf. induction s as [| c t IH]; [discriminate |].
  cbn [app anywhere]. intros H. apply orb_true_iff in H.
  destruct H as [H | H].
  - apply (Hf (c :: t)) in H. cbn [app] in H. now rewrite H.
  - rewrite IH by exact H. apply orb_true_r.
Qed.

Lemma by_year_at_app (x post : str) :
  by_year_at x = true -> by_year_at (x ++ post) = true.
Proof.
  unfold by_year_at. intros H. apply andb_true_iff in H.
  destruct H as [H1 H2].
  rewrite (starts_with_app _ _ _ H1). cbn [andb].
  destruct x as [| c1 [| c2 [| c3 [| c4 [| c5 [| d1 [| d2 t]]]]]]];
    try discriminate.
  exact H2.
Qed.

Lemma existsb_impl {A} (f g : A -> bool) (l : list A) :
  (forall x, f x = true -> g x = true) ->
  existsb f l = true -> existsb g l = true.
Proof.
  intros H E. apply existsb_exists in E. destruct E as [x [Hx Ex]].
  apply existsb_exists. exists x. split; [exact Hx | now apply H].
Qed.

Lemma speculative_within (pre text post : str) :
  speculative text = true -> speculative (pre ++ text ++ post) = true.
Proof.
  unfold speculative. rewrite !lower_app. intros H.
  apply orb_true_iff in H. apply orb_true_iff. destruct H as [H | H].
  - left. revert H. apply existsb_impl. intros w. apply contains_within.
  - right. apply anywhere_app_r, anywhere_app_l; [| exact H].
    intros x. apply by_year_at_app.
Qed.

Lemma opinionated_within (pre text post : str) :
  opinionated text = true -> opinionated (pre ++ text ++ post) = true.
Proof.
  unfold opinionated. rewrite !lower_app.
  apply existsb_impl. intros w. apply contains_within.
Qed.
End ClassificationFacts.

(** X5. On ASCII text [classify_content_type] looks at the lowercased
    text only, for substrings and not for words: the result is
    "speculative" when one of the ten speculative phrases, or "by 20"
    followed by two digits, occurs in it; otherwise "opinion" when one of
    the nine opinion phrases occurs; otherwise "factual".  So a
    speculative phrase wins over an opinion phrase wherever the two stand,
    and the case of the ASCII letters never matters.  Nothing is said of
    text that is not ASCII, where [(?i)] and [str.lower] differ. *)
Theorem classify_content_type_by_substrings
        (text : str) (Hascii : isascii text = true) :
  Classification.classify_content_type text =
    (if Classification.speculative text then $"speculative"
     else if Classification.opinionated text then $"opinion"
     else $"factual") /\
  Classification.classify_content_type (lower text) =
    Classification.classify_content_type text.
Proof.
  split; [apply classify_by_substrings |].
  rewrite !classify_by_substrings.
  unfold Classification.speculative, Classification.opinionated.
  now rewrite lower_idem.
Qed.

Lemma classify_content_type_by_substrings_witness :
  Classification.classify_content_type
    $"Analysts THINK the market Could Be larger" = $"speculative" /\
  Classification.classify_content_type
    (lower $"Analysts THINK the market Could Be larger") =
  Classification.classify_content_type
    $"Analysts THINK the market Could Be larger".
Proof.
  exact (classify_content_type_by_substrings
           $"Analysts THINK the market Could Be larger" eq_refl).
Defined.

(** X6. Text added in front of or behind a text never lowers its kind in
    the order factual < opinion < speculative: what is speculative stays
    speculative, and an opinion does not become factual. *)
Theorem classify_content_type_monotone (pre text post : str) :
  (Classification.rank (Classification.classify_content_type text) <=
   Classification.rank
     (Classification.classify_content_type (pre ++ text ++ post)))%nat.
Proof.
  rewrite !classify_by_substrings.
  pose proof (speculative_within pre text post) as Hs.
  pose proof (opinionated_within pre text post) as Ho.
  destruct (Classification.speculative text).
  - rewrite Hs by reflexivity. apply Nat.le_refl.
  - destruct (Classification.opinionated text).
    + rewrite Ho by reflexivity.
      destruct (Classification.speculative (pre ++ text ++ post));
        vm_compute; lia.
    + destruct (Classification.speculative (pre ++ text ++ post));
        [vm_compute; lia |].
      destruct (Classification.opinionated (pre ++ text ++ post));
        vm_compute; lia.
Qed.

(** ** ContentClassifier: the validators and the reference date *)

Section ValidatorFacts.
Import Re ContentClassifier ClassifierSpec.

(** A match found in a text was found at the head of what is left of the
    text after some of its first characters. *)
Lemma finditer_aux_at (r : regex) (m : match_obj) (s : str) :
  forall skip, In m (finditer_aux r skip s) ->
               exists pre s0, s = pre ++ s0 /\ match_here r s0 = Some m.
Proof.
  induction s as [| c t IH]; intros skip H; cbn [finditer_aux] in H.
  - destruct H.
  - assert (Later : forall k, In m (finditer_aux r k t) ->
                      exists pre s0, c :: t = pre ++ s0 /\
                                     match_here r s0 = Some m).
    { intros k Hk. apply IH in Hk. destruct Hk as [pre [s0 [-> Hm]]].
      now exists (c :: pre), s0. }
    destruct skip as [| k]; [| now apply (Later k)].
    destruct (match_here r (c :: t)) as [m0 |] eqn:E.
    + destruct H as [-> | H]; [now exists [], (c :: t) | now apply Later in H].
    + now apply Later in H.
Qed.

Lemma starts_with_refl (p : str) : starts_with p p = true.
Proof.
  induction p as [| c p' IH]; [reflexivity |].
  cbn [starts_with]. now rewrite Ascii.eqb_refl, IH.
Qed.

Lemma contains_self (p : str) : contains p p = true.
Proof.
  destruct p as [| c p']; [reflexivity |].
  cbn [contains]. now rewrite starts_with_refl.
Qed.

(** A pattern that begins with a word under [(?i)] finds nothing in a
    text whose lowercased form does not contain the word. *)
Lemma finditer_needs_word (w : str) (r : regex) (text : str) :
  contains (lower w) (lower text) = false ->
  finditer (Seq (word_ci w) r) text = [].
Proof.
  intros H. destruct (finditer (Seq (word_ci w) r) text) as [| m ms] eqn:E;
    [reflexivity |].
  exfalso.
  assert (Hin : In m (finditer (Seq (word_ci w) r) text))
    by (rewrite E; now left).
  apply finditer_aux_at in Hin. destruct Hin as [pre [s0 [-> Hm]]].
  apply match_here_consumes in Hm. destruct Hm as [s' [cs' [Hc _]]].
  cbn [consumes] in Hc. destruct Hc as [s1 [cs1 [H1 _]]].
  apply word_ci_consumes in H1. destruct H1 as [pre' [-> [El _]]].
  rewrite !lower_app, El in H.
  rewrite contains_app_r in H; [discriminate |].
  apply contains_app_l, contains_self.
Qed.

(** The validator returns the message of the first past match. *)
Lemma validate_temporal_find (current_date : datetime) (text : str) :
  validate_temporal_consistency current_date text =
  Ok (match find (past current_date) (finditer upcoming_pattern text) with
      | Some m1 => (false, upcoming_message m1)
      | None =>
          match find (past current_date)
                     (finditer scheduled_pattern text) with
          | Some m2 => (false, scheduled_message m2)
          | None => (true, $"No temporal inconsistencies detected")
          end
      end).
Proof.
  unfold validate_temporal_consistency.
  rewrite !first_past_event_find.
  - destruct (find _ (finditer upcoming_pattern text));
      cbn [res_bind option_map]; [reflexivity |].
    destruct (find _ (finditer scheduled_pattern text)); reflexivity.
  - intros m0 H. apply finditer_match in H. destruct H as [s0 H].
    now apply scheduled_event_date in H.
  - intros m0 H. apply finditer_match in H. destruct H as [s0 H].
    now apply upcoming_event_date in H.
Qed.

Lemma lex_ltb_le_trans (a : list Z) :
  forall b c, length a = length b -> length b = length c ->
              lex_ltb a b = true -> lex_ltb c b = false ->
              lex_ltb a c = true.
Proof.
  induction a as [| x a' IH]; intros [| y b'] [| z c'] L1 L2 H1 H2;
    try discriminate.
  cbn [lex_ltb length] in *.
  apply orb_true_iff in H1. apply orb_false_iff in H2.
  destruct H2 as [H2 H3]. apply Z.ltb_ge in H2.
  apply orb_true_iff.
  destruct H1 as [H1 | H1].
  - apply Z.ltb_lt in H1. left. apply Z.ltb_lt. lia.
  - apply andb_true_iff in H1. destruct H1 as [H1 H4].
    apply Z.eqb_eq in H1. subst y.
    destruct (Z.eq_dec z x) as [-> | Hn].
    + right. rewrite Z.eqb_refl in *. cbn [andb] in *.
      apply (IH b' c'); congruence || lia.
    + left. apply Z.ltb_lt. lia.
Qed.

(** An event before [d1] is before every date that is not before [d1]. *)
Lemma dt_ltb_le_trans (e d1 d2 : datetime) :
  dt_ltb e d1 = true -> dt_ltb d2 d1 = false -> dt_ltb e d2 = true.
Proof.
  unfold dt_ltb. apply lex_ltb_le_trans; reflexivity.
Qed.

Lemma past_later (d1 d2 : datetime) (m : match_obj) :
  dt_ltb d2 d1 = false -> past d1 m = true -> past d2 m = true.
Proof.
  unfold past. intros Hd. destruct (event_date m) as [e | x]; [| trivial].
  intros H. now apply (dt_ltb_le_trans e d1 d2).
Qed.

Lemma find_none_later {A} (f g : A -> bool) (l : list A) :
  (forall x, g x = true -> f x = true) ->
  find f l = None -> find g l = None.
Proof.
  intros H. induction l as [| x t IH]; [reflexivity |].
  cbn [find]. destruct (f x) eqn:Ef; [discriminate |].
  destruct (g x) eqn:Eg; [| exact IH].
  apply H in Eg. congruence.
Qed.

(** The literal of a matched projection has a decimal point. *)
Lemma projection_point (text : str) (m : match_obj) :
  In m (finditer long_term_projection_pattern text) ->
  contains $"." (group m 3) = true.
Proof.
  intros H. apply finditer_match in H. destruct H as [s0 H].
  apply match_here_consumes in H. destruct H as [s' [cs' [H ->]]].
  unfold long_term_projection_pattern in H. cbn [seqs] in H.
  cbn [consumes] in H.
  destruct H as [s1 [cs1 [_ [s2 [cs2 [_ [s3 [cs3 [_
         [s4 [cs4 [_ [s5 [cs5 [_ [c6 [HV E6]]]]]]]]]]]]]]]]].
  subst cs'. unfold group. cbn [groups lookup Nat.eqb].
  unfold decimal_number in HV. cbn [seqs consumes plus] in HV.
  destruct HV as [t1 [ct1 [[_ [run1 [E1 _]]]
                    [t2 [ct2 [[c [E2 [Ec _]]] [_ [run2 [E3 _]]]]]]]]].
  apply ascii_eqb_true in Ec. subst.
  replace (run1 ++ "."%char :: run2 ++ s')
    with ((run1 ++ "."%char :: run2) ++ s')
    by (rewrite <- app_assoc; reflexivity).
  rewrite firstn_consumed. apply contains_app_r. reflexivity.
Qed.

(** The validator returns the message of the first flagged projection. *)
Lemma validate_numerical_find (current_date : datetime) (text : str) :
  validate_numerical_reasonableness current_date text =
  Ok (match find (flagged current_date)
                 (finditer long_term_projection_pattern text) with
      | Some m =>
          (false, precision_message m (year_of m - dt_year current_date))
      | None => (true, $"No unreasonable numerical projections detected")
      end).
Proof.
  unfold validate_numerical_reasonableness.
  rewrite first_too_precise_find.
  - destruct (find _ _); reflexivity.
  - intros m H. now apply projection_year in H.
Qed.

Lemma find_existsb {A} (f : A -> bool) (l : list A) :
  match find f l with Some _ => true | None => false end = existsb f l.
Proof.
  induction l as [| x t IH]; [reflexivity |].
  cbn [find existsb]. destruct (f x); [reflexivity | exact IH].
Qed.

Lemma existsb_ext_in {A} (f g : A -> bool) (l : list A) :
  (forall x, In x l -> f x = g x) -> existsb f l = existsb g l.
Proof.
  induction l as [| x t IH]; intros H; [reflexivity |].
  cbn [existsb]. rewrite (H x (or_introl eq_refl)), IH; [reflexivity |].
  intros y Hy. apply H. now right.
Qed.

(** Whether a projection is flagged is decided by its year. *)
Lemma flagged_by_year (current_date : datetime) (text : str) (m : match_obj) :
  In m (finditer long_term_projection_pattern text) ->
  flagged current_date m = (dt_year current_date + 10 <? year_of m)%Z.
Proof.
  intros H. unfold flagged. rewrite (projection_point text m H).
  rewrite andb_true_r.
  destruct (Z.ltb_spec 10 (year_of m - dt_year current_date));
    destruct (Z.ltb_spec (dt_year current_date + 10) (year_of m));
    reflexivity || lia.
Qed.
End ValidatorFacts.

(** X7. A text accepted by the temporal validator at some reference date
    is accepted at every earlier reference date: moving the reference date
    back never turns an event into a past one. *)
Theorem temporal_validity_survives_earlier_date
        (d1 d2 : datetime) (text msg : str)
        (Hd : dt_ltb d2 d1 = false)
        (Hv : ContentClassifier.validate_temporal_consistency d2 text =
              Ok (true, msg)) :
  ContentClassifier.validate_temporal_consistency d1 text =
  Ok (true, $"No temporal inconsistencies detected").
Proof.
  rewrite validate_temporal_find in *.
  assert (Hp : forall m, ClassifierSpec.past d1 m = true ->
                         ClassifierSpec.past d2 m = true).
  { intros m. now apply past_later. }
  destruct (find (ClassifierSpec.past d2)
                 (finditer ContentClassifier.upcoming_pattern text)) eqn:E1;
    [discriminate |].
  destruct (find (ClassifierSpec.past d2)
                 (finditer ContentClassifier.scheduled_pattern text)) eqn:E2;
    [discriminate |].
  rewrite (find_none_later _ _ _ Hp E1), (find_none_later _ _ _ Hp E2).
  reflexivity.
Qed.

Lemma temporal_validity_survives_earlier_date_witness :
  ContentClassifier.validate_temporal_consistency
    (MkDatetime 2023 11 2 9 30 0 0)
    $"The launch is scheduled for March 2024, before the upcoming fair in June 2024" =
  Ok (true, $"No temporal inconsistencies detected").
Proof.
  apply (temporal_validity_survives_earlier_date
           (MkDatetime 2023 11 2 9 30 0 0) (MkDatetime 2024 3 1 0 0 0 0)
           _ $"No temporal inconsistencies detected");
    vm_compute; reflexivity.
Defined.

(** X8. An ASCII text without the word "upcoming" and without the word
    "scheduled", in any letter case, is accepted by the temporal validator
    whatever the reference date.  Nothing is said of text that is not
    ASCII, where [(?i)] finds the two words in more spellings than
    [str.lower] does. *)
Theorem temporal_validator_needs_a_keyword
        (current_date : datetime) (text : str)
        (Hascii : isascii text = true)
        (Hu : contains $"upcoming" (lower text) = false)
        (Hs : contains $"scheduled" (lower text) = false) :
  ContentClassifier.validate_temporal_consistency current_date text =
  Ok (true, $"No temporal inconsistencies detected").
Proof.
  rewrite validate_temporal_find.
  unfold ContentClassifier.upcoming_pattern,
    ContentClassifier.scheduled_pattern.
  cbn [seqs]. rewrite !finditer_needs_word by assumption. reflexivity.
Qed.

Lemma temporal_validator_needs_a_keyword_witness :
  ContentClassifier.validate_temporal_consistency
    Offline.march_15 $"The conference took place in January 2023" =
  Ok (true, $"No temporal inconsistencies detected").
Proof.
  apply temporal_validator_needs_a_keyword; vm_compute; reflexivity.
Defined.

(** X9. The numerical validator rejects a text exactly when the year of
    some matched projection is more than ten years after the reference
    year: the literal of a match always has its decimal point, so the test
    for one never decides.  As the matched years end at 2099, nothing is
    rejected once the reference year is 2089 or later. *)
Theorem numerical_rejection_is_by_year_alone
        (current_date : datetime) (text : str) (later : nat)
        (mo dd hh mi ss us : Z) :
  let ms := finditer ContentClassifier.long_term_projection_pattern text in
  (exists msg,
     ContentClassifier.validate_numerical_reasonableness current_date text =
     Ok (negb (existsb (fun m => (dt_year current_date + 10 <?
                                  ClassifierSpec.year_of m)%Z) ms), msg)) /\
  forallb (fun m => contains $"." (ContentClassifier.remove_commas (group m 3)))
          ms = true /\
  ContentClassifier.validate_numerical_reasonableness
    (MkDatetime (2089 + Z.of_nat later) mo dd hh mi ss us) text =
  Ok (true, $"No unreasonable numerical projections detected").
Proof.
  cbv zeta.
  assert (E : forall d,
             existsb (ClassifierSpec.flagged d)
                     (finditer ContentClassifier.long_term_projection_pattern
                               text) =
             existsb (fun m => (dt_year d + 10 <? ClassifierSpec.year_of m)%Z)
                     (finditer ContentClassifier.long_term_projection_pattern
                               text)).
  { intros d. apply existsb_ext_in. intros m. apply flagged_by_year. }
  split; [| split].
  - rewrite validate_numerical_find, <- E, <- find_existsb.
    destruct (find _ _); eexists; reflexivity.
  - apply forallb_forall. intros m H.
    rewrite remove_commas_point. now apply (projection_point text).
  - rewrite validate_numerical_find.
    pose proof (find_existsb
                  (ClassifierSpec.flagged
                     (MkDatetime (2089 + Z.of_nat later) mo dd hh mi ss us))
                  (finditer ContentClassifier.long_term_projection_pattern
                            text)) as F.
    rewrite E in F.
    destruct (find _ _); [| reflexivity]. exfalso.
    symmetry in F. apply existsb_exists in F. destruct F as [m1 [Hin Hm]].
    apply projection_year in Hin. cbn [dt_year] in Hm.
    apply Z.ltb_lt in Hm. lia.
Qed.

(** X10. A text accepted by the numerical validator is accepted with every
    reference date of the same or a later year; the month and the day of
    the reference date play no part. *)
Theorem numerical_validity_survives_later_year
        (d1 d2 : datetime) (text msg : str)
        (Hy : (dt_year d1 <= dt_year d2)%Z)
        (Hv : ContentClassifier.validate_numerical_reasonableness d1 text =
              Ok (true, msg)) :
  ContentClassifier.validate_numerical_reasonableness d2 text =
  Ok (true, $"No unreasonable numerical projections detected").
Proof.
  rewrite validate_numerical_find in *.
  destruct (find (ClassifierSpec.flagged d1) _) eqn:E1; [discriminate |].
  rewrite (find_none_later (ClassifierSpec.flagged d1)
                           (ClassifierSpec.flagged d2)); [reflexivity | | exact E1].
  intros m. unfold ClassifierSpec.flagged. intros H.
  apply andb_true_iff in H. destruct H as [H1 H2].
  apply Z.ltb_lt in H1. apply andb_true_iff. split; [| exact H2].
  apply Z.ltb_lt. lia.
Qed.

Lemma numerical_validity_survives_later_year_witness :
  ContentClassifier.validate_numerical_reasonableness
    (MkDatetime 2026 1 1 0 0 0 0)
    $"By 2035, the market will reach exactly $42.75 billion" =
  Ok (true, $"No unreasonable numerical projections detected").
Proof.
  apply (numerical_validity_survives_later_year
           (MkDatetime 2025 7 4 12 0 0 0) (MkDatetime 2026 1 1 0 0 0 0)
           _ $"No unreasonable numerical projections detected");
    vm_compute; [discriminate | reflexivity].
Defined.

(** ** AutoTuner: initial parameters, time usage, contradictions *)

Section TunerFacts.
Context {R : Rounding} {L : RoundingLaws R}.
Import TunerSpec.

(** Rounding sends equal numbers to equal numbers. *)
Lemma rnd_eq (x y : Q) : (x == y)%Q -> (rnd x == rnd y)%Q.
Proof.
  intros H. apply Qle_antisym; apply rnd_mono; rewrite H; apply Qle_refl.
Qed.

Lemma representable_int (n : Z) :
  (Z.abs n < 2 ^ 53)%Z -> representable (inject_Z n).
Proof.
  intros H. exists n, 0%Z. split; [exact H |]. split; [lia |].
  unfold Qeq. cbn. lia.
Qed.

Lemma of_int_exact (n : Z) :
  (Z.abs n < 2 ^ 53)%Z -> (of_int n == inject_Z n)%Q.
Proof. intros H. apply rnd_fix, representable_int, H. Qed.

Lemma of_int_ge_1 (n : Z) : (1 <= n)%Z -> (1 <= of_int n)%Q.
Proof.
  intros H. apply rnd_ge; [| apply representable_1].
  change 1%Q with (inject_Z 1). now rewrite <- Zle_Qle.
Qed.

(** [round] is monotone. *)
Lemma round_mono (x y : Q) : (x <= y)%Q -> (Float.round x <= Float.round y)%Z.
Proof.
  intros H. unfold Float.round.
  pose proof (Qfloor_resp_le x y H) as Hf.
  pose proof (Qfloor_le x) as Hx1. pose proof (Qlt_floor x) as Hx2.
  pose proof (Qfloor_le y) as Hy1. pose proof (Qlt_floor y) as Hy2.
  set (fx := Qfloor x) in *. set (fy := Qfloor y) in *.
  rewrite inject_Z_plus in Hx2, Hy2.
  change (inject_Z 1) with 1%Q in Hx2, Hy2.
  destruct (Z.eq_dec fx fy) as [E | Hn].
  - rewrite <- E in *. clear E Hf. cbv zeta.
    unfold Float.gtb. rewrite !ltb_dec.
    repeat match goal with
           | |- context [Qlt_le_dec ?a ?b] => destruct (Qlt_le_dec a b)
           end;
      destruct (Z.even fx); try lia; exfalso; lra.
  - assert (Hlt : (fx + 1 <= fy)%Z) by lia.
    assert (Ux : (match Float.ltb (x - inject_Z fx) (1 # 2) with
                  | true => fx
                  | false => if Float.gtb (x - inject_Z fx) (1 # 2)
                             then fx + 1
                             else if Z.even fx then fx else fx + 1
                  end <= fx + 1)%Z).
    { destruct (Float.ltb (x - inject_Z fx) (1 # 2)); [lia |].
      destruct (Float.gtb (x - inject_Z fx) (1 # 2)); [lia |].
      destruct (Z.even fx); lia. }
    assert (Ly : (fy <= match Float.ltb (y - inject_Z fy) (1 # 2) with
                        | true => fy
                        | false => if Float.gtb (y - inject_Z fy) (1 # 2)
                                   then fy + 1
                                   else if Z.even fy then fy else fy + 1
                        end)%Z).
    { destruct (Float.ltb (y - inject_Z fy) (1 # 2)); [lia |].
      destruct (Float.gtb (y - inject_Z fy) (1 # 2)); [lia |].
      destruct (Z.even fy); lia. }
    cbv zeta. lia.
Qed.

Lemma round_eq (x y : Q) : (x == y)%Q -> Float.round x = Float.round y.
Proof.
  intros H. apply Z.le_antisymm; apply round_mono; rewrite H; apply Qle_refl.
Qed.

Lemma round_int (n : Z) : Float.round (inject_Z n) = n.
Proof.
  unfold Float.round. rewrite Qfloor_Z.
  assert (E : (inject_Z n - inject_Z n == 0)%Q) by ring.
  rewrite ltb_dec.
  destruct (Qlt_le_dec (inject_Z n - inject_Z n) (1 # 2)) as [_ | H];
    [reflexivity |].
  exfalso. rewrite E in H. revert H. unfold Qle. cbn. lia.
Qed.

Lemma scaled_mono (lo hi : Z) (s1 s2 : Q) :
  (lo <= hi)%Z -> (s1 <= s2)%Q -> (scaled lo hi s1 <= scaled lo hi s2)%Q.
Proof.
  intros H Hs. unfold scaled. apply fadd_mono; [apply Qle_refl |].
  apply fmul_mono; [| exact Hs]. apply of_int_nonneg. lia.
Qed.

Lemma scaled_0 (lo hi : Z) (s : Q) :
  (Z.abs lo < 2 ^ 53)%Z -> (s == 0)%Q -> (scaled lo hi s == inject_Z lo)%Q.
Proof.
  intros Hlo Hs. unfold scaled, fadd, fmul.
  assert (E1 : (rnd (s * of_int (hi - lo)) == 0)%Q).
  { apply (Qeq_trans _ (rnd 0)); [| apply rnd_fix, representable_0].
    apply rnd_eq. rewrite Hs. ring. }
  apply (Qeq_trans _ (rnd (inject_Z lo)));
    [| apply rnd_fix, representable_int, Hlo].
  apply rnd_eq. rewrite E1, (of_int_exact lo Hlo). ring.
Qed.

Lemma scaled_1 (lo hi : Z) (s : Q) :
  (Z.abs lo < 2 ^ 53)%Z -> (Z.abs hi < 2 ^ 53)%Z ->
  (Z.abs (hi - lo) < 2 ^ 53)%Z ->
  (s == 1)%Q -> (scaled lo hi s == inject_Z hi)%Q.
Proof.
  intros Hlo Hhi Hd Hs. unfold scaled, fadd, fmul.
  assert (E1 : (rnd (s * of_int (hi - lo)) == inject_Z (hi - lo))%Q).
  { apply (Qeq_trans _ (rnd (inject_Z (hi - lo))));
      [| apply rnd_fix, representable_int, Hd].
    apply rnd_eq. rewrite Hs, (of_int_exact _ Hd). ring. }
  apply (Qeq_trans _ (rnd (inject_Z hi)));
    [| apply rnd_fix, representable_int, Hhi].
  apply rnd_eq. rewrite E1, (of_int_exact lo Hlo).
  rewrite <- inject_Z_plus. apply inject_Z_injective. lia.
Qed.

Lemma determine_initial_parameters_scaled (self : AutoTuner.AutoTuner)
      (m : AutoTuner.ComplexityMetrics) :
  AutoTuner.determine_initial_parameters self m =
  (Z.max 1 (Z.min (AutoTuner.max_depth self)
                  (Float.round (scaled 1 (AutoTuner.max_depth self)
                                       (AutoTuner.complexity_score m)))),
   Z.max 2 (Z.min (AutoTuner.max_breadth self)
                  (Float.round (scaled 2 (AutoTuner.max_breadth self)
                                       (AutoTuner.complexity_score m))))).
Proof. reflexivity. Qed.


(** X12. A complexity score of 0 gives the smallest parameters, depth 1
    and breadth 2, and a score of 1 the largest, [max_depth] and
    [max_breadth] (for limits a float holds exactly, below 2^53). *)
Theorem initial_parameters_at_the_ends
        (self : AutoTuner.AutoTuner) (m0 m1 : AutoTuner.ComplexityMetrics)
        (Hd : (1 <= AutoTuner.max_depth self < 2 ^ 53)%Z)
        (Hb : (2 <= AutoTuner.max_breadth self < 2 ^ 53)%Z)
        (H0 : (AutoTuner.complexity_score m0 == 0)%Q)
        (H1 : (AutoTuner.complexity_score m1 == 1)%Q) :
  AutoTuner.determine_initial_parameters self m0 = (1, 2)%Z /\
  AutoTuner.determine_initial_parameters self m1 =
    (AutoTuner.max_depth self, AutoTuner.max_breadth self).
Proof.
  rewrite !determine_initial_parameters_scaled.
  rewrite (round_eq _ _ (scaled_0 1 _ _ ltac:(lia) H0)).
  rewrite (round_eq _ _ (scaled_0 2 _ _ ltac:(lia) H0)).
  rewrite (round_eq _ _ (scaled_1 1 (AutoTuner.max_depth self) _
                                  ltac:(lia) ltac:(lia) ltac:(lia) H1)).
  rewrite (round_eq _ _ (scaled_1 2 (AutoTuner.max_breadth self) _
                                  ltac:(lia) ltac:(lia) ltac:(lia) H1)).
  rewrite !round_int. split; f_equal; lia.
Qed.

Lemma rnd_zero (x : Q) : (x == 0)%Q -> (rnd x == 0)%Q.
Proof.
  intros H. apply (Qeq_trans _ (rnd 0)); [| apply rnd_fix, representable_0].
  now apply rnd_eq.
Qed.

Lemma weighted_complexity_nonneg (e a k : Z) :
  (0 <= e)%Z -> (0 <= a)%Z -> (0 <= k)%Z ->
  (0 <= AutoTuner.weighted_complexity e a k)%Q.
Proof.
  intros He Ha Hk. unfold AutoTuner.weighted_complexity, fadd, fmul.
  assert (P : forall n c, (0 <= n)%Z -> (0 <= c)%Q ->
                          (0 <= rnd (of_int n * c))%Q).
  { intros n c Hn Hc. apply rnd_nonneg, Qmult_le_0_compat; [| exact Hc].
    now apply of_int_nonneg. }
  pose proof (P e f0_5 He ltac:(unfold f0_5, Qle; cbn; lia)).
  pose proof (P a f0_3 Ha ltac:(unfold f0_3, Qle; cbn; lia)).
  pose proof (P k f0_7 Hk ltac:(unfold f0_7, Qle; cbn; lia)).
  apply rnd_nonneg.
  apply (Qplus_le_compat 0 _ 0 _); [| assumption].
  apply rnd_nonneg. now apply (Qplus_le_compat 0 _ 0 _).
Qed.

Lemma weighted_complexity_zero :
  (AutoTuner.weighted_complexity 0 0 0 == 0)%Q.
Proof.
  unfold AutoTuner.weighted_complexity, fadd, fmul.
  assert (Z0 : (of_int 0 == 0)%Q) by (apply rnd_fix, representable_0).
  assert (P : forall c, (rnd (of_int 0 * c) == 0)%Q).
  { intros c. apply rnd_zero. rewrite Z0. ring. }
  apply rnd_zero. rewrite (P f0_7).
  rewrite (rnd_zero (rnd (of_int 0 * f0_5) + rnd (of_int 0 * f0_3))).
  - ring.
  - rewrite (P f0_5), (P f0_3). ring.
Qed.

(** X13. [analyze_question_complexity] never raises; its score lies in
    [[0, 1]] and its three counts are those of the entities, the aspects
    and the keywords of the query.  For the empty query everything is 0. *)
Theorem analyze_question_complexity_in_unit_interval (query : str) :
  (exists m,
     AutoTuner.analyze_question_complexity query = Ok m /\
     (0 <= AutoTuner.complexity_score m <= 1)%Q /\
     AutoTuner.entity_count m = Z.of_nat (AutoTuner.count_entities query) /\
     AutoTuner.aspect_count m = Z.of_nat (AutoTuner.count_aspects query) /\
     AutoTuner.complexity_keyword_count m =
       Z.of_nat (AutoTuner.count_keywords query)) /\
  (exists m0,
     AutoTuner.analyze_question_complexity [] = Ok m0 /\
     (AutoTuner.complexity_score m0 == 0)%Q /\
     AutoTuner.entity_count m0 = 0%Z /\
     AutoTuner.aspect_count m0 = 0%Z /\
     AutoTuner.complexity_keyword_count m0 = 0%Z).
Proof.
  unfold AutoTuner.analyze_question_complexity, fdiv.
  change (Qeq_bool 10 0) with false. cbv zeta iota. cbn [res_bind].
  split.
  - eexists. split; [reflexivity |].
    cbn [AutoTuner.complexity_score AutoTuner.entity_count
         AutoTuner.aspect_count AutoTuner.complexity_keyword_count].
    split; [| repeat split].
    apply fmin_unit, rnd_nonneg, Qdiv_nonneg;
      [apply weighted_complexity_nonneg; lia | unfold Qle; cbn; lia].
  - eexists. split; [reflexivity |].
    cbn [AutoTuner.complexity_score AutoTuner.entity_count
         AutoTuner.aspect_count AutoTuner.complexity_keyword_count].
    split; [| repeat split].
    change (AutoTuner.count_entities []) with 0%nat.
    change (AutoTuner.count_aspects []) with 0%nat.
    change (AutoTuner.count_keywords []) with 0%nat.
    cbn [Z.of_nat].
    assert (E : (rnd (AutoTuner.weighted_complexity 0 0 0 / 10) == 0)%Q).
    { apply rnd_zero. rewrite weighted_complexity_zero. reflexivity. }
    unfold fmin. rewrite ltb_dec.
    destruct (Qlt_le_dec _ 1) as [_ | H]; [exact E |].
    exfalso. rewrite E in H. revert H. unfold Qle. cbn. lia.
Qed.

(** X14. With a time budget of 0 seconds [get_time_usage_fraction]
    raises a division by zero as soon as the start time is set: only a
    budget of [None] is treated as "no budget".  Without a budget, or
    before the start time is set, the fraction is 0. *)
Theorem time_usage_with_zero_budget_raises
        (max_depth max_breadth : Z) (budget : option Z) (start : option Q)
        (st now : Q) :
  AutoTuner.get_time_usage_fraction
    (AutoTuner.MkAutoTuner max_depth max_breadth (Some 0%Z) (Some st)) now =
    Raise (Exn $"float division by zero") /\
  AutoTuner.get_time_usage_fraction
    (AutoTuner.MkAutoTuner max_depth max_breadth None start) now = Ok 0%Q /\
  AutoTuner.get_time_usage_fraction
    (AutoTuner.MkAutoTuner max_depth max_breadth budget None) now = Ok 0%Q.
Proof.
  split; [| split].
  - unfold AutoTuner.get_time_usage_fraction.
    cbn [AutoTuner.time_budget_seconds AutoTuner.start_time]. unfold fdiv.
    assert (E : Qeq_bool (of_int 0) 0 = true).
    { apply Qeq_bool_iff, rnd_fix, representable_0. }
    rewrite E. reflexivity.
  - reflexivity.
  - unfold AutoTuner.get_time_usage_fraction.
    cbn [AutoTuner.time_budget_seconds AutoTuner.start_time].
    destruct budget; reflexivity.
Qed.


Lemma fmax_mono (a x y : Q) : (x <= y)%Q -> (fmax a x <= fmax a y)%Q.
Proof.
  intros H. unfold fmax, Float.gtb. rewrite !ltb_dec.
  destruct (Qlt_le_dec a x); destruct (Qlt_le_dec a y);
    try assumption; try apply Qle_refl.
  - exfalso. lra.
  - now apply Qlt_le_weak.
Qed.

(** The contradiction score does not grow with the contradictions. *)
Lemma contradiction_score_antitone (learnings : list str)
      (cs1 cs2 : list Memory.Contradiction) :
  (length cs1 <= length cs2)%nat ->
  exists v1 v2,
    AutoTuner.contradiction_score learnings cs1 = Ok v1 /\
    AutoTuner.contradiction_score learnings cs2 = Ok v2 /\
    (v2 <= v1)%Q.
Proof.
  intros H. unfold AutoTuner.contradiction_score, int_truediv. cbv zeta.
  destruct (Z.eqb_spec (Z.max 1 (Z.of_nat (length learnings))) 0) as [E | _];
    [lia |].
  cbn [res_bind]. eexists. eexists. split; [reflexivity |].
  split; [reflexivity |].
  apply fmax_mono. unfold fsub. apply rnd_mono.
  apply Qplus_le_compat; [apply Qle_refl |]. apply Qopp_le_compat.
  apply fmul_mono; [apply of_int_nonneg; lia |].
  apply rnd_mono. unfold Qdiv. apply Qmult_le_compat_r.
  - rewrite <- Zle_Qle. lia.
  - apply Qinv_le_0_compat. apply inject_Z_nonneg. lia.
Qed.

(** X16. More contradictions never raise the estimated quality of the
    same learnings. *)
Theorem more_contradictions_never_raise_quality
        (learnings : list str) (cs1 cs2 : list Memory.Contradiction)
        (H : (length cs1 <= length cs2)%nat) :
  exists q1 q2,
    AutoTuner.estimate_info_quality learnings cs1 = Ok q1 /\
    AutoTuner.estimate_info_quality learnings cs2 = Ok q2 /\
    (q2 <= q1)%Q.
Proof.
  destruct learnings as [| l0 rest].
  - exists 0%Q, 0%Q. repeat split. apply Qle_refl.
  - destruct (length_score_unit (l0 :: rest)) as [ls [El Hl]]; [discriminate |].
    destruct (diversity_score_unit (l0 :: rest)) as [ds [Ed Hd]].
    destruct (contradiction_score_antitone (l0 :: rest) cs1 cs2 H)
      as [v1 [v2 [E1 [E2 Hv]]]].
    unfold AutoTuner.estimate_info_quality. rewrite El, Ed, E1, E2.
    cbn [res_bind]. eexists. eexists. split; [reflexivity |].
    split; [reflexivity |].
    apply fadd_mono; [| apply Qle_refl].
    apply fadd_mono; [apply Qle_refl |].
    apply fmul_mono; [unfold f0_3, Qle; cbn; lia | exact Hv].
Qed.
End TunerFacts.

(** The theorems above in exact arithmetic. *)


Lemma initial_parameters_at_the_ends_witness :
  AutoTuner.determine_initial_parameters
    (R := exact) (AutoTuner.init 5 8 None) (AutoTuner.MkMetrics 0 0 0 0) =
    (1, 2)%Z /\
  AutoTuner.determine_initial_parameters
    (R := exact) (AutoTuner.init 5 8 None) (AutoTuner.MkMetrics 1 9 9 9) =
    (5, 8)%Z.
Proof.
  apply (initial_parameters_at_the_ends
           (R := exact) (L := exact_laws) (AutoTuner.init 5 8 None)
           (AutoTuner.MkMetrics 0 0 0 0) (AutoTuner.MkMetrics 1 9 9 9));
    cbn; try lia; reflexivity.
Defined.

Lemma analyze_question_complexity_in_unit_interval_witness :
  exists m,
    AutoTuner.analyze_question_complexity
      (R := exact)
      $"Compare and contrast the impact of Python, Rust and Go on IBM"
      = Ok m /\
    (0 <= AutoTuner.complexity_score m <= 1)%Q.
Proof.
  destruct (analyze_question_complexity_in_unit_interval
              (R := exact) (L := exact_laws)
              $"Compare and contrast the impact of Python, Rust and Go on IBM")
    as [[m [E [H _]]] _].
  exists m. split; [exact E | exact H].
Defined.

Lemma time_usage_with_zero_budget_raises_witness :
  AutoTuner.get_time_usage_fraction
    (R := exact) (AutoTuner.MkAutoTuner 5 8 (Some 0%Z) (Some 100%Q)) 160 =
  Raise (Exn $"float division by zero").
Proof.
  apply (time_usage_with_zero_budget_raises
           (R := exact) (L := exact_laws) 5 8 None None 100 160).
Defined.


Lemma more_contradictions_never_raise_quality_witness :
  exists q1 q2,
    AutoTuner.estimate_info_quality
      (R := exact) [$"Revenue grew in 2023"; $"Revenue fell in 2023"] [] =
      Ok q1 /\
    AutoTuner.estimate_info_quality
      (R := exact) [$"Revenue grew in 2023"; $"Revenue fell in 2023"]
      [Memory.MkContradiction $"Performance" $"Revenue grew in 2023"
                              $"Revenue fell in 2023" [] [] []] =
      Ok q2 /\
    (q2 <= q1)%Q.
Proof.
  apply (more_contradictions_never_raise_quality (R := exact) (L := exact_laws)).
  cbn. lia.
Defined.

(** ** The engine: what its computations leave as they found it *)

Section EngineLogic.
Context {R : Rounding}.
Variable World : Type.
Variable P : Engine.Providers World.
Import Engine EngineSpec.

#[local] Instance same_mode_frame : Frame (World := World) same_mode.
Proof.
  split; unfold same_mode; intros; try reflexivity. congruence.
Qed.

#[local] Instance same_totals_frame : Frame (World := World) same_totals.
Proof.
  split; unfold same_totals.
  - intros st p H. now exists p.
  - intros a b c H1 H2 p Hp.
    destruct (H1 p Hp) as [p1 [E1 [D1 B1]]].
    destruct (H2 p1 E1) as [p2 [E2 [D2 B2]]].
    exists p2. repeat split; congruence.
  - intros m st p H. now exists p.
  - intros w st p H. now exists p.
  - intros a st p H. now exists p.
  - intros st p H. now exists p.
Qed.

#[local] Instance same_pending_frame : Frame (World := World) same_pending.
Proof.
  split; unfold same_pending, pending.
  - intros st. now split.
  - intros a b c [H1 E1] [H2 E2]. split; [auto | congruence].
  - intros m st. now split.
  - intros w st. now split.
  - intros a st. now split.
  - intros st. now split.
Qed.

#[local] Instance same_progress_frame : Frame (World := World) same_progress.
Proof.
  split; unfold same_progress; intros; try reflexivity. congruence.
Qed.

Section Respects.
Variable Rel : State World -> State World -> Prop.
Context {F : Frame Rel}.

Lemma respects_ret {A} (a : A) : respects Rel (ret a).
Proof. intros st. exact (frame_refl st). Qed.

Lemma respects_raise {A} (e : exn) : respects Rel (A := A) (raise e).
Proof. intros st. exact (frame_refl st). Qed.

Lemma respects_diverge {A} : respects Rel (A := A) diverge.
Proof. intros st. exact (frame_refl st). Qed.

Lemma respects_get : respects Rel get.
Proof. intros st. exact (frame_refl st). Qed.

Lemma respects_lift_res {A} (r : res A) : respects Rel (lift_res r).
Proof. destruct r; [apply respects_ret | apply respects_raise]. Qed.

Lemma respects_modify (f : State World -> State World) :
  (forall st, Rel st (f st)) -> respects Rel (modify f).
Proof. intros H st. apply H. Qed.

Lemma respects_bind {A B} (c : M World A) (k : A -> M World B) :
  respects Rel c -> (forall a, respects Rel (k a)) -> respects Rel (bind c k).
Proof.
  intros Hc Hk st. unfold bind. specialize (Hc st).
  destruct (c st) as [[a | e |] st']; cbn [fst snd] in *; try assumption.
  eapply frame_trans; [exact Hc | apply Hk].
Qed.

Lemma respects_try_except {A} (c : M World A) (h : exn -> M World A) :
  respects Rel c -> (forall e, respects Rel (h e)) ->
  respects Rel (try_except c h).
Proof.
  intros Hc Hh st. unfold try_except. specialize (Hc st).
  destruct (c st) as [[a | e |] st']; cbn [fst snd] in *; try assumption.
  eapply frame_trans; [exact Hc | apply Hh].
Qed.

Lemma respects_for_each {A} (l : list A) (body : A -> M World unit) :
  (forall x, respects Rel (body x)) -> respects Rel (for_each l body).
Proof.
  intros H. induction l as [| x l IH]; cbn [for_each].
  - apply respects_ret.
  - apply respects_bind; [apply H | intros _; exact IH].
Qed.

Lemma respects_for_each_numbered {A} (l : list A)
      (body : Z -> A -> M World unit) :
  (forall i x, respects Rel (body i x)) ->
  forall i, respects Rel (for_each_numbered i l body).
Proof.
  intros H. induction l as [| x l IH]; intros i; cbn [for_each_numbered].
  - apply respects_ret.
  - apply respects_bind; [apply H | intros _; apply IH].
Qed.

Lemma respects_now : respects Rel (now World P).
Proof.
  intros st. unfold now. destruct (clock World P (world st)).
  apply frame_world.
Qed.

Lemma respects_event_loop_time : respects Rel (event_loop_time World P).
Proof.
  intros st. unfold event_loop_time. destruct (loop_time World P (world st)).
  apply frame_world.
Qed.

Lemma respects_call {A} (f : external World A) : respects Rel (call World f).
Proof.
  intros st. unfold call. destruct (f (world st) (memory st)) as [[r m] w].
  assert (H : Rel st (set_world World w (set_memory World m st))).
  { eapply frame_trans; [apply frame_memory | apply frame_world]. }
  destruct r; exact H.
Qed.

Lemma respects_request_serp_queries (prompt : str) :
  respects Rel (request_serp_queries World P prompt).
Proof.
  intros st. unfold request_serp_queries.
  destruct (generate_serp World P (model st) prompt (world st)) as [r w].
  destruct r; apply frame_world.
Qed.

Lemma respects_memory_add_thought (t : str) :
  respects Rel (memory_add_thought World P t).
Proof.
  unfold memory_add_thought. apply respects_bind; [apply respects_now |].
  intros d. apply respects_modify. intros st. apply frame_memory.
Qed.

Lemma respects_progress_update (f : ResearchProgress -> ResearchProgress) :
  (forall st p, progress st = Some p ->
                Rel st (set_progress World (Some (f p)) st)) ->
  respects Rel (progress_update World P f).
Proof.
  intros H. unfold progress_update. intros st. unfold bind, get.
  destruct (progress st) as [p |] eqn:E; [| exact (frame_refl st)].
  unfold modify. specialize (H st p E).
  unfold now. cbn [world set_progress].
  destruct (clock World P (world st)) as [t w]. cbn [snd].
  eapply frame_trans; [exact H | apply frame_world].
Qed.

(** One step of the proof that a computation respects [Rel]. *)
Ltac respects_step :=
  first
    [ apply respects_ret | apply respects_raise | apply respects_get
    | apply respects_lift_res | apply respects_now
    | apply respects_event_loop_time
    | apply respects_call | apply respects_memory_add_thought
    | apply respects_request_serp_queries
    | apply respects_modify; intro;
      first [apply frame_memory | apply frame_tuner | apply frame_count]
    | apply respects_for_each; intro
    | apply respects_for_each_numbered; intros
    | apply respects_bind; [| intro]
    | apply respects_try_except; [| intro]
    | match goal with
      | |- respects _ (match ?x with _ => _ end) => destruct x
      | |- respects _ (if ?b then _ else _) => destruct b
      | |- respects _ (let '(_, _) := ?x in _) => destruct x
      end ].

Lemma respects_determine_auto_parameters (q : str) :
  respects Rel (determine_auto_parameters World P q).
Proof. unfold determine_auto_parameters. repeat respects_step. Qed.

Lemma respects_generate_serp_queries (q : str) (n : Z) :
  respects Rel (generate_serp_queries World P q n).
Proof. unfold generate_serp_queries. repeat respects_step. Qed.

Lemma respects_time_usage (tuner : AutoTuner.AutoTuner) :
  respects Rel (time_usage World P tuner).
Proof. unfold time_usage. repeat respects_step. Qed.

Lemma respects_adjust_parameters (d b : Z) :
  respects Rel (adjust_parameters World P d b).
Proof.
  unfold adjust_parameters.
  repeat first [apply respects_time_usage | respects_step].
Qed.

Lemma respects_execute_query (sq : SerpQuery) (d b : Z) :
  (forall st p, progress st = Some p ->
                Rel st (set_progress World
                          (Some (set_current d b (query sq) p)) st)) ->
  respects Rel (execute_query World P sq d b).
Proof.
  intros H. unfold execute_query.
  repeat first [apply respects_progress_update; exact H | respects_step].
Qed.
End Respects.

(** *** Computations that never raise *)

Lemma never_raises_ret {A} (a : A) : never_raises (World := World) (ret a).
Proof. intros st e. discriminate. Qed.

Lemma never_raises_get : never_raises (World := World) get.
Proof. intros st e. discriminate. Qed.

Lemma never_raises_modify (f : State World -> State World) :
  never_raises (modify f).
Proof. intros st e. discriminate. Qed.

Lemma never_raises_now : never_raises (now World P).
Proof.
  intros st e. unfold now. destruct (clock World P (world st)). discriminate.
Qed.

Lemma never_raises_bind {A B} (c : M World A) (k : A -> M World B) :
  never_raises c -> (forall a, never_raises (k a)) -> never_raises (bind c k).
Proof.
  intros Hc Hk st e. unfold bind. specialize (Hc st).
  destruct (c st) as [[a | e' |] st']; cbn [fst] in *.
  - apply Hk.
  - now contradiction (Hc e').
  - discriminate.
Qed.

(** A handler that never raises makes the whole [try] never raise. *)
Lemma never_raises_try_except {A} (c : M World A) (h : exn -> M World A) :
  (forall e, never_raises (h e)) -> never_raises (try_except c h).
Proof.
  intros Hh st e. unfold try_except.
  destruct (c st) as [[a | e' |] st']; cbn [fst]; try discriminate.
  apply Hh.
Qed.

Lemma never_raises_memory_add_thought (t : str) :
  never_raises (memory_add_thought World P t).
Proof.
  unfold memory_add_thought.
  apply never_raises_bind; [apply never_raises_now |].
  intros d. apply never_raises_modify.
Qed.

Lemma never_raises_execute_query (sq : SerpQuery) (d b : Z) :
  never_raises (execute_query World P sq d b).
Proof.
  unfold execute_query.
  apply never_raises_bind; [apply never_raises_memory_add_thought | intros _].
  apply never_raises_bind; [apply never_raises_memory_add_thought | intros _].
  apply never_raises_try_except. intros e.
  apply never_raises_bind; [apply never_raises_memory_add_thought | intros _].
  apply never_raises_ret.
Qed.

(** *** What a computation returns *)

Lemma yields_ret {A} (Q : A -> Prop) (a : A) :
  Q a -> yields (World := World) Q (ret a).
Proof. intros H st x E. cbn in E. now injection E as <-. Qed.

Lemma yields_bind {A B} (Q : B -> Prop) (c : M World A) (k : A -> M World B) :
  (forall a, yields Q (k a)) -> yields Q (bind c k).
Proof.
  intros Hk st x. unfold bind.
  destruct (c st) as [[a | e |] st']; cbn [fst]; try discriminate.
  apply Hk.
Qed.

Lemma yields_try_except {A} (Q : A -> Prop) (c : M World A)
      (h : exn -> M World A) :
  yields Q c -> (forall e, yields Q (h e)) -> yields Q (try_except c h).
Proof.
  intros Hc Hh st x. unfold try_except. specialize (Hc st).
  destruct (c st) as [[a | e |] st']; cbn [fst] in *.
  - apply Hc.
  - apply Hh.
  - discriminate.
Qed.

Lemma yields_execute_query (sq : SerpQuery) (d b : Z) :
  yields (well_formed d) (execute_query World P sq d b).
Proof.
  unfold execute_query.
  apply yields_bind. intros _. apply yields_bind. intros _.
  apply yields_try_except.
  - apply yields_bind. intros _. apply yields_bind. intros urls.
    destruct urls as [| u urls'].
    + apply yields_bind. intros _. apply yields_ret.
      split; cbn; [repeat split |]; congruence.
    + apply yields_bind. intros data. apply yields_bind. intros obj.
      apply yields_bind. intros _.
      destruct obj as [obj |].
      * apply yields_bind. intros _.
        destruct (1 <? d)%Z eqn:E.
        -- apply yields_bind. intros _. apply yields_bind. intros _.
           apply yields_ret. apply Z.ltb_lt in E.
           split; cbn; [split |]; congruence || trivial.
        -- apply yields_ret. split; cbn; [split |]; congruence.
      * apply yields_ret. split; cbn; [split |]; congruence.
  - intros e. apply yields_bind. intros _. apply yields_ret.
    split; cbn; [repeat split |]; congruence.
Qed.

(** *** A run of [execute_query], step by step *)

Lemma bind_done {A B} (c : M World A) (k : A -> M World B)
      (st st' : State World) (a : A) :
  c st = (Done a, st') -> bind c k st = k a st'.
Proof. intros E. unfold bind. now rewrite E. Qed.

Lemma memory_add_thought_run (thought : str) (st : State World) :
  exists t st',
    memory_add_thought World P thought st = (Done tt, st') /\
    memory st' = Memory.add_thought t thought (memory st).
Proof.
  unfold memory_add_thought, bind, now, modify.
  destruct (clock World P (world st)) as [t w].
  exists t. eexists. split; reflexivity.
Qed.

Lemma thoughts_run {A} (f : Z -> A -> str) (l : list A) :
  forall i st,
    exists st',
      for_each_numbered i l
        (fun i x => memory_add_thought World P (f i x)) st = (Done tt, st').
Proof.
  induction l as [| x l IH]; intros i st; cbn [for_each_numbered].
  - now eexists.
  - destruct (memory_add_thought_run (f i x) st) as [t [st1 [E _]]].
    rewrite (bind_done _ _ _ _ _ E). apply IH.
Qed.

Lemma progress_update_returns (f : ResearchProgress -> ResearchProgress)
      (st : State World) :
  exists st', progress_update World P f st = (Done tt, st').
Proof.
  unfold progress_update, bind, get. destruct (progress st).
  - unfold modify, now. cbn [world set_progress].
    destruct (clock World P (world st)). now eexists.
  - now eexists.
Qed.

(** The handler of [execute_query]: the error is recorded and a failure
    handed back. *)
Lemma handler_run (q : str) (e : exn) (st : State World) :
  exists t st',
    bind (memory_add_thought World P
            ($"Error executing query '" ++ q ++ $"': " ++ exn_msg e))
         (fun _ => ret (MkQueryResult false (Some (exn_msg e)) None None)) st =
    (Done (MkQueryResult false (Some (exn_msg e)) None None), st') /\
    memory st' =
      Memory.add_thought t ($"Error executing query '" ++ q ++ $"': " ++
                            exn_msg e) (memory st).
Proof.
  destruct (memory_add_thought_run
              ($"Error executing query '" ++ q ++ $"': " ++ exn_msg e) st)
    as [t [st' [E Hm]]].
  exists t, st'. rewrite (bind_done _ _ _ _ _ E). now split.
Qed.

Lemma call_run {A} (f : external World A) (st : State World) :
  call World f st =
  (match fst (fst (f (world st) (memory st))) with
   | Ok a => Done a
   | Raise e => Threw e
   end,
   set_world World (snd (f (world st) (memory st)))
             (set_memory World (snd (fst (f (world st) (memory st)))) st)).
Proof.
  unfold call. destruct (f (world st) (memory st)) as [[r m] w].
  destruct r; reflexivity.
Qed.

(** What a run of [execute_query] does: it returns; a failure comes with
    its thought, written last; a success comes only after the three
    services answered. *)
Lemma execute_query_run (sq : SerpQuery) (d b : Z) (st : State World) :
  exists r st',
    execute_query World P sq d b st = (Done r, st') /\
    (success r = false ->
     exists t m thought why,
       memory st' = Memory.add_thought t thought m /\
       reason r = Some why /\
       failure_of P sq b thought why) /\
    (success r = true ->
     exists urls data obj,
       urls <> [] /\
       answered (execute_search World P (query sq)) urls /\
       answered (scrape_content World P urls) data /\
       answered (process_serp_result World P (query sq) data b) obj) /\
    (forall e,
       always_raises (execute_search World P (query sq)) e ->
       r = MkQueryResult false (Some (exn_msg e)) None None).
Proof.
  unfold execute_query.
  destruct (memory_add_thought_run
              ($"Executing research query: " ++ query sq) st)
    as [t1 [st1 [E1 _]]].
  rewrite (bind_done _ _ _ _ _ E1).
  destruct (memory_add_thought_run
              ($"Research goal: " ++ research_goal sq) st1)
    as [t2 [st2 [E2 _]]].
  rewrite (bind_done _ _ _ _ _ E2).
  unfold try_except.
  destruct (progress_update_returns (set_current d b (query sq)) st2)
    as [st3 E3].
  rewrite (bind_done _ _ _ _ _ E3).
  unfold bind at 1. rewrite call_run.
  destruct (execute_search World P (query sq) (world st3) (memory st3))
    as [[rs m1] w1] eqn:Es.
  cbn [fst snd].
  set (st4 := set_world World w1 (set_memory World m1 st3)).
  assert (Hfail : forall e st0,
            step_raised P sq b e ->
            exists r st',
              bind (memory_add_thought World P
                      ($"Error executing query '" ++ query sq ++ $"': " ++
                       exn_msg e))
                   (fun _ => ret (MkQueryResult false (Some (exn_msg e))
                                                None None)) st0 =
              (Done r, st') /\
              r = MkQueryResult false (Some (exn_msg e)) None None /\
              exists t m thought why,
                memory st' = Memory.add_thought t thought m /\
                reason r = Some why /\
                failure_of P sq b thought why).
  { intros e st0 Hstep.
    destruct (handler_run (query sq) e st0) as [t [st' [E Hm]]].
    eexists. exists st'. split; [exact E |]. split; [reflexivity |].
    exists t, (memory st0). do 2 eexists. split; [exact Hm |].
    split; [reflexivity |]. right. exists e. now repeat split. }
  destruct rs as [urls | e].
  2:{ assert (Hstep : step_raised P sq b e).
      { left. exists (world st3), (memory st3). now rewrite Es. }
      destruct (Hfail e st4 Hstep) as [r [st' [E [Hr Hrec]]]].
      exists r, st'. split; [exact E |]. split; [intros _; exact Hrec |].
      split; [subst r; discriminate |].
      intros e' He'. specialize (He' (world st3) (memory st3)).
      rewrite Es in He'. cbn [fst] in He'. injection He' as <-. exact Hr. }
  assert (Hnot : forall e,
            always_raises (execute_search World P (query sq)) e -> False).
  { intros e He. specialize (He (world st3) (memory st3)).
    rewrite Es in He. discriminate. }
  assert (Hsearch : answered (execute_search World P (query sq)) urls).
  { exists (world st3), (memory st3). now rewrite Es. }
  destruct urls as [| u urls'].
  { destruct (memory_add_thought_run
                $"No search results found. Cannot proceed with this query."
                st4) as [t [st5 [E5 Hm5]]].
    rewrite (bind_done _ _ _ _ _ E5). cbn [ret].
    do 2 eexists. split; [reflexivity |]. cbn [success reason].
    split.
    - intros _. exists t, (memory st4). do 2 eexists.
      split; [exact Hm5 |]. split; [reflexivity |]. left. now repeat split.
    - split; [discriminate |]. intros e He. destruct (Hnot e He). }
  unfold bind at 1. rewrite call_run.
  destruct (scrape_content World P (u :: urls') (world st4) (memory st4))
    as [[rd m2] w2] eqn:Ed.
  cbn [fst snd].
  set (st5 := set_world World w2 (set_memory World m2 st4)).
  destruct rd as [data | e].
  2:{ assert (Hstep : step_raised P sq b e).
      { right. left. exists (u :: urls'), (world st4), (memory st4).
        now rewrite Ed. }
      destruct (Hfail e st5 Hstep) as [r [st' [E [Hr Hrec]]]].
      exists r, st'. split; [exact E |]. split; [intros _; exact Hrec |].
      split; [subst r; discriminate |].
      intros e' He'. destruct (Hnot e' He'). }
  assert (Hscrape : answered (scrape_content World P (u :: urls')) data).
  { exists (world st4), (memory st4). now rewrite Ed. }
  unfold bind at 1. rewrite call_run.
  destruct (process_serp_result World P (query sq) data b
                                (world st5) (memory st5))
    as [[ro m3] w3] eqn:Eo.
  cbn [fst snd].
  set (st6 := set_world World w3 (set_memory World m3 st5)).
  destruct ro as [obj | e].
  2:{ assert (Hstep : step_raised P sq b e).
      { right. right. exists data, (world st5), (memory st5).
        now rewrite Eo. }
      destruct (Hfail e st6 Hstep) as [r [st' [E [Hr Hrec]]]].
      exists r, st'. split; [exact E |]. split; [intros _; exact Hrec |].
      split; [subst r; discriminate |].
      intros e' He'. destruct (Hnot e' He'). }
  assert (Hprocess : answered (process_serp_result World P (query sq) data b)
                              obj).
  { exists (world st5), (memory st5). now rewrite Eo. }
  assert (Hok : forall (r : QueryResult) (st' : State World),
            success r = true ->
            (success r = false ->
             exists t m thought why,
               memory st' = Memory.add_thought t thought m /\
               reason r = Some why /\
               failure_of P sq b thought why) /\
            (success r = true ->
             exists urls data obj,
               urls <> [] /\
               answered (execute_search World P (query sq)) urls /\
               answered (scrape_content World P urls) data /\
               answered (process_serp_result World P (query sq) data b) obj) /\
            (forall e,
               always_raises (execute_search World P (query sq)) e ->
               r = MkQueryResult false (Some (exn_msg e)) None None)).
  { intros r st' Hr. split; [congruence |]. split.
    - intros _. exists (u :: urls'), data, obj.
      split; [discriminate |]. now repeat split.
    - intros e He. destruct (Hnot e He). }
  unfold bind at 1, modify at 1.
  destruct obj as [o |].
  - unfold bind at 1, modify at 1.
    destruct (1 <? d)%Z.
    + match goal with
      | |- context [bind (memory_add_thought World P ?T) _ ?S] =>
          destruct (memory_add_thought_run T S) as [t [st7 [E7 _]]]
      end.
      rewrite (bind_done _ _ _ _ _ E7).
      destruct (thoughts_run
                  (fun i question =>
                     $"Follow-up " ++ str_of_Z i ++ $": " ++ question)
                  (follow_up_questions o) 1%Z st7) as [st8 E8].
      rewrite (bind_done _ _ _ _ _ E8). cbn [ret].
      do 2 eexists. split; [reflexivity |]. now apply Hok.
    + cbn [ret]. do 2 eexists. split; [reflexivity |]. now apply Hok.
  - cbn [ret]. do 2 eexists. split; [reflexivity |]. now apply Hok.
Qed.

(** X17. [execute_query] always returns, whatever the search, the scrape
    and the extraction do.  A success carries its learnings and no reason,
    a failure a reason and nothing else, and follow-up questions are
    handed back only at a depth above 1.  A failure is recorded: the last
    thing written to the memory is its thought, which says either that the
    search found nothing or which exception a step raised, and the reason
    of the result is the matching one.  A success is handed back only when
    the search answered with urls, the scrape answered and the extraction
    answered: a search that raises gives the failure with the message of
    its exception as reason, and a scrape or an extraction that raises
    gives a failure. *)
Theorem execute_query_always_returns
        (sq : SerpQuery) (current_depth current_breadth : Z)
        (st : State World) :
  exists r,
    fst (execute_query World P sq current_depth current_breadth st) = Done r /\
    well_formed current_depth r /\
    (success r = false ->
     exists t m thought why,
       memory (snd (execute_query World P sq current_depth current_breadth
                                  st)) =
         Memory.add_thought t thought m /\
       reason r = Some why /\
       failure_of P sq current_breadth thought why) /\
    (success r = true ->
     exists urls data obj,
       urls <> [] /\
       answered (execute_search World P (query sq)) urls /\
       answered (scrape_content World P urls) data /\
       answered (process_serp_result World P (query sq) data current_breadth)
                obj) /\
    (forall e,
       always_raises (execute_search World P (query sq)) e ->
       r = MkQueryResult false (Some (exn_msg e)) None None) /\
    ((forall urls, exists e,
        always_raises (scrape_content World P urls) e) ->
     success r = false) /\
    ((forall data, exists e,
        always_raises
          (process_serp_result World P (query sq) data current_breadth) e) ->
     success r = false).
Proof.
  destruct (execute_query_run sq current_depth current_breadth st)
    as [r [st' [E [Hf [Hs Hr]]]]].
  pose proof (yields_execute_query sq current_depth current_breadth st r)
    as Hy.
  rewrite E in *. cbn [fst snd] in *.
  exists r. split; [reflexivity |]. split; [now apply Hy |].
  split; [exact Hf |]. split; [exact Hs |]. split; [exact Hr |].
  split.
  - intros Hraise. destruct (success r) eqn:Er; [| reflexivity].
    destruct (Hs eq_refl) as [urls [data [obj [_ [_ [[w [m Ha]] _]]]]]].
    destruct (Hraise urls) as [e He]. rewrite (He w m) in Ha. discriminate.
  - intros Hraise. destruct (success r) eqn:Er; [| reflexivity].
    destruct (Hs eq_refl) as [urls [data [obj [_ [_ [_ [w [m Ha]]]]]]]].
    destruct (Hraise data) as [e He]. rewrite (He w m) in Ha. discriminate.
Qed.

(** *** Research without auto-tuning *)

Lemma static_of {A} (c : M World A) :
  quiet c -> respects same_mode c -> static c.
Proof.
  intros Hq Hr st H. split; [apply Hq |].
  specialize (Hr st). unfold same_mode in Hr. congruence.
Qed.

Lemma static_bind {A B} (c : M World A) (k : A -> M World B) :
  static c -> (forall a, static (k a)) -> static (bind c k).
Proof.
  intros Hc Hk st H. unfold bind. specialize (Hc st H).
  destruct (c st) as [[a | e |] st']; cbn [fst snd] in *.
  - apply Hk. apply Hc.
  - split; [discriminate | apply Hc].
  - destruct Hc as [Hc _]. now contradiction Hc.
Qed.

(** After [get] the continuation runs on the state it was given. *)
Lemma static_bind_get {B} (k : State World -> M World B) :
  (forall st0, auto_tune st0 = false -> static (k st0)) ->
  static (bind get k).
Proof. intros Hk st H. unfold bind, get. now apply Hk. Qed.

Lemma static_ret {A} (a : A) : static (World := World) (ret a).
Proof. intros st H. split; [discriminate | exact H]. Qed.

Lemma static_bind_ret {A B} (a : A) (k : A -> M World B) :
  static (k a) -> static (bind (ret a) k).
Proof. intros H st Hst. apply H, Hst. Qed.

Lemma static_modify (f : State World -> State World) :
  (forall st, auto_tune (f st) = auto_tune st) -> static (modify f).
Proof. intros Hf st H. split; [discriminate |]. cbn. now rewrite Hf. Qed.

Lemma static_now : static (now World P).
Proof.
  apply static_of; [apply quiet_now | apply (respects_now same_mode)].
Qed.

Lemma static_for_each {A} (l : list A) (body : A -> M World unit) :
  (forall x, static (body x)) -> static (for_each l body).
Proof.
  intros H. induction l as [| x l IH]; cbn [for_each].
  - apply static_ret.
  - apply static_bind; [apply H | intros _; exact IH].
Qed.

Lemma static_memory_add_thought (t : str) :
  static (memory_add_thought World P t).
Proof.
  apply static_of;
    [apply quiet_memory_add_thought
    | apply (respects_memory_add_thought same_mode)].
Qed.

Lemma static_progress_update (f : ResearchProgress -> ResearchProgress) :
  static (progress_update World P f).
Proof.
  apply static_of; [apply quiet_progress_update |].
  apply (respects_progress_update same_mode). reflexivity.
Qed.

Lemma static_iteration_step (recur : str -> Z -> Z -> M World unit)
      (d b : Z) (sq : SerpQuery) :
  ((1 < d)%Z -> forall q b', static (recur q (d - 1)%Z b')) ->
  static (iteration_step World P recur d b sq).
Proof.
  intros Hr. unfold iteration_step.
  apply static_bind.
  { apply static_of; [apply quiet_execute_query |].
    apply (respects_execute_query same_mode). reflexivity. }
  intros qr. apply static_bind; [apply static_progress_update | intros _].
  destruct (success qr && (1 <? d)%Z && nonempty (get_follow_ups qr)) eqn:E.
  - apply andb_true_iff in E. destruct E as [E _].
    apply andb_true_iff in E. destruct E as [_ E]. apply Z.ltb_lt in E.
    apply static_bind_get. intros st0 H0. rewrite H0.
    intros st Hst. apply (Hr E). exact Hst.
  - apply static_ret.
Qed.

(** Without auto-tuning the depth goes down by one from an iteration to
    the iterations it starts, which end at depth 1: fuel for [depth]
    nested iterations is enough. *)
Lemma static_execute_research_iteration (fuel : nat) :
  forall (q : str) (d b : Z),
    (1 <= fuel)%nat -> (Z.to_nat d <= fuel)%nat ->
    static (execute_research_iteration World P fuel q d b).
Proof.
  induction fuel as [| fuel' IH]; intros q d b H1 Hd; [lia |].
  cbn [execute_research_iteration].
  apply static_bind; [now apply static_modify | intros _].
  apply static_bind; [apply static_memory_add_thought | intros _].
  apply static_bind; [apply static_memory_add_thought | intros _].
  apply static_bind.
  { apply static_of; [apply quiet_generate_serp_queries
                     | apply (respects_generate_serp_queries same_mode)]. }
  intros [| sq0 rest]; [apply static_memory_add_thought |].
  apply static_bind; [apply static_progress_update | intros _].
  apply static_for_each. intros sq. apply static_iteration_step.
  intros Hlt q' b'. apply IH; lia.
Qed.

Lemma static_deep_research (fuel : nat) (q : str) (breadth depth : option Z) :
  (1 <= fuel)%nat -> (Z.to_nat (py_or depth 2) <= fuel)%nat ->
  static (deep_research World P fuel q breadth depth).
Proof.
  intros H1 Hd. unfold deep_research.
  apply static_bind_get. intros st0 H0. rewrite H0. cbn [andb].
  apply static_bind_ret. cbv beta iota.
  apply static_bind; [apply static_now | intros t0].
  apply static_bind; [now apply static_modify | intros _].
  apply static_bind_get. intros st1 E1. rewrite E1.
  apply static_bind; [apply static_ret | intros _].
  apply static_bind; [apply static_memory_add_thought | intros _].
  apply static_bind; [apply static_memory_add_thought | intros _].
  apply static_bind_get. intros st2 E2.
  apply static_bind; [apply static_memory_add_thought | intros _].
  apply static_bind;
    [now apply static_execute_research_iteration | intros _].
  apply static_bind; [apply static_memory_add_thought | intros _].
  apply static_bind_get. intros st3 E3. apply static_ret.
Qed.

(** X18. Without auto-tuning the research terminates: an iteration at
    depth [d] starts iterations at depth [d - 1] only, and none at depth 1
    or below, so [api.deep_research] returns a dictionary as soon as the
    fuel allows [depth or 2] nested iterations (and at least one),
    whatever the services answer. *)
Theorem static_research_terminates
        (fuel : nat) (w : World) (q : str) (breadth depth : option Z)
        (max_depth max_breadth : Z) (time_budget_seconds : option Z)
        (H1 : (1 <= fuel)%nat)
        (Hd : (Z.to_nat (py_or depth 2) <= fuel)%nat) :
  exists result,
    Api.deep_research World P fuel w q breadth depth false
                      max_depth max_breadth time_budget_seconds =
    Done result.
Proof.
  unfold Api.deep_research.
  destruct (Engine.init World P false max_depth max_breadth
                        time_budget_seconds w) as [[engine | e] w'] eqn:Ei;
    [| now eexists].
  assert (Ha : auto_tune engine = false).
  { unfold Engine.init in Ei.
    destruct (environ World P w $"LLM_MODEL_NAME"); [| discriminate].
    destruct (clock World P w). injection Ei as <- _. reflexivity. }
  destruct (static_deep_research fuel q breadth depth H1 Hd engine Ha)
    as [Hf _].
  destruct (fst (Engine.deep_research World P fuel q breadth depth engine));
    [now eexists | now eexists | now contradiction Hf].
Qed.

(** *** The queries planned and the queries completed *)

Lemma settles_of {A} (c : M World A) : respects same_pending c -> settles 0 c.
Proof.
  intros H st Hp. destruct (H st) as [H1 H2]. split; [now apply H1 |].
  destruct (fst (c st)); lia.
Qed.

Lemma settles_bind {A B} (n m : Z) (c : M World A) (k : A -> M World B) :
  (0 <= m)%Z -> settles n c -> (forall a, settles m (k a)) ->
  settles (n + m) (bind c k).
Proof.
  intros Hm Hc Hk st Hp. unfold bind. specialize (Hc st Hp).
  destruct (c st) as [[a | e |] st']; cbn [fst snd] in *.
  - destruct Hc as [Hp' Hc]. specialize (Hk a st' Hp').
    destruct Hk as [Hp'' Hk]. split; [exact Hp'' |].
    destruct (fst (k a st')); lia.
  - destruct Hc as [Hp' Hc]. split; [exact Hp' | lia].
  - destruct Hc as [Hp' Hc]. split; [exact Hp' | lia].
Qed.

Lemma settles_bind_0 {A B} (c : M World A) (k : A -> M World B) :
  settles 0 c -> (forall a, settles 0 (k a)) -> settles 0 (bind c k).
Proof. intros Hc Hk. now apply (settles_bind 0 0). Qed.

Lemma settles_for_each {A} (l : list A) (body : A -> M World unit) :
  (forall x, settles 1 (body x)) ->
  settles (Z.of_nat (length l)) (for_each l body).
Proof.
  intros H. induction l as [| x l IH]; cbn [for_each length].
  - apply settles_of, (respects_ret same_pending).
  - replace (Z.of_nat (S (length l))) with (1 + Z.of_nat (length l))%Z by lia.
    apply settles_bind; [lia | apply H | intros _; exact IH].
Qed.

Lemma progress_update_run (f : ResearchProgress -> ResearchProgress)
      (st : State World) (p : ResearchProgress) :
  progress st = Some p ->
  fst (progress_update World P f st) = Done tt /\
  progress (snd (progress_update World P f st)) = Some (f p).
Proof.
  intros E. unfold progress_update, bind, get. rewrite E.
  unfold modify, now. cbn [world set_progress].
  destruct (clock World P (world st)). now split.
Qed.

Lemma settles_add_total_queries (n : Z) :
  settles (- n) (progress_update World P (add_total_queries n)).
Proof.
  intros st Hp. destruct (progress st) as [p |] eqn:E; [| congruence].
  destruct (progress_update_run (add_total_queries n) st p E) as [E1 E2].
  rewrite E1. unfold pending. rewrite E2, E. split; [discriminate |].
  cbn. lia.
Qed.

Lemma settles_add_completed_query :
  settles 1 (progress_update World P add_completed_query).
Proof.
  intros st Hp. destruct (progress st) as [p |] eqn:E; [| congruence].
  destruct (progress_update_run add_completed_query st p E) as [E1 E2].
  rewrite E1. unfold pending. rewrite E2, E. split; [discriminate |].
  cbn. lia.
Qed.

Lemma same_pending_set_current (d b : Z) (q : str) (st : State World)
      (p : ResearchProgress) :
  progress st = Some p ->
  same_pending st (set_progress World (Some (set_current d b q p)) st).
Proof.
  intros E. unfold same_pending, pending. rewrite E. cbn. split;
    [discriminate | reflexivity].
Qed.

Lemma settles_iteration_step (recur : str -> Z -> Z -> M World unit)
      (d b : Z) (sq : SerpQuery) :
  (forall q d' b', settles 0 (recur q d' b')) ->
  settles 1 (iteration_step World P recur d b sq).
Proof.
  intros Hr. unfold iteration_step.
  apply (settles_bind 0 1); [lia | |].
  { apply settles_of, (respects_execute_query same_pending).
    intros st p. apply same_pending_set_current. }
  intros qr. apply (settles_bind 1 0); [lia | apply settles_add_completed_query |].
  intros _.
  destruct (success qr && (1 <? d)%Z && nonempty (get_follow_ups qr)).
  - apply settles_bind_0; [apply settles_of, (respects_get same_pending) |].
    intros st0. apply settles_bind_0.
    + destruct (auto_tune st0).
      * apply settles_of, (respects_adjust_parameters same_pending).
      * apply settles_of, (respects_ret same_pending).
    + intros [nd nb]. apply Hr.
  - apply settles_of, (respects_ret same_pending).
Qed.

(** An iteration completes every query it plans, and so do the
    iterations it starts. *)
Lemma settles_execute_research_iteration (fuel : nat) :
  forall (q : str) (d b : Z),
    settles 0 (execute_research_iteration World P fuel q d b).
Proof.
  induction fuel as [| fuel' IH]; intros q d b.
  - apply settles_of, (respects_diverge same_pending).
  - cbn [execute_research_iteration].
    apply settles_bind_0.
    { apply settles_of, (respects_modify same_pending). intros st.
      apply frame_count. }
    intros _. apply settles_bind_0;
      [apply settles_of, (respects_memory_add_thought same_pending) |].
    intros _. apply settles_bind_0;
      [apply settles_of, (respects_memory_add_thought same_pending) |].
    intros _. apply settles_bind_0;
      [apply settles_of, (respects_generate_serp_queries same_pending) |].
    intros [| sq0 rest];
      [apply settles_of, (respects_memory_add_thought same_pending) |].
    replace 0%Z with (- Z.of_nat (length (sq0 :: rest))
                      + Z.of_nat (length (sq0 :: rest)))%Z by lia.
    apply settles_bind; [lia | apply settles_add_total_queries |].
    intros _. apply settles_for_each. intros sq.
    apply settles_iteration_step. intros q' d' b'. apply IH.
Qed.

Lemma completes_bind {A B} (c : M World A) (k : A -> M World B) :
  respects same_progress c -> (forall a, completes (k a)) ->
  completes (bind c k).
Proof.
  intros Hc Hk st. unfold bind. specialize (Hc st).
  unfold same_progress in Hc.
  destruct (c st) as [[a | e |] st']; cbn [fst snd] in *.
  - specialize (Hk a st'). destruct (fst (k a st')); [exact Hk | |];
      intros Hn; apply Hk; congruence.
  - intros Hn. rewrite Hc, Hn. exact I.
  - intros Hn. rewrite Hc, Hn. exact I.
Qed.

(** A run that starts from a progress without queries and completes what
    it plans. *)
Lemma completes_start {A} (p0 : ResearchProgress) (rest : M World A) :
  total_queries p0 = 0%Z -> completed_queries p0 = 0%Z ->
  settles 0 rest ->
  completes (bind (modify (set_progress World (Some p0))) (fun _ => rest)).
Proof.
  intros Ht Hc Hr st. unfold bind, modify.
  set (st1 := set_progress World (Some p0) st).
  assert (Hp : progress st1 <> None) by discriminate.
  assert (H0 : pending st1 = 0%Z).
  { unfold pending, st1. cbn. lia. }
  destruct (Hr st1 Hp) as [Hp' Hs]. rewrite H0 in Hs.
  unfold pending in Hs.
  destruct (progress (snd (rest st1))) as [p |] eqn:E; [| congruence].
  destruct (fst (rest st1)).
  - exists p. split; [reflexivity | lia].
  - intros _. lia.
  - intros _. lia.
Qed.

Lemma completes_deep_research (fuel : nat) (q : str)
      (breadth depth : option Z) :
  completes (deep_research World P fuel q breadth depth).
Proof.
  unfold deep_research.
  apply completes_bind; [apply (respects_get same_progress) | intros st0].
  apply completes_bind.
  { destruct (auto_tune st0 && _).
    - apply (respects_bind same_progress).
      + apply (respects_determine_auto_parameters same_progress).
      + intros a. apply (respects_ret same_progress).
    - apply (respects_ret same_progress). }
  intros [d b].
  apply completes_bind; [apply (respects_now same_progress) | intros t0].
  apply completes_start; [reflexivity | reflexivity |].
  apply settles_bind_0; [apply settles_of, (respects_get same_pending) |].
  intros st1. apply settles_bind_0.
  { apply settles_of.
    destruct (auto_tune st1); [| apply (respects_ret same_pending)].
    destruct (auto_tuner st1); [| apply (respects_ret same_pending)].
    apply (respects_bind same_pending);
      [apply (respects_event_loop_time same_pending) |].
    intros t. apply (respects_modify same_pending). intros st.
    apply frame_tuner. }
  intros _. apply settles_bind_0;
    [apply settles_of, (respects_memory_add_thought same_pending) |].
  intros _. apply settles_bind_0;
    [apply settles_of, (respects_memory_add_thought same_pending) |].
  intros _. apply settles_bind_0;
    [apply settles_of, (respects_get same_pending) |].
  intros st2. apply settles_bind_0;
    [apply settles_of, (respects_memory_add_thought same_pending) |].
  intros _. apply settles_bind_0;
    [apply settles_execute_research_iteration |].
  intros _. apply settles_bind_0;
    [apply settles_of, (respects_memory_add_thought same_pending) |].
  intros _. apply settles_bind_0;
    [apply settles_of, (respects_get same_pending) |].
  intros st3. apply settles_of, (respects_ret same_pending).
Qed.


(** *** The planned depth and breadth *)

Lemma same_totals_update (f : ResearchProgress -> ResearchProgress) :
  (forall p, total_depth (f p) = total_depth p /\
             total_breadth (f p) = total_breadth p) ->
  forall (st : State World) p,
    progress st = Some p ->
    same_totals st (set_progress World (Some (f p)) st).
Proof.
  intros Hf st p E p0 E0. rewrite E in E0. injection E0 as <-.
  exists (f p). split; [reflexivity | apply Hf].
Qed.

Lemma same_totals_iteration_step (recur : str -> Z -> Z -> M World unit)
      (d b : Z) (sq : SerpQuery) :
  (forall q d' b', respects same_totals (recur q d' b')) ->
  respects same_totals (iteration_step World P recur d b sq).
Proof.
  intros Hr. unfold iteration_step.
  apply (respects_bind same_totals).
  { apply (respects_execute_query same_totals).
    apply same_totals_update. now split. }
  intros qr. apply (respects_bind same_totals).
  { apply (respects_progress_update same_totals).
    apply same_totals_update. now split. }
  intros _.
  destruct (success qr && (1 <? d)%Z && nonempty (get_follow_ups qr));
    [| apply (respects_ret same_totals)].
  apply (respects_bind same_totals); [apply (respects_get same_totals) |].
  intros st0. apply (respects_bind same_totals).
  - destruct (auto_tune st0).
    + apply (respects_adjust_parameters same_totals).
    + apply (respects_ret same_totals).
  - intros [nd nb]. apply Hr.
Qed.

Lemma same_totals_execute_research_iteration (fuel : nat) :
  forall (q : str) (d b : Z),
    respects same_totals (execute_research_iteration World P fuel q d b).
Proof.
  induction fuel as [| fuel' IH]; intros q d b.
  - apply (respects_diverge same_totals).
  - cbn [execute_research_iteration].
    apply (respects_bind same_totals).
    { apply (respects_modify same_totals). intros st. apply frame_count. }
    intros _. apply (respects_bind same_totals);
      [apply (respects_memory_add_thought same_totals) | intros _].
    apply (respects_bind same_totals);
      [apply (respects_memory_add_thought same_totals) | intros _].
    apply (respects_bind same_totals);
      [apply (respects_generate_serp_queries same_totals) |].
    intros [| sq0 rest];
      [apply (respects_memory_add_thought same_totals) |].
    apply (respects_bind same_totals).
    { apply (respects_progress_update same_totals).
      apply same_totals_update. now split. }
    intros _. apply (respects_for_each same_totals). intros sq.
    apply same_totals_iteration_step. intros q' d' b'. apply IH.
Qed.

Lemma plans_bind_get {B} (d b : Z) (k : State World -> M World B) :
  (forall st0, auto_tune st0 = false -> plans d b (k st0)) ->
  plans d b (bind get k).
Proof. intros Hk st H. unfold bind, get. now apply Hk. Qed.

Lemma plans_bind_now {B} (d b : Z) (k : datetime -> M World B) :
  (forall t, plans d b (k t)) -> plans d b (bind (now World P) k).
Proof.
  intros Hk st H. unfold bind, now.
  destruct (clock World P (world st)) as [t w]. now apply Hk.
Qed.

Lemma plans_start {A} (p0 : ResearchProgress) (rest : M World A) :
  respects same_totals rest ->
  plans (total_depth p0) (total_breadth p0)
        (bind (modify (set_progress World (Some p0))) (fun _ => rest)).
Proof.
  intros Hr st _. unfold bind, modify.
  destruct (Hr (set_progress World (Some p0) st) p0 eq_refl)
    as [p [E [D B]]].
  now exists p.
Qed.

Lemma plans_deep_research (fuel : nat) (q : str) (breadth depth : option Z) :
  plans (py_or depth 2) (py_or breadth 4)
        (deep_research World P fuel q breadth depth).
Proof.
  unfold deep_research.
  apply plans_bind_get. intros st0 H0. rewrite H0. cbn [andb].
  intros st Hst. revert st Hst.
  apply plans_bind_now. intros t0.
  apply (plans_start
           (MkProgress (py_or depth 2) (py_or breadth 4) (py_or depth 2)
                       (py_or breadth 4) 0 0 [] t0)).
  apply (respects_bind same_totals); [apply (respects_get same_totals) |].
  intros st1. apply (respects_bind same_totals).
  { destruct (auto_tune st1); [| apply (respects_ret same_totals)].
    destruct (auto_tuner st1); [| apply (respects_ret same_totals)].
    apply (respects_bind same_totals);
      [apply (respects_event_loop_time same_totals) |].
    intros t. apply (respects_modify same_totals). intros st.
    apply frame_tuner. }
  intros _. apply (respects_bind same_totals);
    [apply (respects_memory_add_thought same_totals) | intros _].
  apply (respects_bind same_totals);
    [apply (respects_memory_add_thought same_totals) | intros _].
  apply (respects_bind same_totals); [apply (respects_get same_totals) |].
  intros st2. apply (respects_bind same_totals);
    [apply (respects_memory_add_thought same_totals) | intros _].
  apply (respects_bind same_totals);
    [apply same_totals_execute_research_iteration | intros _].
  apply (respects_bind same_totals);
    [apply (respects_memory_add_thought same_totals) | intros _].
  apply (respects_bind same_totals); [apply (respects_get same_totals) |].
  intros st3. apply (respects_ret same_totals).
Qed.

(** X20. Without auto-tuning the planned depth is [depth or 2] and the
    planned breadth [breadth or 4], and they stay so for the whole run,
    however it ends: a depth or breadth of 0 counts as not given and is
    replaced by 2 or 4. *)
Theorem zero_depth_counts_as_not_given
        (fuel : nat) (q : str) (breadth depth : option Z)
        (st : State World) (Ha : auto_tune st = false) :
  let r := deep_research World P fuel q breadth depth st in
  (exists p, progress (snd r) = Some p /\
             total_depth p = py_or depth 2 /\
             total_breadth p = py_or breadth 4) /\
  py_or (Some 0%Z) 2 = 2%Z /\ py_or None 2 = 2%Z /\
  py_or (Some 0%Z) 4 = 4%Z /\ py_or None 4 = 4%Z.
Proof.
  cbv zeta. split; [now apply plans_deep_research | repeat split].
Qed.

(** *** Contradiction detection *)

Lemma records_ret (new_learning : str) (stored : list str) :
  records (World := World) new_learning stored 0 (ret tt).
Proof.
  intros st H. cbn. repeat split; try assumption.
  exists []. rewrite app_nil_r. repeat split; try constructor; cbn; lia.
Qed.

Lemma records_weaken (new_learning : str) (stored : list str) (n m : nat)
      (c : M World unit) :
  (n <= m)%nat -> records new_learning stored n c ->
  records new_learning stored m c.
Proof.
  intros Hnm Hc st H. destruct (Hc st H) as [E [L [U [added [C [F [N T]]]]]]].
  repeat split; try assumption. exists added. repeat split; try assumption.
  lia.
Qed.

Lemma records_bind (new_learning : str) (stored : list str) (n m : nat)
      (c k : M World unit) :
  records new_learning stored n c -> records new_learning stored m k ->
  records new_learning stored (n + m) (bind c (fun _ => k)).
Proof.
  intros Hc Hk st H. unfold bind.
  destruct (Hc st H) as [E [L [U [a1 [C1 [F1 [N1 T1]]]]]]].
  destruct (c st) as [o st']. cbn [fst snd] in *. subst o.
  destruct (Hk st' L) as [E2 [L2 [U2 [a2 [C2 [F2 [N2 T2]]]]]]].
  repeat split; try assumption; try congruence.
  exists (a1 ++ a2). repeat split.
  - rewrite C2, C1, app_assoc. reflexivity.
  - apply Forall_app. now split.
  - rewrite length_app. lia.
  - rewrite T2, T1, length_app. lia.
Qed.

Lemma records_add_contradiction (new_learning existing topic : str)
      (stored : list str) :
  In existing stored ->
  In topic [$"Performance"; $"Event Dates"; $"Layoff Timeline"] ->
  records new_learning stored 1
          (memory_add_contradiction World P topic existing new_learning).
Proof.
  intros Hin Ht st H. rewrite memory_add_contradiction_run. cbn [fst snd].
  unfold recorded.
  destruct (clock World P (world st)) as [t1 w1].
  destruct (clock World P w1) as [t2 w2].
  cbn [fst snd memory set_memory set_world Memory.add_contradiction
       Memory.add_thought Memory.set_chain_of_thought
       Memory.set_contradictions Memory.learnings Memory.visited_urls
       Memory.contradictions Memory.chain_of_thought].
  repeat split; try assumption.
  exists [Memory.MkContradiction topic existing new_learning [] []
                                 (isoformat t1)].
  split; [reflexivity |]. split; [| split].
  - constructor; [| constructor]. unfold detected. cbn. tauto.
  - cbn. lia.
  - rewrite length_app. reflexivity.
Qed.

Lemma records_for_each (new_learning : str) (stored : list str)
      (l : list str) (body : str -> M World unit) :
  (forall x, In x l -> records new_learning stored 1 (body x)) ->
  records new_learning stored (length l) (for_each l body).
Proof.
  induction l as [| x l IH]; intros H; cbn [for_each length].
  - apply records_ret.
  - apply (records_bind new_learning stored 1 (length l)).
    + apply H. now left.
    + apply IH. intros y Hy. apply H. now right.
Qed.

Lemma records_bind_get (new_learning : str) (stored : list str) (n : nat)
      (k : State World -> M World unit) :
  (forall st0, Memory.learnings (memory st0) = stored ->
               records new_learning stored n (k st0)) ->
  records new_learning stored n (bind get k).
Proof. intros Hk st H. unfold bind, get. now apply Hk. Qed.

Lemma records_detect_family (keywords : list str)
      (conflict : str -> str -> bool) (topic new_learning : str)
      (stored : list str) :
  In topic [$"Performance"; $"Event Dates"; $"Layoff Timeline"] ->
  records new_learning stored (length stored)
          (detect_family World P keywords conflict topic new_learning).
Proof.
  intros Ht. unfold detect_family.
  destruct (any_in keywords (lower new_learning)).
  - apply records_bind_get. intros st0 H0. rewrite H0.
    apply records_for_each. intros x Hx.
    destruct (any_in keywords (lower x));
      [| apply (records_weaken _ _ 0); [lia | apply records_ret]].
    destruct (conflict new_learning x);
      [| apply (records_weaken _ _ 0); [lia | apply records_ret]].
    now apply records_add_contradiction.
  - apply (records_weaken _ _ 0); [lia | apply records_ret].
Qed.

(** X21. [detect_contradictions] never raises and only appends: the
    learnings and the urls stay as they are, and each contradiction it
    appends has the new learning as its second claim, a stored learning as
    its first, one of the three topics and no sources, and comes with one
    thought.  At most three are appended for each stored learning, and
    none when nothing is stored. *)
Theorem detect_contradictions_only_appends
        (new_learning : str) (st : State World) :
  let stored := Memory.learnings (memory st) in
  let r := detect_contradictions World P new_learning st in
  fst r = Done tt /\
  Memory.learnings (memory (snd r)) = stored /\
  Memory.visited_urls (memory (snd r)) = Memory.visited_urls (memory st) /\
  exists added,
    Memory.contradictions (memory (snd r)) =
      Memory.contradictions (memory st) ++ added /\
    Forall (detected new_learning stored) added /\
    (length added <= 3 * length stored)%nat /\
    length (Memory.chain_of_thought (memory (snd r))) =
      (length (Memory.chain_of_thought (memory st)) + length added)%nat.
Proof.
  cbv zeta.
  assert (H : records new_learning (Memory.learnings (memory st))
                      (3 * length (Memory.learnings (memory st)))
                      (detect_contradictions World P new_learning)).
  { unfold detect_contradictions.
    apply records_bind_get. intros st0 H0. rewrite H0.
    destruct (Memory.learnings (memory st)) as [| l0 ls] eqn:El.
    - apply records_ret.
    - replace (3 * length (l0 :: ls))%nat
        with (length (l0 :: ls) + (length (l0 :: ls) + length (l0 :: ls)))%nat
        by lia.
      apply records_bind;
        [apply records_detect_family; cbn; tauto |].
      apply records_bind; apply records_detect_family; cbn; tauto. }
  exact (H st eq_refl).
Qed.

(** *** The generated queries *)

Lemma length_slice_to {A} (n : Z) (l : list A) :
  (0 <= n)%Z -> (length (slice_to n l) <= Z.to_nat n)%nat.
Proof.
  intros H. unfold slice_to.
  destruct (Z.leb_spec 0 n); [| lia]. rewrite length_firstn. lia.
Qed.

(** X22. [generate_serp_queries] hands back at most [num_queries]
    queries (for [num_queries >= 0]), does not loop, and raises only when
    building the prompt raises: a failure of the completion service is
    recorded as a thought and gives the empty list. *)
Theorem generate_serp_queries_at_most_num_queries
        (q : str) (num_queries : Z) (st : State World)
        (Hn : (0 <= num_queries)%Z) :
  match fst (generate_serp_queries World P q num_queries st) with
  | Done l => (length l <= Z.to_nat num_queries)%nat
  | Threw e =>
      serp_queries_prompt World P q num_queries
                          (Memory.learnings (memory st)) = Raise e
  | OutOfFuel => False
  end.
Proof.
  unfold generate_serp_queries, bind at 1.
  unfold memory_add_thought, bind at 1, now.
  destruct (clock World P (world st)) as [t w]. unfold modify.
  unfold bind at 1, get at 1. cbn [memory set_memory set_world].
  set (st1 := set_memory World _ _).
  change (Memory.learnings
            (Memory.add_thought t ($"Generating SERP queries for: " ++ q)
                                (memory st)))
    with (Memory.learnings (memory st)).
  unfold bind at 1.
  destruct (serp_queries_prompt World P q num_queries
                                (Memory.learnings (memory st)))
    as [prompt | e]; [| reflexivity].
  cbn [lift_res ret fst snd].
  match goal with
  | |- match fst (try_except ?c ?h st1) with _ => _ end =>
      pose proof (quiet_try_except World c h) as Hq;
      pose proof (never_raises_try_except c h) as Hr;
      pose proof (yields_try_except
                    (fun l => (length l <= Z.to_nat num_queries)%nat) c h)
        as Hy;
      destruct (fst (try_except c h st1)) as [l | e |] eqn:E
  end.
  - apply (Hy) with (st := st1); [| | exact E].
    + apply yields_bind. intros queries. apply yields_bind. intros _.
      apply yields_bind. intros _. apply yields_ret.
      now apply length_slice_to.
    + intros e. apply yields_bind. intros _. apply yields_ret. cbn. lia.
  - exfalso. apply (Hr) with (st := st1) (e := e); [| exact E].
    intros e0. apply never_raises_bind;
      [apply never_raises_memory_add_thought | intros _].
    apply never_raises_ret.
  - assert (Q : quiet (try_except
                         (bind (request_serp_queries World P prompt)
                               (fun queries =>
                                  bind (memory_add_thought World P
                                          ($"Generated " ++
                                           str_of_Z (Z.of_nat (length queries)) ++
                                           $" SERP queries"))
                                       (fun _ =>
                                          bind (for_each_numbered 1 queries
                                                  (fun i sq =>
                                                     memory_add_thought World P
                                                       ($"Query " ++ str_of_Z i ++
                                                        $": " ++ query sq ++
                                                        $" - Goal: " ++
                                                        research_goal sq)))
                                               (fun _ => ret (slice_to num_queries queries)))))
                         (fun e =>
                            bind (memory_add_thought World P
                                    ($"Error generating SERP queries: " ++
                                     exn_msg e))
                                 (fun _ => ret [])))).
    { apply quiet_try_except.
      - apply quiet_bind; [apply quiet_request_serp_queries |].
        intros queries. apply quiet_bind; [apply quiet_memory_add_thought |].
        intros _. apply quiet_bind; [| intros _; apply quiet_ret].
        apply quiet_for_each_numbered. intros i x.
        apply quiet_memory_add_thought.
      - intros e. apply quiet_bind; [apply quiet_memory_add_thought |].
        intros _. apply quiet_ret. }
    destruct (Q st1) as [Q1 _]. apply Q1. exact E.
Qed.

End EngineLogic.

(** The theorems above in a world with scripted services. *)

Lemma static_research_terminates_witness :
  exists result,
    Api.deep_research (R := exact) nat Scripted.providers 2 0%nat
                      $"quantum computing" (Some 3%Z) (Some 2%Z) false
                      5 8 None =
    Engine.Done result.
Proof.
  apply (static_research_terminates (R := exact) nat Scripted.providers);
    cbn; lia.
Defined.

Lemma zero_depth_counts_as_not_given_witness :
  let r := Engine.deep_research (R := exact) nat Scripted.providers 2
                                $"quantum computing" (Some 0%Z) (Some 0%Z)
                                Scripted.engine in
  exists p, Engine.progress (snd r) = Some p /\
            Engine.total_depth p = 2%Z /\ Engine.total_breadth p = 4%Z.
Proof.
  apply (zero_depth_counts_as_not_given
           (R := exact) nat Scripted.providers 2 $"quantum computing"
           (Some 0%Z) (Some 0%Z) Scripted.engine eq_refl).
Defined.

Lemma generate_serp_queries_at_most_num_queries_witness :
  match fst (Engine.generate_serp_queries
               nat Scripted.providers $"quantum computing" 2
               Scripted.engine) with
  | Engine.Done l => (length l <= 2)%nat
  | _ => False
  end.
Proof.
  pose proof (generate_serp_queries_at_most_num_queries
                nat Scripted.providers $"quantum computing" 2
                Scripted.engine ltac:(lia)) as H.
  destruct (fst (Engine.generate_serp_queries
                   nat Scripted.providers $"quantum computing" 2
                   Scripted.engine)) as [l | e |].
  - exact H.
  - discriminate H.
  - exact H.
Defined.

(** ** The validators of the ratings *)

Section ModelsFacts.
Import Models.

Lemma validate_one_of_normalises (field : str) (valid : list str) (v : str) :
  (forall r, In r valid -> lower r = r) ->
  match validate_one_of field valid v with
  | Ok r => r = lower v /\ In r valid /\ validate_one_of field valid r = Ok r
  | Raise _ => ~ In (lower v) valid
  end.
Proof.
  intros Hl. unfold validate_one_of.
  destruct (mem (lower v) valid) eqn:E.
  - apply mem_In in E. split; [reflexivity |]. split; [exact E |].
    rewrite (Hl _ E). apply mem_In in E. now rewrite E.
  - intros H. apply mem_In in H. congruence.
Qed.

Lemma valid_ratings_lower (r : str) : In r valid_ratings -> lower r = r.
Proof.
  intros H. cbn in H.
  repeat (destruct H as [<- | H]; [reflexivity |]). destruct H.
Qed.

Lemma valid_levels_lower (r : str) : In r valid_levels -> lower r = r.
Proof.
  intros H. cbn in H.
  repeat (destruct H as [<- | H]; [reflexivity |]). destruct H.
Qed.
End ModelsFacts.

(** X24. Each of the three validators accepts a value exactly when its
    lowercased form is one of the allowed words, returns that lowercased
    form, and accepts what it returns unchanged; the two rating validators
    accept the same values, and the confidence validator accepts the
    ratings except "medium-high". *)
Theorem rating_validators_normalise (v : str) :
  match Models.validate_credibility_rating v with
  | Ok r => r = lower v /\ In r Models.valid_ratings /\
            Models.validate_credibility_rating r = Ok r
  | Raise _ => ~ In (lower v) Models.valid_ratings
  end /\
  match Models.validate_relevance_rating v with
  | Ok r => Models.validate_credibility_rating v = Ok r /\
            Models.validate_relevance_rating r = Ok r
  | Raise _ => ~ In (lower v) Models.valid_ratings
  end /\
  match Models.validate_confidence v with
  | Ok r => r = lower v /\ In r Models.valid_levels /\
            Models.validate_confidence r = Ok r /\
            Models.validate_credibility_rating v = Ok r
  | Raise _ => ~ In (lower v) Models.valid_levels
  end.
Proof.
  unfold Models.validate_credibility_rating, Models.validate_relevance_rating,
    Models.validate_confidence.
  pose proof (validate_one_of_normalises
                $"Credibility rating" Models.valid_ratings v
                valid_ratings_lower) as H1.
  pose proof (validate_one_of_normalises
                $"Relevance rating" Models.valid_ratings v
                valid_ratings_lower) as H2.
  pose proof (validate_one_of_normalises
                $"Confidence" Models.valid_levels v valid_levels_lower) as H3.
  split; [exact H1 |]. split.
  - unfold Models.validate_one_of in *.
    destruct (mem (lower v) Models.valid_ratings); [| exact H2].
    destruct H2 as [_ [_ H2]]. now split.
  - unfold Models.validate_one_of in *.
    destruct (mem (lower v) Models.valid_levels) eqn:E; [| exact H3].
    destruct H3 as [E1 [E2 E3]]. repeat split; try assumption.
    assert (Hin : In (lower v) Models.valid_ratings).
    { cbn in E2. cbn. tauto. }
    apply mem_In in Hin. now rewrite Hin.
Qed.

(** ** The chain of thought read back by the report *)

Section SessionFacts.
Import Session.

Lemma stamp_digit (d : nat) : (d <= 9)%nat -> stamp_char (digit_char d) = true.
Proof.
  intros H. do 10 (destruct d as [| d]; [reflexivity |]). lia.
Qed.

Lemma stamp_digits_of_pos (fuel : nat) :
  forall n acc, forallb stamp_char acc = true ->
                forallb stamp_char (digits_of_pos fuel n acc) = true.
Proof.
  induction fuel as [| f IH]; intros n acc H; cbn [digits_of_pos];
    [exact H |].
  assert (Hd : forallb stamp_char
                       (digit_char (Z.to_nat (n mod 10)) :: acc) = true).
  { cbn [forallb]. rewrite H, stamp_digit; [reflexivity |].
    pose proof (Z.mod_pos_bound n 10 ltac:(lia)). lia. }
  destruct (n / 10 =? 0)%Z; [exact Hd | now apply IH].
Qed.

Lemma stamp_str_of_Z (n : Z) : forallb stamp_char (str_of_Z n) = true.
Proof.
  unfold str_of_Z. destruct (n <? 0)%Z.
  - cbn [forallb]. now rewrite stamp_digits_of_pos.
  - now apply stamp_digits_of_pos.
Qed.

Lemma forallb_repeat {A} (f : A -> bool) (x : A) (n : nat) :
  f x = true -> forallb f (repeat x n) = true.
Proof.
  intros H. induction n as [| n IH]; [reflexivity |].
  cbn [repeat forallb]. now rewrite H, IH.
Qed.

Lemma stamp_pad (w : nat) (n : Z) : forallb stamp_char (pad w n) = true.
Proof.
  unfold pad. rewrite forallb_app, stamp_str_of_Z, forallb_repeat;
    reflexivity.
Qed.

Lemma stamp_strftime_full (t : datetime) :
  forallb stamp_char (strftime_full t) = true.
Proof.
  unfold strftime_full, strftime_date, strftime_clock.
  rewrite !forallb_app, !stamp_pad. reflexivity.
Qed.

Lemma stamp_not_special (c : ascii) :
  stamp_char c = true ->
  is_bracket c = false /\ Ascii.eqb "A"%char c = false.
Proof.
  destruct c as [[] [] [] [] [] [] [] []]; cbn; intros H;
    try discriminate; now split.
Qed.

Lemma split_once_after (pre post : str) :
  forallb (fun c => negb (Ascii.eqb "]"%char c)) pre = true ->
  split_once $"] " (pre ++ $"] " ++ post) = Some (pre, post).
Proof.
  induction pre as [| c p IH]; intros H.
  - reflexivity.
  - cbn [forallb] in H. apply andb_true_iff in H. destruct H as [Hc Hp].
    apply negb_true_iff in Hc.
    change ((c :: p) ++ $"] " ++ post) with (c :: (p ++ $"] " ++ post)).
    cbn [split_once]. change ($"] ") with ["]"%char; " "%char].
    cbn [starts_with]. rewrite Hc. cbn [andb].
    change ["]"%char; " "%char] with ($"] "). now rewrite IH.
Qed.

Lemma lstrip_brackets_plain (s : str) :
  forallb (fun c => negb (is_bracket c)) s = true -> lstrip_brackets s = s.
Proof.
  destruct s as [| c t]; [reflexivity |]. cbn [forallb lstrip_brackets].
  intros H. apply andb_true_iff in H. destruct H as [H _].
  apply negb_true_iff in H. now rewrite H.
Qed.

Lemma forallb_rev {A} (f : A -> bool) (l : list A) :
  forallb f (rev l) = forallb f l.
Proof.
  induction l as [| x t IH]; [reflexivity |].
  cbn [rev forallb]. rewrite forallb_app, IH. cbn [forallb].
  rewrite andb_true_r. apply andb_comm.
Qed.

Lemma strip_brackets_opening (s : str) :
  forallb (fun c => negb (is_bracket c)) s = true ->
  strip_brackets ("["%char :: s) = s.
Proof.
  intros H. unfold strip_brackets. cbn [lstrip_brackets].
  change (is_bracket "["%char) with true. cbv iota.
  rewrite (lstrip_brackets_plain s H), lstrip_brackets_plain.
  - apply rev_involutive.
  - now rewrite forallb_rev.
Qed.

Lemma forallb_impl {A} (f g : A -> bool) (l : list A) :
  (forall x, f x = true -> g x = true) ->
  forallb f l = true -> forallb g l = true.
Proof.
  intros H E. apply forallb_forall. intros x Hx.
  apply H. revert x Hx. now apply forallb_forall.
Qed.

(** A needle whose first character does not occur in [pre] is found in
    [pre ++ s] only where it is found in [s]. *)
Lemma contains_behind (a : ascii) (p pre s : str) :
  forallb (fun c => negb (Ascii.eqb a c)) pre = true ->
  contains (a :: p) (pre ++ s) = contains (a :: p) s.
Proof.
  induction pre as [| c t IH]; intros H; [reflexivity |].
  cbn [forallb] in H. apply andb_true_iff in H. destruct H as [Hc Ht].
  apply negb_true_iff in Hc.
  cbn [app contains starts_with]. rewrite Hc. cbn [andb orb]. now apply IH.
Qed.

Lemma render_stored_entry (t : datetime) (thought : str) :
  render_entry (stored_entry t thought) =
  $"- **" ++ strftime_full t ++ $"**: " ++ thought ++ newline.
Proof.
  unfold render_entry, stored_entry.
  pose proof (stamp_strftime_full t) as Hs.
  change ($"[" ++ strftime_full t ++ $"] " ++ thought)
    with (("["%char :: strftime_full t) ++ $"] " ++ thought).
  rewrite split_once_after.
  - rewrite strip_brackets_opening; [reflexivity |].
    revert Hs. apply forallb_impl. intros c Hc.
    apply stamp_not_special in Hc. destruct Hc as [Hc _]. now rewrite Hc.
  - cbn [forallb]. change (negb (Ascii.eqb "]"%char "["%char)) with true.
    cbn [andb]. revert Hs. apply forallb_impl. intros c Hc.
    apply stamp_not_special in Hc. destruct Hc as [Hc _].
    unfold is_bracket in Hc. apply orb_false_iff in Hc.
    destruct Hc as [_ Hc]. rewrite Ascii.eqb_sym. now rewrite Hc.
Qed.

Lemma is_auto_tuning_stored_entry (t : datetime) (thought : str) :
  is_auto_tuning (stored_entry t thought) = is_auto_tuning thought.
Proof.
  unfold is_auto_tuning, stored_entry.
  pose proof (stamp_strftime_full t) as Hs.
  assert (Hpre : forallb (fun c => negb (Ascii.eqb "A"%char c))
                         ($"[" ++ strftime_full t ++ $"] ") = true).
  { rewrite !forallb_app. apply andb_true_iff. split; [reflexivity |].
    apply andb_true_iff. split; [| reflexivity].
    revert Hs. apply forallb_impl. intros c Hc.
    apply stamp_not_special in Hc. destruct Hc as [_ Hc]. now rewrite Hc. }
  replace ($"[" ++ strftime_full t ++ $"] " ++ thought)
    with (($"[" ++ strftime_full t ++ $"] ") ++ thought)
    by (rewrite <- !app_assoc; reflexivity).
  change ($"Auto-tuned parameters")
    with ("A"%char :: $"uto-tuned parameters").
  change ($"Auto-adjusted parameters")
    with ("A"%char :: $"uto-adjusted parameters").
  now rewrite !contains_behind.
Qed.
End SessionFacts.

(** X25. What [add_thought] stores is read back by the report: the
    entry of a thought is the thought behind its bracketed timestamp, and
    [format_auto_tuning_section] renders it as the timestamp in bold and
    the thought itself, even when the thought contains brackets.  The
    section of a chain with one thought is empty unless the thought is on
    auto-tuning. *)
Theorem thought_is_read_back_by_the_report
        (t t0 : datetime) (thought : str) (m : Memory.ResearchMemory) :
  let entry := $"[" ++ strftime_full t ++ $"] " ++ thought in
  let line := $"- **" ++ strftime_full t ++ $"**: " ++ thought ++
              Session.newline in
  Memory.chain_of_thought (Memory.add_thought t thought m) =
    Memory.chain_of_thought m ++ [entry] /\
  Session.render_entry entry = line /\
  Session.format_auto_tuning_section
    (Memory.chain_of_thought
       (Memory.add_thought t thought (Memory.init t0))) =
    (if Session.is_auto_tuning thought
     then Session.heading ++ line ++ Session.explanation
     else []).
Proof.
  cbv zeta. split; [reflexivity |].
  split; [apply render_stored_entry |].
  unfold Session.format_auto_tuning_section.
  cbn [Memory.add_thought Memory.init Memory.chain_of_thought
       Memory.set_chain_of_thought app filter].
  fold (Session.stored_entry t thought).
  rewrite is_auto_tuning_stored_entry.
  destruct (Session.is_auto_tuning thought); [| reflexivity].
  cbn [map concat]. rewrite render_stored_entry, app_nil_r, <- !app_assoc.
  reflexivity.
Qed.

(** ** The text splitter *)

Section SplitterFacts.
Import Engine Splitter.

(** *** Joining *)

Lemma join_cons (sep x : str) (l : list str) :
  l <> [] -> join sep (x :: l) = x ++ sep ++ join sep l.
Proof. destruct l; [congruence | reflexivity]. Qed.

Lemma join_length_suffix (sep : str) (a b : list str) :
  (length (join sep b) <= length (join sep (a ++ b)))%nat.
Proof.
  induction a as [| x a IH]; [apply Nat.le_refl |].
  cbn [app]. destruct (a ++ b) as [| y l] eqn:E.
  - destruct a; destruct b; try discriminate. apply Nat.le_0_l.
  - rewrite join_cons by discriminate. rewrite !length_app. lia.
Qed.

Lemma join_length_prefix (sep : str) (a b : list str) :
  (length (join sep a) <= length (join sep (a ++ b)))%nat.
Proof.
  induction a as [| x a IH]; [cbn; lia |].
  cbn [app]. destruct a as [| y a'].
  - cbn [app join]. destruct b; [apply Nat.le_refl |].
    rewrite !length_app. lia.
  - cbn [app] in IH |- *.
    rewrite (join_cons sep x (y :: a')) by discriminate.
    rewrite (join_cons sep x (y :: a' ++ b)) by discriminate.
    rewrite !length_app. lia.
Qed.

Lemma join_length_member (sep p : str) (l : list str) :
  In p l -> (length p <= length (join sep l))%nat.
Proof.
  intros H. apply in_split in H. destruct H as [a [b ->]].
  eapply Nat.le_trans; [| apply join_length_suffix].
  apply (join_length_prefix sep [p] b).
Qed.

Lemma join_length_after (sep : str) (a l : list str) :
  a <> [] -> l <> [] ->
  (length sep + length (join sep l) <= length (join sep (a ++ l)))%nat.
Proof.
  intros Ha Hl. induction a as [| x a IH]; [congruence |].
  destruct a as [| y a'].
  - cbn [app]. rewrite join_cons by exact Hl. rewrite !length_app. lia.
  - cbn [app] in IH |- *.
    rewrite (join_cons sep x (y :: a' ++ l)) by discriminate.
    rewrite !length_app. specialize (IH ltac:(discriminate)). lia.
Qed.

Lemma join_length_one_of_many (sep p : str) (l : list str) :
  In p l -> (2 <= length l)%nat ->
  (length p + length sep <= length (join sep l))%nat.
Proof.
  intros H Hl. apply in_split in H. destruct H as [a [b ->]].
  destruct a as [| x a'].
  - destruct b as [| y b']; [cbn in Hl; lia |].
    cbn [app]. rewrite join_cons by discriminate. rewrite !length_app. lia.
  - pose proof (join_length_after sep (x :: a') (p :: b)
                  ltac:(discriminate) ltac:(discriminate)) as H1.
    pose proof (join_length_prefix sep [p] b) as H2.
    change (join sep [p]) with p in H2. change ([p] ++ b) with (p :: b) in H2.
    lia.
Qed.

(** *** Stripping *)

Lemma lstrip_suffix (s : str) : exists pre, s = pre ++ lstrip s.
Proof.
  induction s as [| c t [pre IH]]; [now exists [] |].
  cbn [lstrip]. destruct (is_space c).
  - exists (c :: pre). cbn [app]. now rewrite <- IH.
  - now exists [].
Qed.

Lemma lstrip_clean (s : str) : clean (lstrip s).
Proof.
  induction s as [| c t IH]; [exact I |].
  cbn [lstrip]. destruct (is_space c) eqn:E; [exact IH | exact E].
Qed.

Lemma lstrip_of_clean (s : str) : clean s -> lstrip s = s.
Proof.
  destruct s as [| c t]; [reflexivity |]. cbn [clean lstrip].
  now intros ->.
Qed.

Lemma clean_prefix (a b : str) : clean (a ++ b) -> clean a.
Proof. destruct a; [exact (fun _ => I) | exact (fun H => H)]. Qed.

Lemma strip_length (s : str) : (length (strip s) <= length s)%nat.
Proof.
  unfold strip. rewrite length_rev.
  destruct (lstrip_suffix s) as [p1 E1].
  destruct (lstrip_suffix (rev (lstrip s))) as [p2 E2].
  apply (f_equal (@length ascii)) in E1, E2.
  rewrite length_app in E1, E2. rewrite length_rev in E2. lia.
Qed.

Lemma strip_idem (s : str) : strip (strip s) = strip s.
Proof.
  unfold strip.
  set (u := lstrip s). set (v := lstrip (rev u)).
  assert (Hv : clean v) by apply lstrip_clean.
  assert (Hu : clean u) by apply lstrip_clean.
  assert (Hr : clean (rev v)).
  { destruct (lstrip_suffix (rev u)) as [pre E]. fold v in E.
    apply (f_equal (@rev ascii)) in E.
    rewrite rev_involutive, rev_app_distr in E.
    rewrite E in Hu. now apply clean_prefix in Hu. }
  rewrite (lstrip_of_clean (rev v) Hr), rev_involutive.
  now rewrite (lstrip_of_clean v Hv).
Qed.

Lemma join_docs_chunk (docs : list str) (sep text : str) :
  join_docs docs sep = Some text ->
  chunk_of (length (join sep docs)) text.
Proof.
  unfold join_docs, chunk_of. intros H.
  destruct (strip (join sep docs)) as [| c t] eqn:E; [discriminate |].
  injection H as <-. rewrite <- E.
  split; [rewrite E; discriminate |].
  split; [apply strip_idem | apply strip_length].
Qed.

Lemma chunk_of_le (n m : nat) (c : str) :
  (n <= m)%nat -> chunk_of n c -> chunk_of m c.
Proof. intros H [H1 [H2 H3]]. repeat split; try assumption. lia. Qed.

(** *** Merging *)

Lemma pop_front_suffix (self : TextSplitter) (len_d : Z) (cur : list str) :
  forall total,
    exists dropped, cur = dropped ++ fst (pop_front self len_d cur total).
Proof.
  induction cur as [| x cur IH]; intros total; [now exists [] |].
  cbn [pop_front].
  destruct ((chunk_overlap self <? total)%Z
            || (chunk_size self <? total + len_d)%Z && (0 <? total)%Z).
  - destruct (IH (total - len x)%Z) as [dropped E].
    exists (x :: dropped). cbn [app]. now rewrite <- E.
  - now exists [].
Qed.

Lemma append_doc_chunks (bound : nat) (docs cur : list str) (sep : str) :
  Forall (chunk_of bound) docs ->
  (length (join sep cur) <= bound)%nat ->
  Forall (chunk_of bound) (append_doc docs (join_docs cur sep)).
Proof.
  intros Hd Hb. unfold append_doc.
  destruct (join_docs cur sep) as [text |] eqn:E; [| exact Hd].
  apply Forall_app. split; [exact Hd |]. constructor; [| constructor].
  apply join_docs_chunk in E. now apply (chunk_of_le _ _ _ Hb).
Qed.

(** The documents [merge_splits] makes out of pieces are chunks of what
    the pieces join to. *)
Lemma merge_loop_chunks (self : TextSplitter) (sep : str) (bound : nat)
      (splits : list str) :
  forall docs cur total,
    Forall (chunk_of bound) docs ->
    (length (join sep (cur ++ splits)) <= bound)%nat ->
    Forall (chunk_of bound) (merge_loop self sep splits docs cur total).
Proof.
  induction splits as [| d rest IH]; intros docs cur total Hd Hb.
  - cbn [merge_loop]. rewrite app_nil_r in Hb.
    now apply append_doc_chunks.
  - cbn [merge_loop]. cbv zeta.
    assert (Hcur : (length (join sep cur) <= bound)%nat).
    { eapply Nat.le_trans; [apply join_length_prefix | exact Hb]. }
    assert (Hsame : (length (join sep ((cur ++ [d]) ++ rest)) <= bound)%nat).
    { now rewrite <- app_assoc. }
    destruct (chunk_size self <=? total + len d)%Z.
    + destruct cur as [| x cur'].
      * apply IH; assumption.
      * destruct (pop_front_suffix self (len d) (x :: cur') total)
          as [dropped E].
        destruct (pop_front self (len d) (x :: cur') total)
          as [current' total'].
        cbn [fst] in E. apply IH.
        -- now apply append_doc_chunks.
        -- eapply Nat.le_trans; [| exact Hb].
           rewrite E, <- !app_assoc. apply join_length_suffix.
    + apply IH; assumption.
Qed.

Lemma merge_splits_chunks (self : TextSplitter) (sep : str)
      (splits : list str) :
  Forall (chunk_of (length (join sep splits)))
         (merge_splits self splits sep).
Proof.
  unfold merge_splits. apply merge_loop_chunks; [constructor |].
  apply Nat.le_refl.
Qed.

(** *** Splitting at a separator *)

Lemma split_on_aux_nonempty (sep : str) (s : str) :
  forall skip cur, split_on_aux sep skip cur s <> [].
Proof.
  induction s as [| c t IH]; intros skip cur; cbn [split_on_aux];
    [discriminate |].
  destruct skip; [| apply IH].
  destruct (starts_with sep (c :: t)); [discriminate | apply IH].
Qed.

Lemma split_on_aux_skip (sep : str) (pre : str) :
  forall s cur,
    split_on_aux sep (length pre) cur (pre ++ s) = split_on_aux sep 0 cur s.
Proof.
  induction pre as [| c pre IH]; intros s cur; [reflexivity |].
  cbn [length app split_on_aux]. apply IH.
Qed.

Lemma starts_with_prefix (p s : str) :
  starts_with p s = true -> exists s', s = p ++ s'.
Proof.
  revert s. induction p as [| a p IH]; intros s H; [now exists s |].
  destruct s as [| c t]; [discriminate |].
  cbn [starts_with] in H. apply andb_true_iff in H. destruct H as [H1 H2].
  apply Ascii.eqb_eq in H1. subst c.
  destruct (IH t H2) as [s' ->]. now exists s'.
Qed.

(** Joining the pieces of a text with the separator gives the text
    back. *)
Lemma join_split_on_aux (sep : str) :
  sep <> [] ->
  forall n s cur,
    (length s <= n)%nat ->
    join sep (split_on_aux sep 0 cur s) = rev cur ++ s.
Proof.
  intros Hsep. induction n as [| n IH]; intros s cur Hn.
  - destruct s; [| cbn in Hn; lia]. cbn. now rewrite app_nil_r.
  - destruct s as [| c t]; [cbn; now rewrite app_nil_r |].
    cbn [split_on_aux].
    destruct (starts_with sep (c :: t)) eqn:E.
    + apply starts_with_prefix in E. destruct E as [s' E].
      destruct sep as [| a sep']; [congruence |].
      cbn [app] in E. injection E as -> ->.
      replace (length (a :: sep') - 1)%nat with (length sep')
        by (cbn [length]; lia).
      rewrite split_on_aux_skip.
      rewrite join_cons by apply split_on_aux_nonempty.
      rewrite IH.
      * reflexivity.
      * cbn [length] in Hn. rewrite length_app in Hn. lia.
    + rewrite IH by (cbn [length] in Hn; lia).
      cbn [rev]. now rewrite <- app_assoc.
Qed.

Lemma split_on_two_pieces (sep : str) :
  sep <> [] ->
  forall s cur skip,
    skip = 0%nat -> contains sep s = true ->
    (2 <= length (split_on_aux sep skip cur s))%nat.
Proof.
  intros Hsep. induction s as [| c t IH]; intros cur skip -> H.
  - destruct sep; [congruence | discriminate].
  - cbn [split_on_aux]. cbn [contains] in H.
    destruct (starts_with sep (c :: t)) eqn:E.
    + cbn [length].
      pose proof (split_on_aux_nonempty sep t (length sep - 1) []) as Hne.
      destruct (split_on_aux sep (length sep - 1) [] t);
        [congruence | cbn [length]; lia].
    + cbn [orb] in H. now apply IH.
Qed.

Lemma join_singletons (text : str) :
  join [] (map (fun c => [c]) text) = text.
Proof.
  induction text as [| c t IH]; [reflexivity |].
  cbn [map]. destruct t as [| c2 t']; [reflexivity |].
  rewrite join_cons by discriminate. cbn [app]. now rewrite IH.
Qed.

Lemma pieces_join (sep text : str) : join sep (pieces sep text) = text.
Proof.
  unfold pieces. destruct sep as [| a sep'].
  - apply join_singletons.
  - unfold split_on.
    now rewrite (join_split_on_aux (a :: sep') ltac:(discriminate)
                                   (length text)).
Qed.

(** A piece is shorter than the text, or a single character. *)
Lemma pieces_shorter (sep text p : str) :
  sep = [] \/ contains sep text = true ->
  In p (pieces sep text) ->
  (length p < length text)%nat \/ (length p <= 1)%nat.
Proof.
  intros Hs Hp. destruct sep as [| a sep'].
  - right. unfold pieces in Hp. apply in_map_iff in Hp.
    destruct Hp as [c [<- _]]. cbn. lia.
  - left. destruct Hs as [Hs | Hs]; [discriminate |].
    pose proof (pieces_join (a :: sep') text) as Ej.
    pose proof (join_length_one_of_many (a :: sep') p _ Hp) as Hl.
    unfold pieces, split_on in *.
    rewrite Ej in Hl. cbn [length] in Hl.
    assert (H2 : (2 <= length (split_on_aux (a :: sep') 0 [] text))%nat).
    { apply split_on_two_pieces; [discriminate | reflexivity | exact Hs]. }
    specialize (Hl H2). lia.
Qed.

(** *** The separator of a text *)

Lemma first_separator_found (seps : list str) (text : str) :
  In [] seps ->
  exists s, first_separator seps text = Some s /\
            (s = [] \/ contains s text = true).
Proof.
  induction seps as [| x seps IH]; intros H; [destruct H |].
  cbn [first_separator]. destruct x as [| a x'].
  - exists []. split; [reflexivity | now left].
  - destruct (contains (a :: x') text) eqn:E.
    + exists (a :: x'). split; [reflexivity | now right].
    + destruct H as [H | H]; [discriminate | now apply IH].
Qed.

Lemma choose_separator_found (self : TextSplitter) (text : str) :
  In [] (separators self) ->
  exists s, choose_separator self text = Ok s /\
            (s = [] \/ contains s text = true).
Proof.
  intros H. unfold choose_separator.
  destruct (first_separator_found _ text H) as [s [E Hs]].
  rewrite E. destruct (rev (separators self)) eqn:Er.
  - apply (f_equal (@rev str)) in Er. rewrite rev_involutive in Er.
    rewrite Er in H. destruct H.
  - now exists s.
Qed.

Lemma first_separator_some (seps : list str) (text s : str) :
  first_separator seps text = Some s ->
  In s seps /\ (s = [] \/ contains s text = true).
Proof.
  induction seps as [| x seps IH]; [discriminate |].
  cbn [first_separator]. destruct x as [| a x'].
  - intros H. injection H as <-. split; [now left | now left].
  - destruct (contains (a :: x') text) eqn:E.
    + intros H. injection H as <-. split; [now left | now right].
    + intros H. destruct (IH H) as [H1 H2]. split; [now right | exact H2].
Qed.

Lemma first_separator_none (seps : list str) (text : str) :
  first_separator seps text = None -> ~ In [] seps.
Proof.
  induction seps as [| x seps IH]; [intros _ [] |].
  cbn [first_separator]. destruct x as [| a x']; [discriminate |].
  destruct (contains (a :: x') text); [discriminate |].
  intros H [H1 | H1]; [discriminate | now apply IH].
Qed.

Lemma split_on_aux_absent (sep : str) :
  forall s cur,
    contains sep s = false -> split_on_aux sep 0 cur s = [rev cur ++ s].
Proof.
  induction s as [| c t IH]; intros cur H.
  - cbn. now rewrite app_nil_r.
  - cbn [split_on_aux]. cbn [contains] in H.
    apply orb_false_iff in H. destruct H as [H1 H2].
    rewrite H1, IH by exact H2. cbn [rev]. now rewrite <- app_assoc.
Qed.

(** *** The loop over the pieces *)

Lemma flush_chunks (self : TextSplitter) (sep : str) (bound : nat)
      (good final : list str) :
  Forall (chunk_of bound) final ->
  (length (join sep good) <= bound)%nat ->
  Forall (chunk_of bound) (flush self sep good final).
Proof.
  intros Hf Hb. unfold flush. destruct good as [| g good']; [exact Hf |].
  apply Forall_app. split; [exact Hf |].
  eapply Forall_impl; [| apply merge_splits_chunks].
  intros c. now apply chunk_of_le.
Qed.

Lemma split_loop_chunks (recur : str -> outcome (list str))
      (self : TextSplitter) (sep : str) (bound : nat) (splits : list str) :
  forall good final,
    (forall s, In s splits -> (len s <? chunk_size self)%Z = false ->
               exists chunks, recur s = Done chunks /\
                              Forall (chunk_of bound) chunks) ->
    Forall (chunk_of bound) final ->
    (length (join sep (good ++ splits)) <= bound)%nat ->
    exists chunks,
      split_loop recur self sep splits good final = Done chunks /\
      Forall (chunk_of bound) chunks.
Proof.
  induction splits as [| s rest IH]; intros good final Hr Hf Hb.
  - cbn [split_loop]. eexists. split; [reflexivity |].
    rewrite app_nil_r in Hb. now apply flush_chunks.
  - cbn [split_loop]. destruct (len s <? chunk_size self)%Z eqn:E.
    + apply IH.
      * intros s' Hs'. apply Hr. now right.
      * exact Hf.
      * now rewrite <- app_assoc.
    + destruct (Hr s (or_introl eq_refl) E) as [other [-> Ho]].
      apply IH.
      * intros s' Hs'. apply Hr. now right.
      * apply Forall_app. split; [| exact Ho].
        apply flush_chunks; [exact Hf |].
        eapply Nat.le_trans; [apply join_length_prefix | exact Hb].
      * eapply Nat.le_trans; [| exact Hb].
        replace (good ++ s :: rest) with ((good ++ [s]) ++ rest)
          by now rewrite <- app_assoc.
        apply (join_length_suffix sep (good ++ [s]) rest).
Qed.

Lemma split_text_chunks (self : TextSplitter) :
  In [] (separators self) -> (2 <= chunk_size self)%Z ->
  forall fuel text,
    (length text < fuel)%nat ->
    exists chunks,
      split_text fuel self text = Done chunks /\
      Forall (chunk_of (length text)) chunks.
Proof.
  intros Hsep Hcs. induction fuel as [| fuel IH]; intros text Hf; [lia |].
  cbn [split_text].
  destruct (choose_separator_found self text Hsep) as [sep [-> Hs]].
  apply split_loop_chunks.
  - intros s Hin Hlen. apply Z.ltb_ge in Hlen. unfold len in Hlen.
    destruct (pieces_shorter sep text s Hs Hin) as [Hlt | Hle]; [| lia].
    destruct (IH s ltac:(lia)) as [chunks [E Hc]].
    exists chunks. split; [exact E |].
    eapply Forall_impl; [| exact Hc].
    intros c. apply chunk_of_le. lia.
  - constructor.
  - cbn [app]. rewrite pieces_join. apply Nat.le_refl.
Qed.

Lemma split_text_stuck (self : TextSplitter) (text : str) :
  separators self <> [] ->
  (forall s, In s (separators self) -> s = [] \/ contains s text = false) ->
  (In [] (separators self) -> length text = 1%nat) ->
  (chunk_size self <= len text)%Z ->
  forall fuel, split_text fuel self text = OutOfFuel.
Proof.
  intros Hne Habs Hone Hcs. induction fuel as [| fuel IH]; [reflexivity |].
  cbn [split_text]. unfold choose_separator.
  assert (Hp : forall sep, In sep (separators self) ->
                           pieces sep text = [text]).
  { intros sep Hin. unfold pieces. destruct sep as [| a sep'].
    - specialize (Hone Hin). destruct text as [| c [| c2 t]]; try discriminate.
      reflexivity.
    - destruct (Habs _ Hin) as [H | H]; [discriminate |].
      unfold split_on. now rewrite split_on_aux_absent. }
  assert (Hstep : forall sep, In sep (separators self) ->
            split_loop (split_text fuel self) self sep (pieces sep text)
                       [] [] = OutOfFuel).
  { intros sep Hin. rewrite (Hp sep Hin). cbn [split_loop].
    apply Z.ltb_ge in Hcs. rewrite Hcs. now rewrite IH. }
  destruct (rev (separators self)) as [| last others] eqn:Er.
  - apply (f_equal (@rev str)) in Er. rewrite rev_involutive in Er.
    cbn in Er. congruence.
  - destruct (first_separator (separators self) text) as [s |] eqn:E.
    + apply first_separator_some in E. apply Hstep, E.
    + apply Hstep. apply in_rev. rewrite Er. now left.
Qed.

(** X26 (utils/text_splitter.py, RecursiveCharacterTextSplitter.split_text
    with merge_splits and _join_docs).  When the empty string is among the
    separators, as it is by default, and the chunk size is at least 2,
    splitting returns for every text: a nesting of the recursive calls
    above the length of the text is enough.  Every chunk it returns is
    non-empty, has no blank at either end and is no longer than the
    text. *)
Theorem split_text_returns_clean_chunks
        (self : TextSplitter) (text : str) (fuel : nat) :
  In [] (separators self) -> (2 <= chunk_size self)%Z ->
  (length text < fuel)%nat ->
  exists chunks,
    split_text fuel self text = Done chunks /\
    forall c, In c chunks ->
              c <> [] /\ strip c = c /\ (length c <= length text)%nat.
Proof.
  intros Hsep Hcs Hf.
  destruct (split_text_chunks self Hsep Hcs fuel text Hf) as [chunks [E H]].
  exists chunks. split; [exact E |].
  intros c Hc. rewrite Forall_forall in H. exact (H c Hc).
Qed.

Lemma split_text_returns_clean_chunks_witness :
  exists chunks,
    split_text 12 (MkSplitter 4 0 default_separators) $"ab. cd, ef" =
      Done chunks /\
    forall c, In c chunks ->
              c <> [] /\ strip c = c /\
              (length c <= length $"ab. cd, ef")%nat.
Proof.
  apply (split_text_returns_clean_chunks
           (MkSplitter 4 0 default_separators) $"ab. cd, ef" 12).
  - cbn. tauto.
  - cbn. lia.
  - cbn. lia.
Defined.

(** X27 (utils/text_splitter.py, RecursiveCharacterTextSplitter.split_text).
    A text that reaches the chunk size and in which no non-empty separator
    occurs is split into itself, so the function calls itself on the same
    text again: it never returns.  With the empty string among the
    separators this happens for a text of one character, that is for a
    chunk size of 1 or less.  Whatever bound is put on the nesting of the
    calls is used up. *)
Theorem split_text_never_returns_on_unsplittable_text
        (self : TextSplitter) (text : str) (fuel : nat) :
  separators self <> [] ->
  (forall s, In s (separators self) -> s = [] \/ contains s text = false) ->
  (In [] (separators self) -> length text = 1%nat) ->
  (chunk_size self <= len text)%Z ->
  split_text fuel self text = OutOfFuel.
Proof.
  intros H1 H2 H3 H4. now apply split_text_stuck.
Qed.

Lemma split_text_never_returns_on_unsplittable_text_witness :
  split_text 1000 (MkSplitter 5 0 [$" "; $","]) $"abcdefgh" = OutOfFuel.
Proof.
  apply (split_text_never_returns_on_unsplittable_text
           (MkSplitter 5 0 [$" "; $","]) $"abcdefgh" 1000).
  - discriminate.
  - intros s [<- | [<- | []]]; right; reflexivity.
  - intros [H | [H | []]]; discriminate.
  - cbn. lia.
Defined.
End SplitterFacts.

(** ** Trimming a prompt *)

Section TrimPromptFacts.
Import Engine Splitter Llm.

Variable encode : str -> res nat.
Variable environment_context_size : res Z.

Lemma length_slice_to_nonneg {A} (n : Z) (l : list A) :
  (0 <= n)%Z -> length (slice_to n l) = Nat.min (Z.to_nat n) (length l).
Proof.
  intros H. unfold slice_to. apply Z.leb_le in H. rewrite H.
  apply length_firstn.
Qed.

Lemma first_or_empty_length (bound : nat) (splits : list str) :
  Forall (chunk_of bound) splits ->
  (length (first_or_empty splits) <= bound)%nat.
Proof.
  intros H. destruct splits as [| s rest]; [cbn; lia |].
  inversion H as [| ? ? [_ [_ Hs]] _]. exact Hs.
Qed.

Lemma trimmed_le (n m : nat) (cs : Z) (o : outcome str) :
  (n <= m)%nat -> trimmed encode n cs o -> trimmed encode m cs o.
Proof.
  intros H. destruct o as [r | e |]; cbn [trimmed].
  - intros [H1 H2]. split; [lia | exact H2].
  - intros [s [H1 H2]]. exists s. split; [lia | exact H2].
  - exact (fun F => F).
Qed.

Lemma trim_prompt_trimmed :
  forall fuel prompt context_size cs,
    resolve environment_context_size context_size = Ok cs ->
    (length prompt < fuel)%nat ->
    trimmed encode (length prompt) cs
            (trim_prompt encode environment_context_size fuel prompt
                         context_size).
Proof.
  induction fuel as [| fuel IH]; intros prompt context_size cs Hcs Hf;
    [lia |].
  cbn [trim_prompt]. rewrite Hcs.
  destruct prompt as [| c0 t0] eqn:Ep; [cbn; split; [lia | left; lia] |].
  rewrite <- Ep in *. clear Ep c0 t0.
  destruct (encode prompt) as [tokens | e] eqn:Ee.
  2:{ exists prompt. split; [lia | exact Ee]. }
  destruct (Z.of_nat tokens <=? cs)%Z eqn:Efit.
  { cbn [trimmed]. split; [lia |]. right. exists tokens.
    split; [exact Ee | now apply Z.leb_le]. }
  apply Z.leb_gt in Efit. cbv zeta.
  set (chunk := (len prompt - (Z.of_nat tokens - cs) * 3)%Z).
  destruct (chunk <? MinChunkSize)%Z eqn:Emin.
  { cbn [trimmed]. unfold MinChunkSize.
    rewrite length_slice_to_nonneg by lia.
    split; [lia | left; lia]. }
  apply Z.ltb_ge in Emin. unfold MinChunkSize in Emin.
  unfold Splitter.init.
  replace (chunk <=? 0)%Z with false by (symmetry; apply Z.leb_gt; lia).
  set (splitter := MkSplitter chunk 0 default_separators).
  destruct (split_text_chunks splitter
              ltac:(cbn; tauto) ltac:(cbn; lia) (S fuel) prompt Hf)
    as [splits [-> Hsplits]].
  apply first_or_empty_length in Hsplits.
  assert (Hchunk : (chunk < len prompt)%Z) by (unfold chunk; lia).
  destruct (len (first_or_empty splits) =? len prompt)%Z eqn:Esame.
  - apply (trimmed_le (length (slice_to chunk prompt))).
    + rewrite length_slice_to_nonneg by lia. lia.
    + apply IH; [reflexivity |].
      rewrite length_slice_to_nonneg by lia. unfold len in Hchunk. lia.
  - apply Z.eqb_neq in Esame. unfold len in Esame.
    apply (trimmed_le (length (first_or_empty splits))); [exact Hsplits |].
    apply IH; [reflexivity | lia].
Qed.

(** X28 (llm.py, trim_prompt).  Trimming a prompt always comes to an end:
    a nesting of the recursive calls above the length of the prompt is
    enough.  It raises only what the encoder raises on some text no longer
    than the prompt.  What it returns is no longer than the prompt, and it
    either fits the context size by the encoder's count or has at most
    140 characters: below that length nothing is trimmed further, whatever
    the context size. *)
Theorem trim_prompt_ends_within_bounds
        (fuel : nat) (prompt : str) (context_size : option Z) (cs : Z) :
  resolve environment_context_size context_size = Ok cs ->
  (length prompt < fuel)%nat ->
  match trim_prompt encode environment_context_size fuel prompt
                    context_size with
  | Done r =>
      (length r <= length prompt)%nat /\
      ((length r <= 140)%nat \/
       exists tokens, encode r = Ok tokens /\ (Z.of_nat tokens <= cs)%Z)
  | Threw e => exists s, (length s <= length prompt)%nat /\ encode s = Raise e
  | OutOfFuel => False
  end.
Proof.
  intros Hcs Hf. exact (trim_prompt_trimmed fuel prompt context_size cs Hcs Hf).
Qed.
End TrimPromptFacts.

Lemma trim_prompt_ends_within_bounds_witness :
  match Llm.trim_prompt (fun s => Ok (length s)) (Ok 128000%Z) 4 $"a b"
                        (Some 2%Z) with
  | Engine.Done r =>
      (length r <= length $"a b")%nat /\
      ((length r <= 140)%nat \/
       exists tokens, Ok (length r) = Ok tokens /\
                      (Z.of_nat tokens <= 2)%Z)
  | Engine.Threw e =>
      exists s : str, (length s <= length $"a b")%nat /\
                      Ok (length s) = @Raise nat e
  | Engine.OutOfFuel => False
  end.
Proof.
  apply (trim_prompt_ends_within_bounds
           (fun s => Ok (length s)) (Ok 128000%Z) 4 $"a b" (Some 2%Z) 2%Z).
  - reflexivity.
  - cbn. lia.
Defined.
